(** * Identity reconciliation service: model and verification

    Shallow embedding of [src/service.ts] (the reconciler [identify] /
    [reconcile] and the response builder [buildResponse]), of the error code
    of [src/errors.ts] and of the [Contact] table of
    [prisma/migrations/20260228154331_init/migration.sql].

    The table is a list of rows in the order in which the database scans
    them; a transaction body is a function from the table to a [Result];
    a failed transaction is rolled back, so an [Err] carries no table.
    Time is a parameter of every call: [now] stands for the time stamped
    on [createdAt] (by the database, the time of the transaction) and on
    [updatedAt] (by the client, at each write).  The service reads
    [createdAt] only through the [ORDER BY] of its queries and never reads
    [updatedAt], so one value stands for all the stamps of a call, although
    the client stamps each write at its own time. *)

From Stdlib Require Import ZArith List String Bool Lia.
From Stdlib Require Import Sorting.Sorted Sorting.Permutation.
From Stdlib Require Import Morphisms Setoid.
Import ListNotations.
Open Scope string_scope.
Open Scope list_scope.
Open Scope Z_scope.

(* ------------------------------------------------------------------ *)
(** ** The Contact table (migration.sql) *)

(** The column is a VARCHAR(10); the service writes these two values and
    tests for ["primary"] only. *)
Inductive LinkPrecedence : Type :=
| primary
| secondary.

Module Contact.
Record t : Type := mk {
  id : Z;                          (* SERIAL, primary key *)
  phoneNumber : option string;     (* VARCHAR(20), nullable *)
  email : option string;           (* VARCHAR(320), nullable *)
  linkedId : option Z;             (* INTEGER, nullable, references id *)
  linkPrecedence : LinkPrecedence; (* "primary" | "secondary" *)
  createdAt : Z;                   (* TIMESTAMPTZ, default CURRENT_TIMESTAMP *)
  updatedAt : Z;                   (* TIMESTAMPTZ *)
  deletedAt : option Z             (* TIMESTAMPTZ, nullable: soft deletion *)
}.
End Contact.
Abbreviation Contact := Contact.t.

Record Store : Type := mkStore {
  rows : list Contact;  (* the table, in scan order *)
  nextId : Z            (* next value of the SERIAL sequence *)
}.

(* ------------------------------------------------------------------ *)
(** ** Errors and results *)

Inductive Error : Type :=
| PrismaClientKnownRequestError (code : string)
| PrismaClientUnknownRequestError
| PrismaClientValidationError
| TypeError.

(** errors.ts: [PRISMA_UNIQUE_CONSTRAINT_CODE]. *)
Definition PRISMA_UNIQUE_CONSTRAINT_CODE : string := "P2002".

(** The other request error codes the store can answer with. *)
Definition PRISMA_FOREIGN_KEY_CODE : string := "P2003".
Definition PRISMA_RECORD_NOT_FOUND_CODE : string := "P2025".
Definition PRISMA_WRITE_CONFLICT_CODE : string := "P2034".
Definition PRISMA_VALUE_TOO_LONG_CODE : string := "P2000".

Inductive Result (A : Type) : Type :=
| Ok (a : A)
| Err (e : Error).
Arguments Ok {A} a.
Arguments Err {A} e.

Definition bind {A B : Type} (m : Result A) (k : A -> Result B) : Result B :=
  match m with
  | Ok a => k a
  | Err e => Err e
  end.

Notation "x <- m ;; k" := (bind m (fun x => k))
  (at level 61, m at next level, right associativity).

(* ------------------------------------------------------------------ *)
(** ** Small helpers: JavaScript values *)

Definition optZ_eqb (a b : option Z) : bool :=
  match a, b with
  | Some x, Some y => x =? y
  | None, None => true
  | _, _ => false
  end.

Definition optString_eqb (a b : option string) : bool :=
  match a, b with
  | Some x, Some y => String.eqb x y
  | None, None => true
  | _, _ => false
  end.

(** [if (s)] on a [string | null]: null and the empty string are falsy. *)
Definition truthy (s : option string) : bool :=
  match s with
  | Some v => negb (String.eqb v "")
  | None => false
  end.

Definition isNull {A : Type} (s : option A) : bool :=
  match s with
  | Some _ => false
  | None => true
  end.

(** [Array.prototype.includes] / [Set.prototype.has] on strings. *)
Definition includes (l : list string) (s : string) : bool :=
  existsb (String.eqb s) l.

(** [Set.prototype.add] on a set of [number | null], kept in insertion
    order. *)
Definition Set_add (s : list (option Z)) (x : option Z) : list (option Z) :=
  if existsb (optZ_eqb x) s then s else s ++ [x].

(* ------------------------------------------------------------------ *)
(** ** Queries *)

(** [orderBy: { createdAt: "asc" }]: a stable insertion sort on [createdAt]
    alone.  The query names no second sort key, so the database is free to
    return rows with equal [createdAt] in any order; the order of [rows]
    stands for that choice. *)
Fixpoint insertByCreatedAt (c : Contact) (l : list Contact) : list Contact :=
  match l with
  | [] => [c]
  | d :: l' =>
      if Contact.createdAt c <=? Contact.createdAt d
      then c :: d :: l'
      else d :: insertByCreatedAt c l'
  end.

Fixpoint orderByCreatedAt (l : list Contact) : list Contact :=
  match l with
  | [] => []
  | c :: l' => insertByCreatedAt c (orderByCreatedAt l')
  end.

(** [tx.contact.findMany({ where, orderBy: { createdAt: "asc" } })]. *)
Definition findMany (where_ : Contact -> bool) (tx : Store) : list Contact :=
  orderByCreatedAt (filter where_ (rows tx)).

Definition isLive (c : Contact) : bool := isNull (Contact.deletedAt c).

(** Step 1: [orConditions] and the [where] clause built from them. *)
Definition orConditions (email phoneNumber : option string)
  : list (Contact -> bool) :=
  (if truthy email
   then [fun c => optString_eqb (Contact.email c) email] else [])
  ++
  (if truthy phoneNumber
   then [fun c => optString_eqb (Contact.phoneNumber c) phoneNumber] else []).

(** [OR: conds.length > 0 ? conds : undefined]: an undefined [OR] filters
    nothing. *)
Definition whereOR (conds : list (Contact -> bool)) (c : Contact) : bool :=
  match conds with
  | [] => true
  | _ => existsb (fun cond => cond c) conds
  end.

Definition whereMatching (email phoneNumber : option string) (c : Contact)
  : bool :=
  isLive c && whereOR (orConditions email phoneNumber) c.

(** Step 3: [{ id: { in: ids }, deletedAt: null }]. *)
Definition whereIdIn (ids : list Z) (c : Contact) : bool :=
  existsb (Z.eqb (Contact.id c)) ids && isLive c.

(** Step 5: [{ deletedAt: null, OR: [{ id }, { linkedId: id }] }]. *)
Definition whereGroup (rootId : Z) (c : Contact) : bool :=
  isLive c &&
  ((Contact.id c =? rootId) || optZ_eqb (Contact.linkedId c) (Some rootId)).

(* ------------------------------------------------------------------ *)
(** ** Constraints of the table (migration.sql) *)

Fixpoint pairwise {A : Type} (ok : A -> A -> bool) (l : list A) : bool :=
  match l with
  | [] => true
  | x :: l' => forallb (ok x) l' && pairwise ok l'
  end.

(** [CONSTRAINT "Contact_pkey" PRIMARY KEY ("id")]. *)
Definition primaryKeyHolds (rs : list Contact) : bool :=
  pairwise (fun a b => negb (Contact.id a =? Contact.id b)) rs.

(** [UNIQUE INDEX "uq_contact_identity" ("email","phoneNumber","linkedId")]:
    two rows clash when the three columns are equal and none is NULL (NULLs
    are distinct in a PostgreSQL unique index).  Soft-deleted rows count. *)
Definition sameIdentity (a b : Contact) : bool :=
  match Contact.email a, Contact.phoneNumber a, Contact.linkedId a,
        Contact.email b, Contact.phoneNumber b, Contact.linkedId b with
  | Some e1, Some p1, Some l1, Some e2, Some p2, Some l2 =>
      String.eqb e1 e2 && String.eqb p1 p2 && (l1 =? l2)
  | _, _, _, _, _, _ => false
  end.

Definition uniqueIndexHolds (rs : list Contact) : bool :=
  pairwise (fun a b => negb (sameIdentity a b)) rs.

(** [FOREIGN KEY ("linkedId") REFERENCES "Contact"("id")]. *)
Definition foreignKeyHolds (rs : list Contact) : bool :=
  forallb (fun c =>
             match Contact.linkedId c with
             | None => true
             | Some k => existsb (fun d => Contact.id d =? k) rs
             end) rs.

(** What the database answers to a write that leaves the table as [rs]. *)
Definition checkConstraints (rs : list Contact) : Result unit :=
  if negb (primaryKeyHolds rs && uniqueIndexHolds rs)
  then Err (PrismaClientKnownRequestError PRISMA_UNIQUE_CONSTRAINT_CODE)
  else if negb (foreignKeyHolds rs)
  then Err (PrismaClientKnownRequestError PRISMA_FOREIGN_KEY_CODE)
  else Ok tt.

(* ------------------------------------------------------------------ *)
(** ** Writes *)

(** The largest value of the sequence of a [SERIAL] column. *)
Definition INT_MAX : Z := 2147483647.

(** A value fits a [VARCHAR(limit)] column.  The limit of the column is
    in characters and a string stands for its code units, of which it has
    at least as many: a value that passes this test fits, and the test is
    the column's own on every string without surrogate pairs. *)
Definition fitsColumn (limit : nat) (v : option string) : bool :=
  match v with
  | Some s => (String.length s <=? limit)%nat
  | None => true
  end.

(** ["phoneNumber" VARCHAR(20)] and ["email" VARCHAR(320)]. *)
Definition fitsColumns (email phoneNumber : option string) : bool :=
  fitsColumn 20 phoneNumber && fitsColumn 320 email.

(** [tx.contact.create({ data: { email, phoneNumber, linkedId,
    linkPrecedence } })].  The id is the next value of the sequence, which
    ends at [INT_MAX]: past it the insert fails with an error that the
    client does not know by a code.  A value longer than its column is
    refused with P2000.  [now] is the time the database stamps on the
    row. *)
Definition create (email phoneNumber : option string) (linkedId : option Z)
  (linkPrecedence : LinkPrecedence) (now : Z) (tx : Store)
  : Result (Store * Contact) :=
  if INT_MAX <? nextId tx then Err PrismaClientUnknownRequestError
  else if negb (fitsColumns email phoneNumber)
  then Err (PrismaClientKnownRequestError PRISMA_VALUE_TOO_LONG_CODE)
  else
    let created :=
      Contact.mk (nextId tx) phoneNumber email linkedId linkPrecedence
                 now now None in
    let rows' := rows tx ++ [created] in
    _ <- checkConstraints rows' ;;
    Ok (mkStore rows' (nextId tx + 1), created).

(** The row after [data: { linkedId, linkPrecedence: "secondary" }]. *)
Definition demote (rootId now : Z) (c : Contact) : Contact :=
  Contact.mk (Contact.id c) (Contact.phoneNumber c) (Contact.email c)
             (Some rootId) secondary
             (Contact.createdAt c) now (Contact.deletedAt c).

(** The row after [data: { linkedId }]. *)
Definition relink (rootId now : Z) (c : Contact) : Contact :=
  Contact.mk (Contact.id c) (Contact.phoneNumber c) (Contact.email c)
             (Some rootId) (Contact.linkPrecedence c)
             (Contact.createdAt c) now (Contact.deletedAt c).

(** An [UPDATE] of the database writes the new version of a row as a new
    tuple: the rows it does not touch keep their place in the scan, and the
    rows it touches come after them, in the order in which they were
    scanned. *)
Definition rewriteRows (touched : Contact -> bool)
  (change : Contact -> Contact) (rs : list Contact) : list Contact :=
  filter (fun c => negb (touched c)) rs ++ map change (filter touched rs).

(** [tx.contact.update({ where: { id }, data: { linkedId,
    linkPrecedence: "secondary" } })]. *)
Definition update (whereId rootId now : Z) (tx : Store) : Result Store :=
  if existsb (fun c => Contact.id c =? whereId) (rows tx) then
    let rows' :=
      rewriteRows (fun c => Contact.id c =? whereId) (demote rootId now)
                  (rows tx) in
    _ <- checkConstraints rows' ;;
    Ok (mkStore rows' (nextId tx))
  else Err (PrismaClientKnownRequestError PRISMA_RECORD_NOT_FOUND_CODE).

(** [tx.contact.updateMany({ where: { linkedId, deletedAt: null },
    data: { linkedId: rootId } })]. *)
Definition updateMany (whereLinkedId rootId now : Z) (tx : Store)
  : Result Store :=
  let rows' :=
    rewriteRows (fun c => optZ_eqb (Contact.linkedId c) (Some whereLinkedId)
                          && isLive c)
                (relink rootId now) (rows tx) in
  _ <- checkConstraints rows' ;;
  Ok (mkStore rows' (nextId tx)).

(* ------------------------------------------------------------------ *)
(** ** Response *)

Record ConsolidatedContact : Type := mkConsolidated {
  primaryContactId : Z;
  emails : list string;
  phoneNumbers : list string;
  secondaryContactIds : list Z
}.

Record IdentifyResponse : Type := mkResponse {
  contact : ConsolidatedContact
}.

(** [if (v) arr.push(v)] for the primary. *)
Definition pushTruthy (arr : list string) (v : option string) : list string :=
  match v with
  | Some s => if negb (String.eqb s "") then arr ++ [s] else arr
  | None => arr
  end.

(** [if (v && !arr.includes(v)) arr.push(v)] for a secondary. *)
Definition pushNew (arr : list string) (v : option string) : list string :=
  match v with
  | Some s =>
      if negb (String.eqb s "") && negb (includes arr s)
      then arr ++ [s] else arr
  | None => arr
  end.

Definition buildResponse (primary_ : Contact) (secondaries : list Contact)
  : IdentifyResponse :=
  let emails0 := pushTruthy [] (Contact.email primary_) in
  let phoneNumbers0 := pushTruthy [] (Contact.phoneNumber primary_) in
  let emails1 :=
    fold_left (fun arr s => pushNew arr (Contact.email s))
              secondaries emails0 in
  let phoneNumbers1 :=
    fold_left (fun arr s => pushNew arr (Contact.phoneNumber s))
              secondaries phoneNumbers0 in
  mkResponse
    (mkConsolidated (Contact.id primary_) emails1 phoneNumbers1
                    (map Contact.id secondaries)).

(* ------------------------------------------------------------------ *)
(** ** The reconciler *)

(** Step 3, the loop body: [c.linkPrecedence === "primary" ? c.id :
    c.linkedId!]. *)
Definition rootIdOf (c : Contact) : option Z :=
  match Contact.linkPrecedence c with
  | primary => Some (Contact.id c)
  | secondary => Contact.linkedId c
  end.

Definition primaryIds (matchingContacts : list Contact) : list (option Z) :=
  fold_left (fun s c => Set_add s (rootIdOf c)) matchingContacts [].

(** [id: { in: Array.from(primaryIds) }]: the client validates the list
    against the column type [Int] and rejects a null element (the [!] of
    [c.linkedId!] is erased at run time). *)
Fixpoint idList (ids : list (option Z)) : Result (list Z) :=
  match ids with
  | [] => Ok []
  | Some k :: ids' => ks <- idList ids' ;; Ok (k :: ks)
  | None :: _ => Err PrismaClientValidationError
  end.

(** Steps 1 and 3 as a query of their own: the matches, then the root
    primaries they resolve to, oldest first. *)
Definition matchingContacts (email phoneNumber : option string) (tx : Store)
  : list Contact :=
  findMany (whereMatching email phoneNumber) tx.

Definition primaries (email phoneNumber : option string) (tx : Store)
  : Result (list Contact) :=
  ids <- idList (primaryIds (matchingContacts email phoneNumber tx)) ;;
  Ok (findMany (whereIdIn ids) tx).

(** Step 4: [for (let i = 1; i < primaries.length; i++)]. *)
Fixpoint mergeLoop (rootId : Z) (losers : list Contact) (now : Z) (tx : Store)
  : Result Store :=
  match losers with
  | [] => Ok tx
  | demoted :: losers' =>
      tx1 <- update (Contact.id demoted) rootId now tx ;;
      tx2 <- updateMany (Contact.id demoted) rootId now tx1 ;;
      mergeLoop rootId losers' now tx2
  end.

(** Step 5.  [.filter(Boolean)] drops null and the empty string; the
    [Set] built from the result is only asked [has]. *)
Fixpoint filterBoolean (l : list (option string)) : list string :=
  match l with
  | [] => []
  | Some s :: l' =>
      if truthy (Some s) then s :: filterBoolean l' else filterBoolean l'
  | None :: l' => filterBoolean l'
  end.

Definition existingEmails (allLinked : list Contact) : list string :=
  filterBoolean (map Contact.email allLinked).

Definition existingPhones (allLinked : list Contact) : list string :=
  filterBoolean (map Contact.phoneNumber allLinked).

Definition hasNew (v : option string) (existing : list string) : bool :=
  match v with
  | Some s => negb (includes existing s)
  | None => false
  end.

Definition hasNewEmail (email : option string) (allLinked : list Contact) :=
  hasNew email (existingEmails allLinked).

Definition hasNewPhone (phoneNumber : option string)
  (allLinked : list Contact) :=
  hasNew phoneNumber (existingPhones allLinked).

Definition exactDuplicate (email phoneNumber : option string)
  (allLinked : list Contact) : bool :=
  existsb (fun c =>
             (isNull email || optString_eqb (Contact.email c) email) &&
             (isNull phoneNumber ||
              optString_eqb (Contact.phoneNumber c) phoneNumber))
          allLinked.

Definition attachCondition (email phoneNumber : option string)
  (allLinked : list Contact) : bool :=
  (hasNewEmail email allLinked || hasNewPhone phoneNumber allLinked)
  && negb (exactDuplicate email phoneNumber allLinked).

(** Step 6: [allLinked.filter((c) => c.id !== rootPrimary.id)]. *)
Definition secondariesOf (rootId : Z) (allLinked : list Contact)
  : list Contact :=
  filter (fun c => negb (Contact.id c =? rootId)) allLinked.

(** Steps 4 to 6, once the root primaries are known. *)
Definition mergeAndAttach (email phoneNumber : option string) (now : Z)
  (tx : Store) (primaries_ : list Contact)
  : Result (Store * IdentifyResponse) :=
  match primaries_ with
  | [] =>
      (* rootPrimary is undefined: reading rootPrimary.id throws *)
      Err TypeError
  | rootPrimary :: losers =>
      let rootId := Contact.id rootPrimary in
      tx1 <- mergeLoop rootId losers now tx ;;
      let allLinked := findMany (whereGroup rootId) tx1 in
      if attachCondition email phoneNumber allLinked then
        r <- create email phoneNumber (Some rootId) secondary now tx1 ;;
        let '(tx2, newSecondary) := r in
        Ok (tx2, buildResponse rootPrimary
                   (secondariesOf rootId (allLinked ++ [newSecondary])))
      else
        Ok (tx1, buildResponse rootPrimary (secondariesOf rootId allLinked))
  end.

Definition reconcile (email phoneNumber : option string) (now : Z)
  (tx : Store) : Result (Store * IdentifyResponse) :=
  match matchingContacts email phoneNumber tx with
  | [] =>
      r <- create email phoneNumber None primary now tx ;;
      let '(tx1, created) := r in
      Ok (tx1, buildResponse created [])
  | _ :: _ =>
      ps <- primaries email phoneNumber tx ;;
      mergeAndAttach email phoneNumber now tx ps
  end.

(* ------------------------------------------------------------------ *)
(** ** Transactions and [identify] *)

(** One call of [prisma.$transaction]: the table it reads, the time the
    database stamps on writes, and what the database decides at commit
    ([None]: commit; [Some e]: the transaction is aborted with [e], e.g. a
    write conflict detected under serializable isolation). *)
Record Attempt : Type := mkAttempt {
  snapshot : Store;
  now_ : Z;
  abort : option Error
}.

Definition transaction {A : Type} (a : Attempt)
  (body : Z -> Store -> Result (Store * A)) : Result (Store * A) :=
  r <- body (now_ a) (snapshot a) ;;
  match abort a with
  | Some e => Err e
  | None => Ok r
  end.

(** An error that a write can raise. *)
Definition requestError (err : Error) : Prop :=
  (exists code, err = PrismaClientKnownRequestError code) \/
  err = PrismaClientUnknownRequestError.

(** The test of the [catch] block. *)
Definition isUniqueConstraintError (err : Error) : bool :=
  match err with
  | PrismaClientKnownRequestError code =>
      String.eqb code PRISMA_UNIQUE_CONSTRAINT_CODE
  | _ => false
  end.

Definition identify (first retry : Attempt) (email phoneNumber : option string)
  : Result (Store * IdentifyResponse) :=
  match transaction first (reconcile email phoneNumber) with
  | Ok result => Ok result
  | Err err =>
      if isUniqueConstraintError err
      then transaction retry (reconcile email phoneNumber)
      else Err err
  end.

(* ================================================================== *)
(** * Specification-side definitions *)

(** A request field as the validator of [schemas.ts] hands it over: absent,
    or a string that is not empty ([v && v.length > 0 ? v : null]). *)
Definition normalized (v : option string) : Prop := v <> Some "".

(** The traversal order the specification names for secondaries and root
    primaries: ascending [createdAt], ties broken by ascending [id]. *)
Definition olderOrLowerId (a b : Contact) : bool :=
  (Contact.createdAt a <? Contact.createdAt b) ||
  ((Contact.createdAt a =? Contact.createdAt b) &&
   (Contact.id a <=? Contact.id b)).

Fixpoint insertByCreatedAtThenId (c : Contact) (l : list Contact)
  : list Contact :=
  match l with
  | [] => [c]
  | d :: l' =>
      if olderOrLowerId c d then c :: d :: l'
      else d :: insertByCreatedAtThenId c l'
  end.

Fixpoint orderByCreatedAtThenId (l : list Contact) : list Contact :=
  match l with
  | [] => []
  | c :: l' => insertByCreatedAtThenId c (orderByCreatedAtThenId l')
  end.

(** The consolidated view of the group of [survivor] in the rows [rs], as
    the specification words it: the survivor first, then the other live
    rows of its group traversed in ascending [createdAt], ties broken by
    ascending [id]. *)
Definition consolidatedView (survivor : Contact) (rs : list Contact)
  : IdentifyResponse :=
  buildResponse survivor
    (orderByCreatedAtThenId
       (secondariesOf (Contact.id survivor)
          (filter (whereGroup (Contact.id survivor)) rs))).

(** The net effect of step 4 on one row, for the survivor [rootId] and the
    ids [loserIds] of the losers: a loser is demoted, a live row linked to a
    loser is re-linked, any other row is left alone.  [mergeLoop_rows]
    proves that the loop computes this. *)
Definition linksInto (ids : list Z) (c : Contact) : bool :=
  match Contact.linkedId c with
  | Some k => existsb (Z.eqb k) ids
  | None => false
  end.

Definition merged (rootId : Z) (loserIds : list Z) (now : Z) (c : Contact)
  : Contact :=
  if existsb (Z.eqb (Contact.id c)) loserIds then demote rootId now c
  else if linksInto loserIds c && isLive c then relink rootId now c
  else c.

(** ** Invariants of the table *)

(** Primary key: ids are unique. *)
Definition uniqueIds (rs : list Contact) : Prop :=
  NoDup (map Contact.id rs).

(** Foreign key: a [linkedId] names a row of the table. *)
Definition linksExist (rs : list Contact) : Prop :=
  forall c k, In c rs -> Contact.linkedId c = Some k ->
              exists d, In d rs /\ Contact.id d = k.

(** Depth-one: no live secondary is referenced by a live row's
    [linkedId]. *)
Definition depthOne (rs : list Contact) : Prop :=
  forall c d, In c rs -> In d rs -> isLive c = true -> isLive d = true ->
              Contact.linkedId c = Some (Contact.id d) ->
              Contact.linkPrecedence d = primary.

(** Every live secondary is linked to a live primary. *)
Definition linksValid (rs : list Contact) : Prop :=
  forall c, In c rs -> isLive c = true ->
            Contact.linkPrecedence c = secondary ->
            exists d, In d rs /\ isLive d = true /\
                      Contact.linkPrecedence d = primary /\
                      Contact.linkedId c = Some (Contact.id d).

(** "Shares email or shares phone": an absent field is shared with
    nobody. *)
Definition shares (a b : Contact) : Prop :=
  (exists s, Contact.email a = Some s /\ Contact.email b = Some s) \/
  (exists s, Contact.phoneNumber a = Some s /\ Contact.phoneNumber b = Some s).

(** The transitive closure of [shares] over the live rows of a table. *)
Inductive connected (rs : list Contact) : Contact -> Contact -> Prop :=
| connected_refl (a : Contact) :
    In a rs -> isLive a = true -> connected rs a a
| connected_step (a b c : Contact) :
    connected rs a b -> In c rs -> isLive c = true -> shares b c ->
    connected rs a c.

Definition isLivePrimary (rs : list Contact) (c : Contact) : Prop :=
  In c rs /\ isLive c = true /\ Contact.linkPrecedence c = primary.

(** At most one live primary in each class of [connected]. *)
Definition singlePrimary (rs : list Contact) : Prop :=
  forall a b, isLivePrimary rs a -> isLivePrimary rs b ->
              connected rs a b -> Contact.id a = Contact.id b.

(** Exactly one live primary in each class of [connected], as the
    specification words it. *)
Definition exactlyOnePrimary (rs : list Contact) : Prop :=
  forall c, In c rs -> isLive c = true ->
            exists a, isLivePrimary rs a /\ connected rs c a /\
                      forall b, isLivePrimary rs b -> connected rs c b ->
                                Contact.id b = Contact.id a.

(** ** Sequences of calls *)

(** One call of [reconcile]: the request and the time of the
    transaction. *)
Record Call : Type := mkCall {
  callEmail : option string;
  callPhoneNumber : option string;
  callTime : Z
}.

Definition normalizedCall (call : Call) : Prop :=
  normalized (callEmail call) /\ normalized (callPhoneNumber call).

Fixpoint reconcileAll (calls : list Call) (tx : Store) : Result Store :=
  match calls with
  | [] => Ok tx
  | call :: calls' =>
      r <- reconcile (callEmail call) (callPhoneNumber call)
                     (callTime call) tx ;;
      reconcileAll calls' (fst r)
  end.

(* ================================================================== *)
(** * Concrete tables used in the examples *)

Module Examples.

(** A row whose [updatedAt] is its [createdAt]. *)
Definition row (id : Z) (email phoneNumber : option string)
  (linkedId : option Z) (linkPrecedence : LinkPrecedence) (createdAt : Z)
  (deletedAt : option Z) : Contact :=
  Contact.mk id phoneNumber email linkedId linkPrecedence
             createdAt createdAt deletedAt.

Definition emptyStore : Store := mkStore [] 1.

(** A group whose two secondaries were stamped with the same [createdAt];
    the scan meets row 3 before row 2. *)
Definition tiedPrimary : Contact :=
  row 1 (Some "a@t.io") (Some "100") None primary 1 None.
Definition tiedSecondary2 : Contact :=
  row 2 (Some "b@t.io") (Some "100") (Some 1) secondary 5 None.
Definition tiedSecondary3 : Contact :=
  row 3 (Some "c@t.io") (Some "100") (Some 1) secondary 5 None.
Definition tiedGroup : Store :=
  mkStore [tiedPrimary; tiedSecondary3; tiedSecondary2] 4.

(** Two primaries stamped with the same [createdAt]; the scan meets row 2
    before row 1. *)
Definition tiedRoot1 : Contact :=
  row 1 (Some "a@t.io") (Some "100") None primary 5 None.
Definition tiedRoot2 : Contact :=
  row 2 (Some "b@t.io") (Some "200") None primary 5 None.
Definition tiedRoots : Store := mkStore [tiedRoot2; tiedRoot1] 3.

(** A live secondary whose primary was soft-deleted, next to a live
    primary with the same phone. *)
Definition livePrimary : Contact :=
  row 1 (Some "a@t.io") (Some "100") None primary 1 None.
Definition deletedPrimary : Contact :=
  row 2 (Some "b@t.io") (Some "200") None primary 2 (Some 4).
Definition orphan : Contact :=
  row 3 (Some "c@t.io") (Some "100") (Some 2) secondary 3 None.
Definition dangling : Store :=
  mkStore [livePrimary; deletedPrimary; orphan] 4.
Definition danglingOnly : Store := mkStore [deletedPrimary; orphan] 4.

(** The same orphan next to a secondary of the same email whose [linkedId]
    is null. *)
Definition unlinked : Contact :=
  row 4 (Some "c@t.io") (Some "300") None secondary 4 None.
Definition danglingNull : Store :=
  mkStore [deletedPrimary; orphan; unlinked] 5.

(** A group whose secondary is stamped later than the call that attaches
    a third row, and the table and payloads of that call and of its
    repetition. *)
Definition latePrimary : Contact :=
  row 1 (Some "a@t.io") (Some "100") None primary 50 None.
Definition lateSecondary : Contact :=
  row 2 (Some "b@t.io") (Some "100") (Some 1) secondary 60 None.
Definition lateGroup : Store := mkStore [latePrimary; lateSecondary] 3.
Definition lateAttached : Contact :=
  row 3 (Some "c@t.io") (Some "100") (Some 1) secondary 55 None.
Definition lateGroupAfter : Store :=
  mkStore [latePrimary; lateSecondary; lateAttached] 4.

(** Two primaries and a secondary of the first stamped like the second
    primary; the same with one secondary under each primary, stamped
    alike. *)
Definition movedPrimary1 : Contact :=
  row 1 (Some "a@t.io") (Some "100") None primary 10 None.
Definition movedPrimary2 : Contact :=
  row 2 (Some "b@t.io") (Some "200") None primary 20 None.
Definition movedSecondary3 : Contact :=
  row 3 (Some "c@t.io") (Some "100") (Some 1) secondary 20 None.
Definition movedOne : Store :=
  mkStore [movedPrimary1; movedPrimary2; movedSecondary3] 4.
Definition movedChild3 : Contact :=
  row 3 (Some "c@t.io") (Some "200") (Some 2) secondary 30 None.
Definition movedChild4 : Contact :=
  row 4 (Some "d@t.io") (Some "100") (Some 1) secondary 30 None.
Definition movedMany : Store :=
  mkStore [movedPrimary1; movedPrimary2; movedChild3; movedChild4] 5.

(** A row whose email is the empty string. *)
Definition emptyEmailRow : Contact :=
  row 1 (Some "") (Some "100") None primary 1 None.
Definition emptyEmailOnly : Store := mkStore [emptyEmailRow] 2.

(** The merge of two primaries: three calls on an empty table, and the
    table they leave. *)
Definition mergeCalls : list Call :=
  [mkCall (Some "george@hv.edu") (Some "919191") 10;
   mkCall (Some "biff@hv.edu") (Some "717171") 20;
   mkCall (Some "george@hv.edu") (Some "717171") 30].
Definition george : Contact :=
  row 1 (Some "george@hv.edu") (Some "919191") None primary 10 None.
Definition biff : Contact :=
  Contact.mk 2 (Some "717171") (Some "biff@hv.edu") (Some 1) secondary
             20 30 None.
Definition afterMerge : Store := mkStore [george; biff] 3.

(** A group whose secondary was soft-deleted: the row still occupies its
    entry of the unique index. *)
Definition docPrimary : Contact :=
  row 1 (Some "doc@hv.edu") (Some "555-0100") None primary 1 None.
Definition martyDeleted : Contact :=
  row 2 (Some "marty@hv.edu") (Some "555-0100") (Some 1) secondary 2 (Some 3).
Definition softDeleted : Store := mkStore [docPrimary; martyDeleted] 3.
Definition docOnly : Store := mkStore [docPrimary] 2.

(** The same primary with a live secondary attached at time 11. *)
Definition martySecondary : Contact :=
  row 2 (Some "marty@hv.edu") (Some "555-0100") (Some 1) secondary 11 None.
Definition docMarty : Store := mkStore [docPrimary; martySecondary] 3.
Definition docMartyPayload : IdentifyResponse :=
  mkResponse (mkConsolidated 1 ["doc@hv.edu"; "marty@hv.edu"]
                             ["555-0100"] [2]).

(** Three independent primaries, then two requests that join them. *)
Definition cascadeCalls : list Call :=
  [mkCall (Some "a@test.com") (Some "111") 1;
   mkCall (Some "b@test.com") (Some "222") 2;
   mkCall (Some "c@test.com") (Some "333") 3;
   mkCall (Some "a@test.com") (Some "222") 4;
   mkCall (Some "c@test.com") (Some "111") 5].
Definition afterCascade : Store :=
  mkStore
    [row 1 (Some "a@test.com") (Some "111") None primary 1 None;
     Contact.mk 2 (Some "222") (Some "b@test.com") (Some 1) secondary 2 4 None;
     Contact.mk 3 (Some "333") (Some "c@test.com") (Some 1) secondary 3 5 None]
    4.

(** Attempts of [identify]: one that the database aborts at commit with a
    write conflict, and plain ones. *)
Definition writeConflict : Error :=
  PrismaClientKnownRequestError PRISMA_WRITE_CONFLICT_CODE.
Definition uniqueViolation : Error :=
  PrismaClientKnownRequestError PRISMA_UNIQUE_CONSTRAINT_CODE.
Definition conflictingAttempt : Attempt := mkAttempt docOnly 10 (Some writeConflict).
Definition cleanAttempt : Attempt := mkAttempt docOnly 11 None.
Definition clashingAttempt : Attempt := mkAttempt softDeleted 10 None.

End Examples.

From Stdlib Require Ascii DecimalString.

(* ================================================================== *)
(** * Further properties of the reconciler: definitions *)

(** What a call whose survivor is [rootId] may do to a row that was in
    the table: the columns [id], [email], [phoneNumber], [createdAt] and
    [deletedAt] are kept; [linkPrecedence] may go from primary to secondary,
    never back; [linkedId] is kept or set to [rootId]. *)
Definition keepsRow (rootId : Z) (before after : Contact) : Prop :=
  Contact.id after = Contact.id before /\
  Contact.email after = Contact.email before /\
  Contact.phoneNumber after = Contact.phoneNumber before /\
  Contact.createdAt after = Contact.createdAt before /\
  Contact.deletedAt after = Contact.deletedAt before /\
  (Contact.linkPrecedence after = primary ->
   Contact.linkPrecedence before = primary) /\
  (Contact.linkedId after = Contact.linkedId before \/
   Contact.linkedId after = Some rootId).


(** The live rows of the group of [rootId]: the row of that id and the rows
    linked to it. *)
Definition inGroup (rootId : Z) (c : Contact) : Prop :=
  isLive c = true /\
  (Contact.id c = rootId \/ Contact.linkedId c = Some rootId).

(** Seniority: a live row is not older than the live row it is linked
    to. *)
Definition seniority (rs : list Contact) : Prop :=
  forall c d, In c rs -> In d rs -> isLive c = true -> isLive d = true ->
              Contact.linkedId c = Some (Contact.id d) ->
              Contact.createdAt d <= Contact.createdAt c.

(** No row is stamped later than [now]. *)
Definition notAfter (now : Z) (rs : list Contact) : Prop :=
  forall c, In c rs -> Contact.createdAt c <= now.

(** The calls are made at times that do not decrease, from [t] on. *)
Fixpoint timesFrom (t : Z) (calls : list Call) : Prop :=
  match calls with
  | [] => True
  | call :: calls' => t <= callTime call /\ timesFrom (callTime call) calls'
  end.

(* ================================================================== *)
(** * The service of [bitespeed-identity/src/service.ts] *)

(** The earlier copy of the service: one transaction with the client's
    default options and no retry; the root primaries pass through a [Map]
    keyed by id and are sorted again; the payload spells its first field
    [primaryContatctId].  Steps whose text is the same as in
    [src/service.ts] use the same definitions. *)
Module Legacy.

Record ConsolidatedContact : Type := mkConsolidated {
  primaryContatctId : Z;
  emails : list string;
  phoneNumbers : list string;
  secondaryContactIds : list Z
}.

Record IdentifyResponse : Type := mkResponse {
  contact : ConsolidatedContact
}.

Definition buildResponse (primary_ : Contact) (secondaries : list Contact)
  : IdentifyResponse :=
  let emails0 := pushTruthy [] (Contact.email primary_) in
  let phoneNumbers0 := pushTruthy [] (Contact.phoneNumber primary_) in
  let emails1 :=
    fold_left (fun arr s => pushNew arr (Contact.email s))
              secondaries emails0 in
  let phoneNumbers1 :=
    fold_left (fun arr s => pushNew arr (Contact.phoneNumber s))
              secondaries phoneNumbers0 in
  mkResponse
    (mkConsolidated (Contact.id primary_) emails1 phoneNumbers1
                    (map Contact.id secondaries)).

(** [Map.prototype.set]: the value of a key that is present is replaced
    where it stands; a new key goes to the end. *)
Fixpoint Map_set (m : list (Z * Contact)) (k : Z) (v : Contact)
  : list (Z * Contact) :=
  match m with
  | [] => [(k, v)]
  | (k', v') :: m' =>
      if k' =? k then (k, v) :: m' else (k', v') :: Map_set m' k v
  end.

(** [Array.from(m.values())]. *)
Definition Map_values (m : list (Z * Contact)) : list Contact :=
  map snd m.

(** [for (const p of primaries) primaryMap.set(p.id, p)]. *)
Definition primaryMap (primaries_ : list Contact) : list (Z * Contact) :=
  fold_left (fun m p => Map_set m (Contact.id p) p) primaries_ [].

(** [Array.from(primaryMap.values()).sort((a, b) => a.createdAt.getTime()
    - b.createdAt.getTime())]; [Array.prototype.sort] is stable, and so is
    [orderByCreatedAt]. *)
Definition sortedPrimaries (primaries_ : list Contact) : list Contact :=
  orderByCreatedAt (Map_values (primaryMap primaries_)).

(** The callback given to [prisma.$transaction]. *)
Definition reconcile (email phoneNumber : option string) (now : Z)
  (tx : Store) : Result (Store * IdentifyResponse) :=
  match matchingContacts email phoneNumber tx with
  | [] =>
      r <- create email phoneNumber None primary now tx ;;
      let '(tx1, newContact) := r in
      Ok (tx1, buildResponse newContact [])
  | _ :: _ =>
      ps <- primaries email phoneNumber tx ;;
      match sortedPrimaries ps with
      | [] =>
          (* rootPrimary is undefined: reading rootPrimary.id throws *)
          Err TypeError
      | rootPrimary :: losers =>
          let rootId := Contact.id rootPrimary in
          tx1 <- mergeLoop rootId losers now tx ;;
          let allLinked := findMany (whereGroup rootId) tx1 in
          if attachCondition email phoneNumber allLinked then
            r <- create email phoneNumber (Some rootId) secondary now tx1 ;;
            let '(tx2, newSecondary) := r in
            Ok (tx2, buildResponse rootPrimary
                       (secondariesOf rootId (allLinked ++ [newSecondary])))
          else
            Ok (tx1, buildResponse rootPrimary
                       (secondariesOf rootId allLinked))
      end
  end.

Definition identify (a : Attempt) (email phoneNumber : option string)
  : Result (Store * IdentifyResponse) :=
  transaction a (reconcile email phoneNumber).

End Legacy.

(** The payload of [src/service.ts] under the field names of the earlier
    service. *)
Definition legacyPayload (resp : IdentifyResponse) : Legacy.IdentifyResponse :=
  Legacy.mkResponse
    (Legacy.mkConsolidated (primaryContactId (contact resp))
                           (emails (contact resp))
                           (phoneNumbers (contact resp))
                           (secondaryContactIds (contact resp))).

Definition legacyResult (r : Result (Store * IdentifyResponse))
  : Result (Store * Legacy.IdentifyResponse) :=
  match r with
  | Ok (tx, resp) => Ok (tx, legacyPayload resp)
  | Err e => Err e
  end.

(** The request carries a value that no live row of the table holds. *)
Definition bringsNewValue (email phoneNumber : option string)
  (rs : list Contact) : Prop :=
  (email <> None /\
   forall x, In x rs -> isLive x = true -> Contact.email x <> email) \/
  (phoneNumber <> None /\
   forall x, In x rs -> isLive x = true ->
             Contact.phoneNumber x <> phoneNumber).

(* ================================================================== *)
(** * Consistent tables *)

(** No row is soft-deleted. *)
Definition allLive (rs : list Contact) : Prop :=
  forall c, In c rs -> isLive c = true.

(** The sequence of ids is ahead of every id in use. *)
Definition idsBelow (n : Z) (rs : list Contact) : Prop :=
  forall c, In c rs -> Contact.id c < n.

(** No two rows hold the same pair of a non-null email and a non-null
    phone number. *)
Definition pairsUnique (rs : list Contact) : Prop :=
  forall a b e p, In a rs -> In b rs ->
    Contact.email a = Some e -> Contact.phoneNumber a = Some p ->
    Contact.email b = Some e -> Contact.phoneNumber b = Some p ->
    Contact.id a = Contact.id b.

Definition consistent (tx : Store) : Prop :=
  allLive (rows tx) /\ uniqueIds (rows tx) /\
  idsBelow (nextId tx) (rows tx) /\
  linksExist (rows tx) /\ linksValid (rows tx) /\ pairsUnique (rows tx).

(* ================================================================== *)
(** * Groups and shared fields *)

(** Two rows hold the same non-empty email or the same non-empty phone
    number: the values on which step 1 matches. *)
Definition sharesTruthy (a b : Contact) : Prop :=
  (exists s, s <> "" /\
             Contact.email a = Some s /\ Contact.email b = Some s) \/
  (exists s, s <> "" /\
             Contact.phoneNumber a = Some s /\ Contact.phoneNumber b = Some s).

(** Live rows that share such a value resolve to the same root. *)
Definition groupsClosed (rs : list Contact) : Prop :=
  forall a b, In a rs -> In b rs -> isLive a = true -> isLive b = true ->
              sharesTruthy a b -> rootIdOf a = rootIdOf b.

(** Where a merge with survivor [rootId] sends a root. *)
Definition rootAfter (rootId : Z) (loserIds : list Z) (k : Z) : Z :=
  if existsb (Z.eqb k) loserIds then rootId else k.

(* ================================================================== *)
(** * The clock *)

(** A row without the time of its last update, and without any time. *)
Definition unstamped (c : Contact) : Contact :=
  Contact.mk (Contact.id c) (Contact.phoneNumber c) (Contact.email c)
             (Contact.linkedId c) (Contact.linkPrecedence c)
             (Contact.createdAt c) 0 (Contact.deletedAt c).

Definition timeless (c : Contact) : Contact :=
  Contact.mk (Contact.id c) (Contact.phoneNumber c) (Contact.email c)
             (Contact.linkedId c) (Contact.linkPrecedence c)
             0 0 (Contact.deletedAt c).

Definition unstampedStore (tx : Store) : Store :=
  mkStore (map unstamped (rows tx)) (nextId tx).

Definition mapResult {A B : Type} (f : A -> B) (r : Result A) : Result B :=
  match r with
  | Ok a => Ok (f a)
  | Err e => Err e
  end.

(** The outcome of a call, times left out: the error, or the payload and
    the table without its time stamps. *)
Definition timelessOutcome (r : Result (Store * IdentifyResponse))
  : Result (Store * IdentifyResponse) :=
  mapResult (fun r => (mkStore (map timeless (rows (fst r))) (nextId (fst r)),
                       snd r)) r.

(* ================================================================== *)
(** * The order of the scan *)

(** No two rows were created at the same time. *)
Definition noTies (rs : list Contact) : Prop :=
  NoDup (map Contact.createdAt rs).

(** Two outcomes of a call that differ at most in the order of the rows of
    the table. *)
Definition sameUpToOrder (r r' : Result (Store * IdentifyResponse)) : Prop :=
  match r, r' with
  | Ok (tx, resp), Ok (tx', resp') =>
      resp = resp' /\ Permutation (rows tx) (rows tx') /\
      nextId tx = nextId tx'
  | Err e, Err e' => e = e'
  | _, _ => False
  end.

(* ================================================================== *)
(** * The HTTP layer: [schemas.ts], [routes.ts], [middleware.ts] *)

(** What the validation schema calls and is not defined in this
    repository: the string methods of the language, the email check of the
    validation library, and the regular expression of the phone number as a
    test on strings.  A string stands for its sequence of code units, so
    [.length] is [String.length]. *)
Class Primitives : Type := {
  Number : Type;                        (* a number of the parsed body *)
  numberToString : Number -> string;    (* String(v) *)
  trim : string -> string;              (* String.prototype.trim *)
  toLowerCase : string -> string;       (* String.prototype.toLowerCase *)
  isEmail : string -> bool;             (* .email() *)
  phonePattern : string -> bool         (* /^[+]?[\d\s\-()]+$/.test(s) *)
}.

(** An error object as the error handler reads it. *)
Record JsError : Type := mkJsError {
  message : string;
  stack : option string;
  statusCode : option Z
}.

(** [res.status(code).json(body)].  The [details] of a validation failure
    (the messages of the issues) are not modelled. *)
Inductive ResponseBody : Type :=
| PayloadBody (result : IdentifyResponse)
| ValidationBody (error : string)
| ErrorBody (error : string) (stack_ : option (option string)).

Record HttpResponse : Type := mkHttpResponse {
  status : Z;
  body : ResponseBody
}.

(** [config.NODE_ENV]: [process.env.NODE_ENV || "development"]. *)
Definition NODE_ENV (env : option string) : string :=
  if truthy env then match env with Some s => s | None => "" end
  else "development".

(** [globalErrorHandler]; [err.statusCode || 500] takes 500 for a missing
    status code and for 0. *)
Definition globalErrorHandler (env : option string) (err : JsError)
  : HttpResponse :=
  let statusCode_ :=
    match statusCode err with
    | Some n => if n =? 0 then 500 else n
    | None => 500
    end in
  let isProduction := String.eqb (NODE_ENV env) "production" in
  mkHttpResponse statusCode_
    (ErrorBody (if statusCode_ =? 500 then "Internal Server Error"
                else message err)
               (if isProduction then None else Some (stack err))).

Section Http.

Context {P : Primitives}.

(** [req.body] after [express.json()]. *)
#[local] Unset Elimination Schemes.
Inductive Json : Type :=
| JNull
| JBool (b : bool)
| JNumber (n : Number)
| JString (s : string)
| JArray (items : list Json)
| JObject (fields : list (string * Json)).
#[local] Set Elimination Schemes.

(** [body[key]]; [None] is [undefined]. *)
Fixpoint property (fields : list (string * Json)) (key : string)
  : option Json :=
  match fields with
  | [] => None
  | (k, v) :: fields' =>
      if String.eqb k key then Some v else property fields' key
  end.

(** The [email] field of the schema: [z.string().trim().toLowerCase()
    .email().max(320).nullable().optional()], then the transform
    [v && v.length > 0 ? v : null].  [None] is a failed parse. *)
Definition emailTransform (v : option string) : option string :=
  match v with
  | Some s =>
      if truthy (Some s) && (0 <? Z.of_nat (String.length s))
      then Some s else None
  | None => None
  end.

Definition emailField (v : option Json) : option (option string) :=
  match v with
  | None => Some (emailTransform None)
  | Some JNull => Some (emailTransform None)
  | Some (JString raw) =>
      let s := toLowerCase (trim raw) in
      if isEmail s && (Z.of_nat (String.length s) <=? 320)
      then Some (emailTransform (Some s)) else None
  | Some _ => None
  end.

(** The [phoneNumber] field: [z.union([z.string(), z.number()]).nullable()
    .optional()], the transform to a trimmed string or [null], then the
    pipe into [z.string().max(20).regex(...).nullable()]. *)
Definition phoneTransform (v : option string) : option string :=
  match v with
  | None => None
  | Some raw =>
      let s := trim raw in
      if Z.of_nat (String.length s) =? 0 then None else Some s
  end.

Definition phonePipe (v : option string) : option (option string) :=
  match v with
  | None => Some None
  | Some s =>
      if (Z.of_nat (String.length s) <=? 20) && phonePattern s
      then Some (Some s) else None
  end.

Definition phoneNumberField (v : option Json) : option (option string) :=
  match v with
  | None => phonePipe (phoneTransform None)
  | Some JNull => phonePipe (phoneTransform None)
  | Some (JString s) => phonePipe (phoneTransform (Some s))
  | Some (JNumber n) => phonePipe (phoneTransform (Some (numberToString n)))
  | Some _ => None
  end.

(** [.strict()]: a key that the schema does not name fails the parse. *)
Definition strict (fields : list (string * Json)) : bool :=
  forallb (fun kv => String.eqb (fst kv) "email"
                     || String.eqb (fst kv) "phoneNumber") fields.

(** [identifySchema.safeParse(body)]: [Some] of the parsed data on
    success. *)
Definition safeParse (body_ : Json) : option (option string * option string) :=
  match body_ with
  | JObject fields =>
      if strict fields then
        match emailField (property fields "email"),
              phoneNumberField (property fields "phoneNumber") with
        | Some email, Some phoneNumber =>
            (* .refine(data => data.email !== null
                               || data.phoneNumber !== null) *)
            if negb (isNull email) || negb (isNull phoneNumber)
            then Some (email, phoneNumber) else None
        | _, _ => None
        end
      else None
  | _ => None
  end.

(** The handler of [POST /identify]: it answers, or hands an error to
    [next].  With the answer comes the table that was committed, if
    any. *)
Inductive Handled : Type :=
| Responded (committed : option Store) (res : HttpResponse)
| Next (err : Error).

Definition postIdentify (first retry : Attempt) (body_ : Json) : Handled :=
  match safeParse body_ with
  | None =>
      Responded None
        (mkHttpResponse 400 (ValidationBody "Validation failed"))
  | Some (email, phoneNumber) =>
      match identify first retry email phoneNumber with
      | Ok (tx', result) =>
          Responded (Some tx') (mkHttpResponse 200 (PayloadBody result))
      | Err err => Next err
      end
  end.

(** The route followed by the error handler, which [index.ts] installs
    last: [next(err)] goes to [globalErrorHandler].  [thrown] gives the
    error object of an error of the service. *)
Definition answerIdentify (env : option string) (thrown : Error -> JsError)
  (first retry : Attempt) (body_ : Json) : option Store * HttpResponse :=
  match postIdentify first retry body_ with
  | Responded committed res => (committed, res)
  | Next err => (None, globalErrorHandler env (thrown err))
  end.

End Http.

Module MoreExamples.

(** Two independent primaries, and the payload of the call that merges
    them. *)
Definition biffPrimary : Contact :=
  Examples.row 2 (Some "biff@hv.edu") (Some "717171") None primary 20 None.
Definition twoPrimaries : Store :=
  mkStore [Examples.george; biffPrimary] 3.
Definition mergedPayload : IdentifyResponse :=
  mkResponse (mkConsolidated 1 ["george@hv.edu"; "biff@hv.edu"]
                             ["919191"; "717171"] [2]).

(** The two primaries, scanned in the other order. *)
Definition twoPrimariesSwapped : Store :=
  mkStore [biffPrimary; Examples.george] 3.

(** Three independent primaries. *)
Definition strickland : Contact :=
  Examples.row 3 (Some "strickland@hv.edu") (Some "515151") None primary 30
               None.
Definition threePrimaries : Store :=
  mkStore [Examples.george; biffPrimary; strickland] 4.

(** An older primary next to a group of two, and the call that joins
    them. *)
Definition elder : Contact :=
  Examples.row 1 (Some "elder@hv.edu") (Some "101010") None primary 1 None.
Definition doc : Contact :=
  Examples.row 2 (Some "doc@hv.edu") (Some "555-0100") None primary 5 None.
Definition marty : Contact :=
  Examples.row 3 (Some "marty@hv.edu") (Some "555-0100") (Some 2) secondary
               11 None.
Definition elderAndGroup : Store := mkStore [elder; doc; marty] 4.
Definition joiningCalls : list Call :=
  [mkCall (Some "elder@hv.edu") (Some "555-0100") 20].
Definition docJoined : Contact :=
  Contact.mk 2 (Some "555-0100") (Some "doc@hv.edu") (Some 1) secondary
             5 20 None.
Definition martyJoined : Contact :=
  Contact.mk 3 (Some "555-0100") (Some "marty@hv.edu") (Some 1) secondary
             11 20 None.
Definition joined : Store := mkStore [elder; docJoined; martyJoined] 4.

(** An instance of the primitives for strings of ASCII characters, for
    closed examples: numbers are integers printed in decimal, white space is
    the characters 9 to 13 and 32, and the email check only asks for an [@]
    between two non-empty parts. *)
Definition code (c : Ascii.ascii) : Z := Z.of_nat (Ascii.nat_of_ascii c).

Definition isWhiteSpace (c : Ascii.ascii) : bool :=
  ((9 <=? code c) && (code c <=? 13)) || (code c =? 32).

Fixpoint trimStart (s : string) : string :=
  match s with
  | EmptyString => EmptyString
  | String c s' => if isWhiteSpace c then trimStart s' else s
  end.

Fixpoint trimEnd (s : string) : string :=
  match s with
  | EmptyString => EmptyString
  | String c s' =>
      match trimEnd s' with
      | EmptyString => if isWhiteSpace c then EmptyString
                       else String c EmptyString
      | t => String c t
      end
  end.

Definition lowerChar (c : Ascii.ascii) : Ascii.ascii :=
  if (65 <=? code c) && (code c <=? 90)
  then Ascii.ascii_of_nat (Ascii.nat_of_ascii c + 32) else c.

Fixpoint lower (s : string) : string :=
  match s with
  | EmptyString => EmptyString
  | String c s' => String (lowerChar c) (lower s')
  end.

Fixpoint allChars (ok : Ascii.ascii -> bool) (s : string) : bool :=
  match s with
  | EmptyString => true
  | String c s' => ok c && allChars ok s'
  end.

(** A digit, white space, [-], [(] or [)]. *)
Definition phoneChar (c : Ascii.ascii) : bool :=
  ((48 <=? code c) && (code c <=? 57)) || isWhiteSpace c ||
  (code c =? 45) || (code c =? 40) || (code c =? 41).

Definition phoneChars (s : string) : bool :=
  negb (String.eqb s "") && allChars phoneChar s.

Definition asciiPhonePattern (s : string) : bool :=
  match s with
  | String c s' => if code c =? 43 then phoneChars s' else phoneChars s
  | EmptyString => false
  end.

Fixpoint atInside (seen : bool) (s : string) : bool :=
  match s with
  | EmptyString => false
  | String c s' =>
      if code c =? 64 then seen && negb (String.eqb s' "")
      else atInside true s'
  end.

Definition asciiPrimitives : Primitives := {|
  Number := Z;
  numberToString := fun n => DecimalString.NilZero.string_of_int (Z.to_int n);
  trim := fun s => trimEnd (trimStart s);
  toLowerCase := lower;
  isEmail := atInside false;
  phonePattern := asciiPhonePattern
|}.

(** A body with an email to be normalized and a phone given as a
    number. *)
Definition georgeBody : Json (P := asciiPrimitives) :=
  JObject [("email", JString "  George@HV.edu ");
           ("phoneNumber", JNumber (P := asciiPrimitives) 717171)].

(** A database error as the error handler receives it. *)
Definition thrown (err : Error) : JsError :=
  mkJsError
    match err with
    | PrismaClientKnownRequestError code_ => code_
    | _ => "error"
    end
    (Some "at reconcile") None.

End MoreExamples.
(* ================================================================== *)
(** * Basic facts *)

Lemma optZ_eqb_eq (a b : option Z) : optZ_eqb a b = true <-> a = b.
Proof.
  destruct a as [x|], b as [y|]; simpl; try (split; congruence).
  rewrite Z.eqb_eq. split; congruence.
Qed.

Lemma optString_eqb_eq (a b : option string) :
  optString_eqb a b = true <-> a = b.
Proof.
  destruct a as [x|], b as [y|]; simpl; try (split; congruence).
  rewrite String.eqb_eq. split; congruence.
Qed.


Lemma truthy_normalized (v : option string) :
  normalized v -> truthy v = negb (isNull v).
Proof.
  unfold normalized. destruct v as [s|]; simpl; auto.
  intros H. rewrite negb_true_iff, String.eqb_neq. congruence.
Qed.

Lemma includes_In (l : list string) (s : string) :
  includes l s = true <-> In s l.
Proof.
  unfold includes. rewrite existsb_exists. split.
  - intros [x [Hx E]]. apply String.eqb_eq in E. congruence.
  - intros H. exists s. split; auto. apply String.eqb_refl.
Qed.

Lemma includes_false (l : list string) (s : string) :
  includes l s = false <-> ~ In s l.
Proof.
  rewrite <- includes_In. destruct (includes l s); split; congruence.
Qed.

(** *** The ordering of query results *)

Lemma insertByCreatedAt_perm (c : Contact) (l : list Contact) :
  Permutation (c :: l) (insertByCreatedAt c l).
Proof.
  induction l as [|d l IH]; simpl; auto.
  destruct (Contact.createdAt c <=? Contact.createdAt d); auto.
  eapply perm_trans; [apply perm_swap|]. auto.
Qed.

Lemma orderByCreatedAt_perm (l : list Contact) :
  Permutation l (orderByCreatedAt l).
Proof.
  induction l as [|c l IH]; simpl; auto.
  eapply perm_trans; [|apply insertByCreatedAt_perm]. auto.
Qed.

Lemma orderByCreatedAt_In (l : list Contact) (c : Contact) :
  In c (orderByCreatedAt l) <-> In c l.
Proof.
  split; apply Permutation_in;
    [apply Permutation_sym|]; apply orderByCreatedAt_perm.
Qed.

Definition createdAtLe (a b : Contact) : Prop :=
  Contact.createdAt a <= Contact.createdAt b.

Lemma insertByCreatedAt_sorted (c : Contact) (l : list Contact) :
  Sorted createdAtLe l -> Sorted createdAtLe (insertByCreatedAt c l).
Proof.
  induction l as [|d l IH]; simpl; intros Hs.
  - repeat constructor.
  - destruct (Contact.createdAt c <=? Contact.createdAt d) eqn:E.
    + apply Z.leb_le in E. constructor; auto.
    + apply Z.leb_gt in E. inversion Hs as [|? ? Hs' Hd]; subst.
      constructor; auto.
      destruct l as [|d' l']; simpl.
      * constructor. unfold createdAtLe. lia.
      * destruct (Contact.createdAt c <=? Contact.createdAt d');
          constructor; unfold createdAtLe; try lia.
        inversion Hd; auto.
Qed.

Lemma orderByCreatedAt_sorted (l : list Contact) :
  Sorted createdAtLe (orderByCreatedAt l).
Proof.
  induction l; simpl; [constructor | apply insertByCreatedAt_sorted; auto].
Qed.

Lemma createdAtLe_trans : Relations_1.Transitive createdAtLe.
Proof. intros a b c. unfold createdAtLe. lia. Qed.




Lemma findMany_In (w : Contact -> bool) (tx : Store) (c : Contact) :
  In c (findMany w tx) <-> In c (rows tx) /\ w c = true.
Proof.
  unfold findMany. rewrite orderByCreatedAt_In. apply filter_In.
Qed.

(* ================================================================== *)
(** * The response builder *)

Section Collect.
Variable field : Contact -> option string.

Let collect (arr : list string) (secondaries : list Contact) :=
  fold_left (fun arr s => pushNew arr (field s)) secondaries arr.

Lemma pushNew_cases (arr : list string) (v : option string) :
  (pushNew arr v = arr /\
   (forall s, v = Some s -> s = "" \/ In s arr)) \/
  (exists s, v = Some s /\ s <> "" /\ ~ In s arr /\
             pushNew arr v = arr ++ [s]).
Proof.
  unfold pushNew. destruct v as [s|].
  - destruct (String.eqb_spec s ""); simpl.
    + left. split; auto. intros s' E. inversion E; subst; auto.
    + destruct (includes arr s) eqn:I; simpl.
      * left. split; auto. intros s' E. inversion E; subst.
        right. apply includes_In; auto.
      * right. exists s. rewrite includes_false in I. auto.
  - left. split; auto. discriminate.
Qed.

Lemma collect_NoDup (secondaries : list Contact) :
  forall arr, NoDup arr -> NoDup (collect arr secondaries).
Proof.
  unfold collect.
  induction secondaries as [|c ss IH]; simpl; intros arr Hnd; auto.
  apply IH.
  destruct (pushNew_cases arr (field c)) as [[E _]|[s [_ [_ [Hn E]]]]];
    rewrite E; auto.
  apply NoDup_app; repeat split; auto.
  - repeat constructor. intros [].
  - intros x Hx [Hy|[]]. subst. contradiction.
Qed.

Lemma collect_In (secondaries : list Contact) :
  forall arr s,
    In s (collect arr secondaries) <->
    In s arr \/ (s <> "" /\ exists c, In c secondaries /\ field c = Some s).
Proof.
  unfold collect.
  induction secondaries as [|c ss IH]; simpl; intros arr s.
  - split; auto. intros [H|[_ [c [[] _]]]]; auto.
  - rewrite IH.
    destruct (pushNew_cases arr (field c)) as [[E Hc]|[s' [Ec [Hne [Hn E]]]]];
      rewrite E.
    + split.
      * intros [H|[Hs [d [Hd Ed]]]]; auto.
        right. split; auto. exists d. auto.
      * intros [H|[Hs [d [[Hd|Hd] Ed]]]]; auto.
        -- subst d. destruct (Hc s Ed); auto. contradiction.
        -- right. split; auto. exists d. auto.
    + rewrite in_app_iff. simpl. split.
      * intros [[H|[H|[]]]|[Hs [d [Hd Ed]]]]; auto.
        -- subst s'. right. split; auto. exists c. auto.
        -- right. split; auto. exists d. auto.
      * intros [H|[Hs [d [[Hd|Hd] Ed]]]]; auto.
        -- subst d. left. right. left. congruence.
        -- right. split; auto. exists d. auto.
Qed.

Lemma collect_prefix (secondaries : list Contact) :
  forall arr, exists rest, collect arr secondaries = arr ++ rest.
Proof.
  unfold collect.
  induction secondaries as [|c ss IH]; simpl; intros arr.
  - exists []. rewrite app_nil_r. reflexivity.
  - destruct (IH (pushNew arr (field c))) as [rest E]. rewrite E.
    destruct (pushNew_cases arr (field c)) as [[E' _]|[s [_ [_ [_ E']]]]];
      rewrite E'.
    + exists rest. reflexivity.
    + exists (s :: rest). rewrite <- app_assoc. reflexivity.
Qed.
End Collect.

Lemma pushTruthy_nil (v : option string) :
  (truthy v = true /\ exists s, v = Some s /\ s <> "" /\
                               pushTruthy [] v = [s]) \/
  (truthy v = false /\ pushTruthy [] v = []).
Proof.
  destruct v as [s|]; simpl; auto.
  destruct (String.eqb_spec s ""); simpl; auto.
  left. split; auto. exists s. auto.
Qed.

Lemma pushTruthy_nil_In (v : option string) (s : string) :
  In s (pushTruthy [] v) <-> s <> "" /\ v = Some s.
Proof.
  destruct (pushTruthy_nil v) as [[_ [s' [E [Hne E']]]]|[Ht E']]; rewrite E'.
  - simpl. split.
    + intros [H|[]]. subst. auto.
    + intros [_ H]. left. congruence.
  - split; [intros []|]. intros [Hne E]. subst v. simpl in Ht.
    apply negb_false_iff, String.eqb_eq in Ht. contradiction.
Qed.

Lemma pushTruthy_nil_NoDup (v : option string) : NoDup (pushTruthy [] v).
Proof.
  destruct (pushTruthy_nil v) as [[_ [s [_ [_ E]]]]|[_ E]]; rewrite E;
    repeat constructor. intros [].
Qed.

Lemma buildResponse_field (field : Contact -> option string)
  (primary_ : Contact) (secondaries : list Contact) :
  let arr := fold_left (fun arr s => pushNew arr (field s)) secondaries
                       (pushTruthy [] (field primary_)) in
  (truthy (field primary_) = true -> hd_error arr = field primary_) /\
  NoDup arr /\
  (forall s, In s arr <->
             s <> "" /\ exists c, In c (primary_ :: secondaries) /\
                                  field c = Some s).
Proof.
  intros arr. subst arr. repeat split.
  - intros Ht.
    destruct (collect_prefix field secondaries (pushTruthy [] (field primary_)))
      as [rest E]. rewrite E.
    destruct (pushTruthy_nil (field primary_))
      as [[_ [s [Es [_ E']]]]|[Hf _]]; [|congruence].
    rewrite E', Es. reflexivity.
  - apply collect_NoDup, pushTruthy_nil_NoDup.
  - rewrite collect_In in H. destruct H as [H|[H _]]; auto.
    apply pushTruthy_nil_In in H. tauto.
  - rewrite collect_In in H. destruct H as [H|[_ [c [Hc E]]]].
    + apply pushTruthy_nil_In in H. exists primary_. simpl. tauto.
    + exists c. simpl. auto.
  - intros [Hne [c [[Hc|Hc] E]]]; apply collect_In.
    + subst c. left. apply pushTruthy_nil_In. auto.
    + right. split; auto. exists c. auto.
Qed.



(* ================================================================== *)
(** * The end-to-end scenarios of the test suite, run on the model *)

Example scenario_new_customer :
  reconcile (Some "doc@hv.edu") (Some "555-0100") 1 Examples.emptyStore
  = Ok (Examples.docOnly,
        mkResponse (mkConsolidated 1 ["doc@hv.edu"] ["555-0100"] [])).
Proof. vm_compute. reflexivity. Qed.

Example scenario_attach_new_email :
  reconcile (Some "marty@hv.edu") (Some "555-0100") 11 Examples.docOnly
  = Ok (Examples.docMarty, Examples.docMartyPayload).
Proof. vm_compute. reflexivity. Qed.

Example scenario_phone_only_query :
  reconcile None (Some "555-0100") 12 Examples.docMarty
  = Ok (Examples.docMarty, Examples.docMartyPayload).
Proof. vm_compute. reflexivity. Qed.

Example scenario_triangular_cascade :
  reconcileAll Examples.cascadeCalls Examples.emptyStore
  = Ok Examples.afterCascade /\
  reconcile (Some "b@test.com") None 6 Examples.afterCascade
  = Ok (Examples.afterCascade,
        mkResponse
          (mkConsolidated 1 ["a@test.com"; "b@test.com"; "c@test.com"]
                          ["111"; "222"; "333"] [2; 3])).
Proof. split; vm_compute; reflexivity. Qed.

(* ================================================================== *)
(** * The attach decision (step 5) *)

Lemma filterBoolean_In (l : list (option string)) (s : string) :
  In s (filterBoolean l) <-> s <> "" /\ In (Some s) l.
Proof.
  induction l as [|[v|] l IH]; simpl.
  - tauto.
  - destruct (String.eqb_spec v ""); simpl; rewrite IH.
    + split; [tauto|]. intros [Hne [E|H]]; auto. congruence.
    + split.
      * intros [E|[Hne H]]; subst; auto.
      * intros [Hne [E|H]]; auto. left. congruence.
  - rewrite IH. split; [tauto|]. intros [Hne [E|H]]; auto. discriminate.
Qed.

Lemma existing_In (field : Contact -> option string)
  (allLinked : list Contact) (s : string) :
  In s (filterBoolean (map field allLinked)) <->
  s <> "" /\ exists c, In c allLinked /\ field c = Some s.
Proof.
  rewrite filterBoolean_In, in_map_iff. split.
  - intros [Hne [c [E Hc]]]. split; auto. exists c. auto.
  - intros [Hne [c [Hc E]]]. split; auto. exists c. auto.
Qed.

Lemma hasNew_true (v : option string) (existing : list string) :
  hasNew v existing = true <-> exists s, v = Some s /\ ~ In s existing.
Proof.
  unfold hasNew. destruct v as [s|].
  - rewrite negb_true_iff, includes_false. split.
    + intros H. exists s. auto.
    + intros [s' [E H]]. congruence.
  - split; [discriminate | intros [s [E _]]; discriminate].
Qed.


Lemma exactDuplicate_false (email phoneNumber : option string)
  (allLinked : list Contact) :
  exactDuplicate email phoneNumber allLinked = false <->
  forall c, In c allLinked ->
    (email <> None /\ Contact.email c <> email) \/
    (phoneNumber <> None /\ Contact.phoneNumber c <> phoneNumber).
Proof.
  unfold exactDuplicate. split.
  - intros H c Hc.
    assert (Hf : ((isNull email || optString_eqb (Contact.email c) email) &&
                  (isNull phoneNumber ||
                   optString_eqb (Contact.phoneNumber c) phoneNumber))
                 = false).
    { destruct (_ && _) eqn:E; auto.
      rewrite <- H. symmetry. apply existsb_exists. exists c. auto. }
    apply andb_false_iff in Hf. destruct Hf as [Hf|Hf];
      apply orb_false_iff in Hf; destruct Hf as [Hn Hq]; [left|right];
      (split; [intros ->; discriminate|]);
      intros E; apply optString_eqb_eq in E; congruence.
  - intros H. destruct (existsb _ _) eqn:E; auto.
    apply existsb_exists in E. destruct E as [c [Hc E]].
    apply andb_true_iff in E. destruct E as [E1 E2].
    destruct (H c Hc) as [[Hn Hq]|[Hn Hq]]; exfalso.
    + apply orb_true_iff in E1. destruct E1 as [E1|E1].
      * destruct email; [discriminate | congruence].
      * apply optString_eqb_eq in E1. contradiction.
    + apply orb_true_iff in E2. destruct E2 as [E2|E2].
      * destruct phoneNumber; [discriminate | congruence].
      * apply optString_eqb_eq in E2. contradiction.
Qed.

Lemma hasNew_no_row (field : Contact -> option string) (v : option string)
  (allLinked : list Contact) :
  normalized v ->
  hasNew v (filterBoolean (map field allLinked)) = true ->
  v <> None /\ forall c, In c allLinked -> field c <> v.
Proof.
  intros Hn H. apply hasNew_true in H. destruct H as [s [E H]]. subst v.
  split; [discriminate|]. intros c Hc Ec. apply H.
  apply existing_In. split.
  - intros ->. apply Hn. reflexivity.
  - exists c. auto.
Qed.

(** C9 (as amended).  In step 5 the exact-duplicate guard is redundant
    for the requests the validator lets through.  For every request and
    every group read from the store, if the request carries an email that
    is not null and is the email of no row of the group, or a phone that is
    not null and is the phone of no row of the group, then no row of the
    group satisfies the exact-duplicate predicate.  For a request whose
    fields are null or non-empty strings, that is what
    [hasNewEmail || hasNewPhone] says, so the attach condition
    [(hasNewEmail || hasNewPhone) && !exactDuplicate] equals
    [hasNewEmail || hasNewPhone]. *)
Theorem attach_guard_redundant (email phoneNumber : option string)
  (allLinked : list Contact) :
  ((email <> None /\
    forall c, In c allLinked -> Contact.email c <> email) \/
   (phoneNumber <> None /\
    forall c, In c allLinked -> Contact.phoneNumber c <> phoneNumber) ->
   exactDuplicate email phoneNumber allLinked = false) /\
  (normalized email -> normalized phoneNumber ->
   ((hasNewEmail email allLinked || hasNewPhone phoneNumber allLinked) = true ->
    exactDuplicate email phoneNumber allLinked = false) /\
   attachCondition email phoneNumber allLinked =
   (hasNewEmail email allLinked || hasNewPhone phoneNumber allLinked)).
Proof.
  assert (L : (email <> None /\
               forall c, In c allLinked -> Contact.email c <> email) \/
              (phoneNumber <> None /\
               forall c, In c allLinked ->
                         Contact.phoneNumber c <> phoneNumber) ->
              exactDuplicate email phoneNumber allLinked = false).
  { intros H. apply exactDuplicate_false. intros c Hc.
    destruct H as [[Hs Hn]|[Hs Hn]]; [left|right]; auto. }
  split; auto. intros He Hp.
  assert (G : (hasNewEmail email allLinked
               || hasNewPhone phoneNumber allLinked) = true ->
              exactDuplicate email phoneNumber allLinked = false).
  { intros H. apply L. apply orb_true_iff in H. destruct H as [H|H].
    - left. apply (hasNew_no_row Contact.email _ _ He H).
    - right. apply (hasNew_no_row Contact.phoneNumber _ _ Hp H). }
  split; auto.
  unfold attachCondition.
  destruct (hasNewEmail email allLinked || hasNewPhone phoneNumber allLinked);
    auto.
  rewrite G; auto.
Qed.

Lemma attach_guard_redundant_witness :
  attachCondition (Some "marty@hv.edu") (Some "555-0100")
                  [Examples.docPrimary]
  = (hasNewEmail (Some "marty@hv.edu") [Examples.docPrimary]
     || hasNewPhone (Some "555-0100") [Examples.docPrimary]).
Proof.
  apply (attach_guard_redundant (Some "marty@hv.edu") (Some "555-0100")
           [Examples.docPrimary]); discriminate.
Defined.

(** C9 (as stated) fails for a request field that is the empty string,
    which [reconcile] accepts.  The sets of known values leave out empty
    strings, so an empty email counts as new although a row of the group
    holds it; that row holds exactly the pair of the request, and the
    guard is what keeps the call from inserting a duplicate. *)
Lemma attach_guard_counterexample :
  (hasNewEmail (Some "") [Examples.emptyEmailRow]
   || hasNewPhone (Some "100") [Examples.emptyEmailRow]) = true /\
  exactDuplicate (Some "") (Some "100") [Examples.emptyEmailRow] = true /\
  attachCondition (Some "") (Some "100") [Examples.emptyEmailRow] = false /\
  findMany (whereGroup 1) Examples.emptyEmailOnly = [Examples.emptyEmailRow] /\
  reconcile (Some "") (Some "100") 9 Examples.emptyEmailOnly
  = Ok (Examples.emptyEmailOnly,
        mkResponse (mkConsolidated 1 [] ["100"] [])).
Proof. repeat split; vm_compute; reflexivity. Qed.

(* ================================================================== *)
(** * The retry policy of [identify] *)

Lemma isUniqueConstraintError_true (err : Error) :
  isUniqueConstraintError err = true <->
  err = PrismaClientKnownRequestError PRISMA_UNIQUE_CONSTRAINT_CODE.
Proof.
  destruct err as [code| | |]; simpl; try (split; discriminate).
  rewrite String.eqb_eq. split; congruence.
Qed.

(** C4 (as amended).  [identify] returns the result of the first
    transaction when it commits.  When the first transaction fails with a
    unique-constraint violation (a known request error with code P2002) the
    whole of [reconcile] is run once more in a second transaction, whose
    outcome, result or error, is returned as it is.  An error of any other
    kind, a serialization failure (write conflict) included, is returned
    without a retry. *)
Theorem identify_retry_policy (first retry : Attempt)
  (email phoneNumber : option string) :
  (forall result,
     transaction first (reconcile email phoneNumber) = Ok result ->
     identify first retry email phoneNumber = Ok result) /\
  (transaction first (reconcile email phoneNumber)
   = Err (PrismaClientKnownRequestError PRISMA_UNIQUE_CONSTRAINT_CODE) ->
   identify first retry email phoneNumber
   = transaction retry (reconcile email phoneNumber)) /\
  (forall err,
     transaction first (reconcile email phoneNumber) = Err err ->
     err <> PrismaClientKnownRequestError PRISMA_UNIQUE_CONSTRAINT_CODE ->
     identify first retry email phoneNumber = Err err).
Proof.
  unfold identify. repeat split.
  - intros result ->. reflexivity.
  - intros ->. reflexivity.
  - intros err -> Hne.
    destruct (isUniqueConstraintError err) eqn:E; auto.
    apply isUniqueConstraintError_true in E. contradiction.
Qed.

Lemma identify_retry_policy_witness :
  identify Examples.clashingAttempt Examples.cleanAttempt
           (Some "marty@hv.edu") (Some "555-0100")
  = transaction Examples.cleanAttempt
      (reconcile (Some "marty@hv.edu") (Some "555-0100")).
Proof.
  apply (identify_retry_policy Examples.clashingAttempt Examples.cleanAttempt
           (Some "marty@hv.edu") (Some "555-0100")).
  vm_compute. reflexivity.
Defined.

(** C4 (as stated) fails: a first attempt that the database aborts with a
    write conflict is not retried, although the retry would have committed;
    the write conflict itself is what the caller gets. *)
Lemma identify_serialization_counterexample :
  transaction Examples.conflictingAttempt
    (reconcile (Some "marty@hv.edu") (Some "555-0100"))
  = Err Examples.writeConflict /\
  (exists result,
     transaction Examples.cleanAttempt
       (reconcile (Some "marty@hv.edu") (Some "555-0100")) = Ok result) /\
  identify Examples.conflictingAttempt Examples.cleanAttempt
           (Some "marty@hv.edu") (Some "555-0100")
  = Err Examples.writeConflict.
Proof.
  split; [vm_compute; reflexivity|].
  split; [eexists; vm_compute; reflexivity|].
  vm_compute; reflexivity.
Qed.

(* ================================================================== *)
(** * Resolving the root primaries (steps 1 and 3) *)

Lemma Set_add_In (s : list (option Z)) (x y : option Z) :
  In y (Set_add s x) <-> In y s \/ y = x.
Proof.
  unfold Set_add. destruct (existsb (optZ_eqb x) s) eqn:E.
  - split; auto. intros [H|H]; auto. subst y.
    apply existsb_exists in E. destruct E as [z [Hz E]].
    apply optZ_eqb_eq in E. congruence.
  - rewrite in_app_iff. simpl. split.
    + intros [H|[H|[]]]; auto.
    + intros [H|H]; auto.
Qed.

Lemma primaryIds_fold_In (ms : list Contact) :
  forall (s : list (option Z)) (y : option Z),
    In y (fold_left (fun s c => Set_add s (rootIdOf c)) ms s) <->
    In y s \/ exists m, In m ms /\ rootIdOf m = y.
Proof.
  induction ms as [|m ms IH]; simpl; intros s y.
  - split; auto. intros [H|[m [[] _]]]; auto.
  - rewrite IH, Set_add_In. split.
    + intros [[H|H]|[m' [Hm E]]]; auto.
      * right. exists m. auto.
      * right. exists m'. auto.
    + intros [H|[m' [[Hm|Hm] E]]]; auto.
      * subst m'. auto.
      * right. exists m'. auto.
Qed.

Lemma primaryIds_In (ms : list Contact) (y : option Z) :
  In y (primaryIds ms) <-> exists m, In m ms /\ rootIdOf m = y.
Proof.
  unfold primaryIds. rewrite primaryIds_fold_In. simpl. tauto.
Qed.

Lemma idList_Ok (l : list (option Z)) :
  forall ks, idList l = Ok ks ->
             ~ In None l /\ forall k, In k ks <-> In (Some k) l.
Proof.
  induction l as [|[x|] l IH]; simpl; intros ks E.
  - inversion E; subst. simpl. split; [tauto|]. intros k. tauto.
  - destruct (idList l) as [ks'|] eqn:E'; simpl in E; [|discriminate].
    inversion E; subst. destruct (IH ks' eq_refl) as [Hn Hk].
    split.
    + intros [H|H]; [discriminate | auto].
    + intros k. simpl. rewrite Hk. split.
      * intros [H|H]; [left; congruence | auto].
      * intros [H|H]; [left; congruence | auto].
  - discriminate.
Qed.

Lemma idList_total (l : list (option Z)) :
  ~ In None l -> exists ks, idList l = Ok ks.
Proof.
  induction l as [|[x|] l IH]; simpl; intros Hn.
  - eexists; reflexivity.
  - destruct IH as [ks E]; [tauto|]. rewrite E. simpl. eexists; reflexivity.
  - exfalso. auto.
Qed.

Lemma whereIdIn_true (ids : list Z) (c : Contact) :
  whereIdIn ids c = true <-> In (Contact.id c) ids /\ isLive c = true.
Proof.
  unfold whereIdIn. rewrite andb_true_iff, existsb_exists. split.
  - intros [[k [Hk E]] Hl]. apply Z.eqb_eq in E. subst k. auto.
  - intros [Hk Hl]. split; auto. exists (Contact.id c).
    split; auto. apply Z.eqb_refl.
Qed.

(** The rows that step 3 fetches: the live rows whose id is the root id of
    some match. *)
Lemma primaries_In (email phoneNumber : option string) (tx : Store)
  (ps : list Contact) :
  primaries email phoneNumber tx = Ok ps ->
  forall q, In q ps <->
            In q (rows tx) /\ isLive q = true /\
            exists m, In m (matchingContacts email phoneNumber tx) /\
                      rootIdOf m = Some (Contact.id q).
Proof.
  unfold primaries. intros E q.
  destruct (idList _) as [ids|] eqn:Ei; simpl in E; [|discriminate].
  inversion E; subst ps. clear E.
  destruct (idList_Ok _ _ Ei) as [_ Hk].
  rewrite findMany_In, whereIdIn_true, Hk, primaryIds_In. tauto.
Qed.

Lemma primaries_sorted (email phoneNumber : option string) (tx : Store)
  (ps : list Contact) :
  primaries email phoneNumber tx = Ok ps -> Sorted createdAtLe ps.
Proof.
  unfold primaries. intros E.
  destruct (idList _) as [ids|] eqn:Ei; simpl in E; [|discriminate].
  inversion E; subst ps. apply orderByCreatedAt_sorted.
Qed.

(* ================================================================== *)
(** * Writes *)

Lemma pairwise_ids_NoDup (rs : list Contact) :
  primaryKeyHolds rs = true <-> NoDup (map Contact.id rs).
Proof.
  unfold primaryKeyHolds. induction rs as [|c rs IH]; simpl.
  - split; auto. constructor.
  - rewrite andb_true_iff, IH, forallb_forall. split.
    + intros [Hf Hn]. constructor; auto.
      intros Hin. apply in_map_iff in Hin. destruct Hin as [d [E Hd]].
      specialize (Hf d Hd). apply negb_true_iff, Z.eqb_neq in Hf. congruence.
    + intros Hn. inversion Hn; subst. split; auto.
      intros d Hd. apply negb_true_iff, Z.eqb_neq. intros E.
      apply H1. rewrite E. apply in_map. auto.
Qed.

Lemma checkConstraints_Ok (rs : list Contact) :
  checkConstraints rs = Ok tt ->
  uniqueIds rs /\ foreignKeyHolds rs = true.
Proof.
  unfold checkConstraints.
  destruct (primaryKeyHolds rs) eqn:Ep; simpl; [|discriminate].
  destruct (uniqueIndexHolds rs); simpl; [|discriminate].
  destruct (foreignKeyHolds rs); simpl; [|discriminate].
  intros _. split; auto. apply pairwise_ids_NoDup. auto.
Qed.

Lemma checkConstraints_Err (rs : list Contact) (err : Error) :
  checkConstraints rs = Err err ->
  exists code, err = PrismaClientKnownRequestError code.
Proof.
  unfold checkConstraints.
  destruct (negb _); [intros E; inversion E; eauto|].
  destruct (negb _); [intros E; inversion E; eauto|discriminate].
Qed.

Lemma create_Ok (email phoneNumber : option string) (linkedId : option Z)
  (linkPrecedence : LinkPrecedence) (now : Z) (tx tx' : Store)
  (created : Contact) :
  create email phoneNumber linkedId linkPrecedence now tx
  = Ok (tx', created) ->
  created = Contact.mk (nextId tx) phoneNumber email linkedId linkPrecedence
                       now now None /\
  tx' = mkStore (rows tx ++ [created]) (nextId tx + 1) /\
  uniqueIds (rows tx ++ [created]).
Proof.
  unfold create. intros E.
  destruct (INT_MAX <? nextId tx); [discriminate|].
  destruct (negb (fitsColumns email phoneNumber)); [discriminate|].
  destruct (checkConstraints _) as [[]|] eqn:Ec; simpl in E; [|discriminate].
  inversion E; subst. repeat split.
  apply checkConstraints_Ok in Ec. tauto.
Qed.

(** An insert that goes through took an id of the sequence and values that
    fit their columns. *)
Lemma create_Ok_fits (email phoneNumber : option string) (linkedId : option Z)
  (linkPrecedence : LinkPrecedence) (now : Z) (tx tx' : Store)
  (created : Contact) :
  create email phoneNumber linkedId linkPrecedence now tx
  = Ok (tx', created) ->
  nextId tx <= INT_MAX /\ fitsColumns email phoneNumber = true.
Proof.
  unfold create. intros E.
  destruct (INT_MAX <? nextId tx) eqn:Ei; [discriminate|].
  destruct (fitsColumns email phoneNumber); [|discriminate].
  apply Z.ltb_ge in Ei. auto.
Qed.

Lemma create_Err (email phoneNumber : option string) (linkedId : option Z)
  (linkPrecedence : LinkPrecedence) (now : Z) (tx : Store) (err : Error) :
  create email phoneNumber linkedId linkPrecedence now tx = Err err ->
  requestError err.
Proof.
  unfold create, requestError. intros E.
  destruct (INT_MAX <? nextId tx); [inversion E; auto|].
  destruct (negb (fitsColumns email phoneNumber));
    [inversion E; left; eauto|].
  destruct (checkConstraints _) as [[]|] eqn:Ec; simpl in E; [discriminate|].
  inversion E; subst. left. eapply checkConstraints_Err; eauto.
Qed.

Lemma uniqueIds_snoc_fresh (rs : list Contact) (n : Contact) :
  uniqueIds (rs ++ [n]) ->
  uniqueIds rs /\ forall c, In c rs -> Contact.id c <> Contact.id n.
Proof.
  unfold uniqueIds. rewrite map_app. simpl. intros H.
  split.
  - apply NoDup_remove_1 in H. rewrite app_nil_r in H. auto.
  - intros c Hc E. apply NoDup_remove_2 in H. apply H.
    rewrite app_nil_r, <- E. apply in_map. auto.
Qed.

Lemma uniqueIds_eq (rs : list Contact) (a b : Contact) :
  uniqueIds rs -> In a rs -> In b rs -> Contact.id a = Contact.id b -> a = b.
Proof.
  unfold uniqueIds. induction rs as [|c rs IH]; simpl; [tauto|].
  intros Hn Ha Hb E. inversion Hn; subst.
  destruct Ha as [Ha|Ha], Hb as [Hb|Hb]; subst; auto.
  - exfalso. apply H1. rewrite E. apply in_map. auto.
  - exfalso. apply H1. rewrite <- E. apply in_map. auto.
Qed.

(** *** The merge loop *)

(** An update puts the rows it touches last; up to that, it is a map over
    the table. *)
Lemma rewriteRows_Permutation (touched : Contact -> bool)
  (change : Contact -> Contact) (rs : list Contact) :
  Permutation (rewriteRows touched change rs)
              (map (fun c => if touched c then change c else c) rs).
Proof.
  unfold rewriteRows. induction rs as [|c rs IH]; simpl; auto.
  destruct (touched c); simpl.
  - apply Permutation_sym. apply Permutation_cons_app.
    apply Permutation_sym. exact IH.
  - apply perm_skip. exact IH.
Qed.

Lemma update_Ok (whereId rootId now : Z) (tx tx' : Store) :
  update whereId rootId now tx = Ok tx' ->
  Permutation (rows tx')
              (map (fun c => if Contact.id c =? whereId
                             then demote rootId now c else c) (rows tx)) /\
  nextId tx' = nextId tx.
Proof.
  unfold update. destruct (existsb _ _); [|discriminate].
  destruct (checkConstraints _) as [[]|]; simpl; [|discriminate].
  intros E. inversion E; subst. simpl. split; auto.
  apply rewriteRows_Permutation.
Qed.

Lemma updateMany_Ok (whereLinkedId rootId now : Z) (tx tx' : Store) :
  updateMany whereLinkedId rootId now tx = Ok tx' ->
  Permutation (rows tx')
              (map (fun c =>
                      if optZ_eqb (Contact.linkedId c) (Some whereLinkedId)
                         && isLive c
                      then relink rootId now c else c) (rows tx)) /\
  nextId tx' = nextId tx.
Proof.
  unfold updateMany.
  destruct (checkConstraints _) as [[]|]; simpl; [|discriminate].
  intros E. inversion E; subst. simpl. split; auto.
  apply rewriteRows_Permutation.
Qed.

Lemma update_Err (whereId rootId now : Z) (tx : Store) (err : Error) :
  update whereId rootId now tx = Err err ->
  exists code, err = PrismaClientKnownRequestError code.
Proof.
  unfold update. destruct (existsb _ _).
  - destruct (checkConstraints _) as [[]|] eqn:Ec; simpl; [discriminate|].
    intros E. inversion E; subst. eapply checkConstraints_Err; eauto.
  - intros E. inversion E. eauto.
Qed.

Lemma updateMany_Err (whereLinkedId rootId now : Z) (tx : Store)
  (err : Error) :
  updateMany whereLinkedId rootId now tx = Err err ->
  exists code, err = PrismaClientKnownRequestError code.
Proof.
  unfold updateMany.
  destruct (checkConstraints _) as [[]|] eqn:Ec; simpl; [discriminate|].
  intros E. inversion E; subst. eapply checkConstraints_Err; eauto.
Qed.

Lemma mergeLoop_Err (rootId : Z) (losers : list Contact) (now : Z) :
  forall (tx : Store) (err : Error),
    mergeLoop rootId losers now tx = Err err ->
    exists code, err = PrismaClientKnownRequestError code.
Proof.
  induction losers as [|l losers IH]; simpl; intros tx err E.
  - discriminate.
  - destruct (update _ _ _ _) as [tx1|e1] eqn:E1; simpl in E.
    + destruct (updateMany _ _ _ _) as [tx2|e2] eqn:E2; simpl in E.
      * eapply IH; eauto.
      * inversion E; subst. eapply updateMany_Err; eauto.
    + inversion E; subst. eapply update_Err; eauto.
Qed.

(** One turn of the loop, then the net effect of the remaining turns, is
    the net effect of all the turns. *)
Lemma merged_cons (rootId l : Z) (ids : list Z) (now : Z) (c : Contact) :
  merged rootId (l :: ids) now c =
  if (Contact.id c =? l) || existsb (Z.eqb (Contact.id c)) ids
  then demote rootId now c
  else if (optZ_eqb (Contact.linkedId c) (Some l) || linksInto ids c)
          && isLive c
       then relink rootId now c else c.
Proof.
  unfold merged, linksInto. simpl.
  destruct (Contact.linkedId c); simpl; reflexivity.
Qed.

Lemma merged_step (rootId l : Z) (ids : list Z) (now : Z) (c : Contact) :
  rootId <> l -> ~ In rootId ids ->
  merged rootId ids now
    (let c1 := if Contact.id c =? l then demote rootId now c else c in
     if optZ_eqb (Contact.linkedId c1) (Some l) && isLive c1
     then relink rootId now c1 else c1)
  = merged rootId (l :: ids) now c.
Proof.
  intros Hl Hids.
  assert (Hroot : existsb (Z.eqb rootId) ids = false).
  { destruct (existsb _ ids) eqn:E; auto. apply existsb_exists in E.
    destruct E as [k [Hk E]]. apply Z.eqb_eq in E. subst k. contradiction. }
  assert (Hrl : (rootId =? l) = false) by (apply Z.eqb_neq; auto).
  rewrite merged_cons. cbv zeta.
  destruct (Contact.id c =? l) eqn:Eid.
  - replace (optZ_eqb (Contact.linkedId (demote rootId now c)) (Some l))
      with false by (simpl; rewrite Hrl; reflexivity).
    simpl orb. simpl andb. cbv iota.
    unfold merged. change (Contact.id (demote rootId now c)) with (Contact.id c).
    destruct (existsb (Z.eqb (Contact.id c)) ids).
    + destruct c; reflexivity.
    + unfold linksInto. simpl. rewrite Hroot. reflexivity.
  - simpl orb.
    destruct (optZ_eqb (Contact.linkedId c) (Some l)) eqn:Ek; simpl orb.
    + destruct (isLive c) eqn:El; simpl andb; cbv iota.
      * unfold merged.
        change (Contact.id (relink rootId now c)) with (Contact.id c).
        destruct (existsb (Z.eqb (Contact.id c)) ids).
        -- destruct c; reflexivity.
        -- unfold linksInto. simpl. rewrite Hroot. reflexivity.
      * unfold merged. rewrite El, andb_false_r. reflexivity.
    + reflexivity.
Qed.

(** The net effect of the loop: the table it leaves holds the rows of the
    table it was given, each sent through [merged]; the rows that were
    rewritten have moved. *)
Lemma mergeLoop_rows (rootId : Z) (losers : list Contact) (now : Z) :
  ~ In rootId (map Contact.id losers) ->
  forall tx tx',
    mergeLoop rootId losers now tx = Ok tx' ->
    Permutation (rows tx')
                (map (merged rootId (map Contact.id losers) now) (rows tx)) /\
    nextId tx' = nextId tx.
Proof.
  induction losers as [|l losers IH]; simpl; intros Hn tx tx' E.
  - inversion E; subst. split; auto.
    rewrite <- map_id at 1. erewrite map_ext; [apply Permutation_refl|].
    intros c. unfold merged, linksInto. simpl.
    destruct (Contact.linkedId c); reflexivity.
  - destruct (update _ _ _ _) as [tx1|] eqn:E1; simpl in E; [|discriminate].
    destruct (updateMany _ _ _ _) as [tx2|] eqn:E2; simpl in E;
      [|discriminate].
    apply update_Ok in E1. destruct E1 as [R1 N1].
    apply updateMany_Ok in E2. destruct E2 as [R2 N2].
    destruct (IH (fun H => Hn (or_intror H)) _ _ E) as [R N].
    split; [|congruence].
    eapply perm_trans; [exact R|].
    eapply perm_trans; [apply Permutation_map; exact R2|].
    eapply perm_trans;
      [apply Permutation_map; apply Permutation_map; exact R1|].
    rewrite !map_map. erewrite map_ext; [apply Permutation_refl|].
    intros c. apply merged_step; auto.
Qed.

(** The loop rewrites [linkedId], [linkPrecedence] and [updatedAt] only. *)
Lemma mergeLoop_ids (rootId : Z) (losers : list Contact) (now : Z) :
  forall tx tx',
    mergeLoop rootId losers now tx = Ok tx' ->
    Permutation (map Contact.id (rows tx')) (map Contact.id (rows tx)).
Proof.
  induction losers as [|l losers IH]; simpl; intros tx tx' E.
  - inversion E; subst. apply Permutation_refl.
  - destruct (update _ _ _ _) as [tx1|] eqn:E1; simpl in E; [|discriminate].
    destruct (updateMany _ _ _ _) as [tx2|] eqn:E2; simpl in E;
      [|discriminate].
    apply update_Ok in E1. destruct E1 as [R1 _].
    apply updateMany_Ok in E2. destruct E2 as [R2 _].
    eapply perm_trans; [apply (IH _ _ E)|].
    eapply perm_trans; [apply Permutation_map; exact R2|].
    rewrite map_map.
    eapply perm_trans;
      [apply (Permutation_map
                (fun c => Contact.id
                            (if optZ_eqb (Contact.linkedId c)
                                         (Some (Contact.id l)) && isLive c
                             then relink rootId now c else c))); exact R1|].
    rewrite map_map. erewrite map_ext; [apply Permutation_refl|].
    intros c.
    destruct (Contact.id c =? Contact.id l);
      match goal with |- context [if ?b then _ else _] => destruct b end;
      reflexivity.
Qed.

(** *** The shape of a successful call *)

Inductive ReconcileOutcome (email phoneNumber : option string) (now : Z)
  (tx tx' : Store) (resp : IdentifyResponse) : Prop :=
| CreatedPrimary (created : Contact) :
    matchingContacts email phoneNumber tx = [] ->
    create email phoneNumber None primary now tx = Ok (tx', created) ->
    resp = buildResponse created [] ->
    ReconcileOutcome email phoneNumber now tx tx' resp
| AttachedSecondary (rootPrimary : Contact) (losers : list Contact)
    (tx1 : Store) (newSecondary : Contact) :
    matchingContacts email phoneNumber tx <> [] ->
    primaries email phoneNumber tx = Ok (rootPrimary :: losers) ->
    mergeLoop (Contact.id rootPrimary) losers now tx = Ok tx1 ->
    attachCondition email phoneNumber
      (findMany (whereGroup (Contact.id rootPrimary)) tx1) = true ->
    create email phoneNumber (Some (Contact.id rootPrimary)) secondary now tx1
    = Ok (tx', newSecondary) ->
    resp = buildResponse rootPrimary
             (secondariesOf (Contact.id rootPrimary)
                (findMany (whereGroup (Contact.id rootPrimary)) tx1
                 ++ [newSecondary])) ->
    ReconcileOutcome email phoneNumber now tx tx' resp
| NothingAttached (rootPrimary : Contact) (losers : list Contact) :
    matchingContacts email phoneNumber tx <> [] ->
    primaries email phoneNumber tx = Ok (rootPrimary :: losers) ->
    mergeLoop (Contact.id rootPrimary) losers now tx = Ok tx' ->
    attachCondition email phoneNumber
      (findMany (whereGroup (Contact.id rootPrimary)) tx') = false ->
    resp = buildResponse rootPrimary
             (secondariesOf (Contact.id rootPrimary)
                (findMany (whereGroup (Contact.id rootPrimary)) tx')) ->
    ReconcileOutcome email phoneNumber now tx tx' resp.

Lemma reconcile_Ok (email phoneNumber : option string) (now : Z)
  (tx tx' : Store) (resp : IdentifyResponse) :
  reconcile email phoneNumber now tx = Ok (tx', resp) ->
  ReconcileOutcome email phoneNumber now tx tx' resp.
Proof.
  unfold reconcile. intros E.
  destruct (matchingContacts email phoneNumber tx) as [|m ms] eqn:Em.
  - destruct (create _ _ _ _ _ _) as [[tx1 created]|] eqn:Ec; simpl in E;
      [|discriminate].
    inversion E; subst. eapply CreatedPrimary; eauto.
  - destruct (primaries email phoneNumber tx) as [ps|] eqn:Ep; simpl in E;
      [|discriminate].
    destruct ps as [|rootPrimary losers]; simpl in E; [discriminate|].
    destruct (mergeLoop _ _ _ _) as [tx1|] eqn:El; simpl in E;
      [|discriminate].
    destruct (attachCondition _ _ _) eqn:Ea.
    + destruct (create _ _ _ _ _ _) as [[tx2 n]|] eqn:Ec; simpl in E;
        [|discriminate].
      inversion E; subst.
      eapply AttachedSecondary; eauto. rewrite Em. discriminate.
    + inversion E; subst.
      eapply NothingAttached; eauto. rewrite Em. discriminate.
Qed.

Lemma secondariesOf_snoc (rootId : Z) (allLinked : list Contact)
  (n : Contact) :
  Contact.id n <> rootId ->
  secondariesOf rootId (allLinked ++ [n])
  = secondariesOf rootId allLinked ++ [n].
Proof.
  intros Hne. unfold secondariesOf. rewrite filter_app. simpl.
  apply Z.eqb_neq in Hne. rewrite Hne. reflexivity.
Qed.

Lemma primaries_root_in_rows (email phoneNumber : option string) (tx : Store)
  (ps : list Contact) (q : Contact) :
  primaries email phoneNumber tx = Ok ps -> In q ps ->
  In q (rows tx) /\ isLive q = true.
Proof.
  intros E Hq. apply (primaries_In _ _ _ _ E) in Hq. tauto.
Qed.

(** C10.  When a successful call of [reconcile] leaves in the table a
    secondary row whose id was not in the table before, that is, when it
    inserted a new secondary, the [secondaryContactIds] of the payload is
    not empty and ends with the id of that row: the new secondary comes
    after the members of the group that were read from the table. *)
Theorem attached_secondary_is_last (email phoneNumber : option string)
  (now : Z) (tx tx' : Store) (resp : IdentifyResponse) (n : Contact) :
  reconcile email phoneNumber now tx = Ok (tx', resp) ->
  In n (rows tx') ->
  (forall c, In c (rows tx) -> Contact.id c <> Contact.id n) ->
  Contact.linkPrecedence n = secondary ->
  secondaryContactIds (contact resp) <> [] /\
  last (secondaryContactIds (contact resp)) 0 = Contact.id n /\
  exists rootPrimary tx1,
    In rootPrimary (rows tx) /\
    primaryContactId (contact resp) = Contact.id rootPrimary /\
    rows tx' = rows tx1 ++ [n] /\
    secondaryContactIds (contact resp)
    = map Contact.id
        (secondariesOf (Contact.id rootPrimary)
           (findMany (whereGroup (Contact.id rootPrimary)) tx1))
      ++ [Contact.id n].
Proof.
  intros E Hn Hfresh Hsec.
  assert (Hnotin : ~ In (Contact.id n) (map Contact.id (rows tx))).
  { intros H. apply in_map_iff in H. destruct H as [c [Ec Hc]].
    apply (Hfresh c Hc Ec). }
  destruct (reconcile_Ok _ _ _ _ _ _ E)
    as [created Em Ec Er
       |rootPrimary losers tx1 newSecondary Em Ep El Ea Ec Er
       |rootPrimary losers Em Ep El Ea Er].
  - exfalso. apply create_Ok in Ec. destruct Ec as [Ec [Et _]]. subst tx'.
    simpl in Hn. apply in_app_iff in Hn. destruct Hn as [Hn|[Hn|[]]].
    + apply (Hfresh n Hn eq_refl).
    + subst n created. simpl in Hsec. discriminate.
  - apply create_Ok in Ec. destruct Ec as [Ec [Et Hu]]. subst tx'.
    simpl in Hn. apply in_app_iff in Hn.
    pose proof (mergeLoop_ids _ _ _ _ _ El) as Hids.
    destruct Hn as [Hn|[Hn|[]]].
    + exfalso. apply Hnotin. rewrite <- Hids. apply in_map. auto.
    + subst newSecondary.
      destruct (primaries_root_in_rows _ _ _ _ rootPrimary Ep) as [Hr _];
        [left; reflexivity|].
      assert (Hne : Contact.id n <> Contact.id rootPrimary).
      { intros Heq. apply (Hfresh rootPrimary Hr). auto. }
      assert (Hids' : secondaryContactIds (contact resp)
                      = map Contact.id
                          (secondariesOf (Contact.id rootPrimary)
                             (findMany (whereGroup (Contact.id rootPrimary))
                                       tx1))
                        ++ [Contact.id n]).
      { subst resp. simpl. rewrite secondariesOf_snoc by auto.
        rewrite map_app. reflexivity. }
      split; [|split].
      * rewrite Hids'. intros H. apply app_eq_nil in H.
        destruct H; discriminate.
      * rewrite Hids'. apply last_last.
      * exists rootPrimary, tx1. repeat split; auto.
        subst resp. reflexivity.
  - exfalso. apply Hnotin.
    rewrite <- (mergeLoop_ids _ _ _ _ _ El). apply in_map. auto.
Qed.

Lemma attached_secondary_is_last_witness :
  last (secondaryContactIds (contact Examples.docMartyPayload)) 0
  = Contact.id Examples.martySecondary.
Proof.
  apply (attached_secondary_is_last (Some "marty@hv.edu") (Some "555-0100") 11
           Examples.docOnly Examples.docMarty).
  - vm_compute. reflexivity.
  - simpl. auto.
  - simpl. intros c [<-|[]]. vm_compute. discriminate.
  - reflexivity.
Defined.

(* ================================================================== *)
(** * Requests that bring nothing new *)

Lemma optString_eqb_refl (a : option string) : optString_eqb a a = true.
Proof. apply optString_eqb_eq. reflexivity. Qed.

Lemma whereMatching_exact (c : Contact) :
  isLive c = true ->
  whereMatching (Contact.email c) (Contact.phoneNumber c) c = true.
Proof.
  intros Hl. unfold whereMatching, whereOR, orConditions. rewrite Hl. simpl.
  destruct (truthy (Contact.email c)), (truthy (Contact.phoneNumber c));
    simpl; rewrite ?optString_eqb_refl; reflexivity.
Qed.

Lemma whereGroup_true (rootId : Z) (c : Contact) :
  whereGroup rootId c = true <->
  isLive c = true /\
  (Contact.id c = rootId \/ Contact.linkedId c = Some rootId).
Proof.
  unfold whereGroup.
  rewrite andb_true_iff, orb_true_iff, Z.eqb_eq, optZ_eqb_eq. tauto.
Qed.

Lemma exactDuplicate_exact (allLinked : list Contact) (c : Contact) :
  In c allLinked ->
  exactDuplicate (Contact.email c) (Contact.phoneNumber c) allLinked = true.
Proof.
  intros Hc. unfold exactDuplicate. apply existsb_exists. exists c.
  split; auto. rewrite !optString_eqb_refl, !orb_true_r. reflexivity.
Qed.

(* ================================================================== *)
(** * Dangling links *)

Lemma mergeAndAttach_Err (email phoneNumber : option string) (now : Z)
  (tx : Store) (rootPrimary : Contact) (losers : list Contact) (err : Error) :
  mergeAndAttach email phoneNumber now tx (rootPrimary :: losers) = Err err ->
  requestError err.
Proof.
  simpl. intros E.
  destruct (mergeLoop _ _ _ _) as [tx1|e1] eqn:El; simpl in E.
  - destruct (attachCondition _ _ _); [|discriminate].
    destruct (create _ _ _ _ _ _) as [[tx2 n]|e2] eqn:Ec; simpl in E;
      [discriminate|].
    inversion E; subst. eapply create_Err; eauto.
  - inversion E; subst. left. eapply mergeLoop_Err; eauto.
Qed.

Lemma transaction_body_Err {A : Type} (a : Attempt)
  (body : Z -> Store -> Result (Store * A)) (err : Error) :
  body (now_ a) (snapshot a) = Err err -> transaction a body = Err err.
Proof. unfold transaction. intros ->. reflexivity. Qed.

Lemma idList_Err (l : list (option Z)) (err : Error) :
  idList l = Err err -> err = PrismaClientValidationError /\ In None l.
Proof.
  induction l as [|[k|] l IH]; simpl; intros E.
  - discriminate.
  - destruct (idList l) as [ks|e]; simpl in E; [discriminate|].
    inversion E; subst. destruct (IH eq_refl) as [-> Hin]. auto.
  - inversion E. auto.
Qed.

(** The query of step 3 fails exactly when a match resolves to no root
    id, and then with the validation error of the client. *)
Lemma primaries_Err (email phoneNumber : option string) (tx : Store) :
  (exists m, In m (matchingContacts email phoneNumber tx) /\
             rootIdOf m = None) <->
  primaries email phoneNumber tx = Err PrismaClientValidationError.
Proof.
  unfold primaries. split.
  - intros Hm. apply primaryIds_In in Hm.
    destruct (idList _) as [ks|e] eqn:Ei; simpl.
    + apply idList_Ok in Ei. tauto.
    + apply idList_Err in Ei. destruct Ei as [-> _]. reflexivity.
  - intros E.
    destruct (idList _) as [ks|e] eqn:Ei; simpl in E; [discriminate|].
    apply idList_Err in Ei. apply primaryIds_In. tauto.
Qed.

Lemma primaries_Ok_or_Err (email phoneNumber : option string) (tx : Store) :
  (exists ps, primaries email phoneNumber tx = Ok ps) \/
  primaries email phoneNumber tx = Err PrismaClientValidationError.
Proof.
  unfold primaries.
  destruct (idList _) as [ks|e] eqn:Ei; simpl; eauto.
  apply idList_Err in Ei. destruct Ei as [-> _]. auto.
Qed.

(** C6 (as amended).  A matched secondary whose [linkedId] names a row
    that is missing or not live is not detected as such.  When some match
    resolves to no root id at all (a secondary whose [linkedId] is null),
    the query of step 3 is refused by the client and the call fails with
    its validation error, which [identify] returns without a retry.
    Otherwise the query runs and simply does not fetch the row that the
    dangling link names.  If it fetches no row at all, the call fails with a
    TypeError (reading [id] of an undefined [rootPrimary]), which
    [identify] returns without a retry.  If it fetches some row, the call
    goes on with the rows fetched, and can then fail only with a request
    error that a write raised. *)
Theorem dangling_link_undetected (first retry : Attempt)
  (email phoneNumber : option string) (m : Contact) (k : Z) :
  In m (matchingContacts email phoneNumber (snapshot first)) ->
  Contact.linkPrecedence m = secondary ->
  Contact.linkedId m = Some k ->
  (forall q, In q (rows (snapshot first)) -> Contact.id q = k ->
             isLive q = false) ->
  ((exists m', In m' (matchingContacts email phoneNumber (snapshot first)) /\
               rootIdOf m' = None) ->
   reconcile email phoneNumber (now_ first) (snapshot first)
   = Err PrismaClientValidationError /\
   identify first retry email phoneNumber
   = Err PrismaClientValidationError) /\
  ((forall m', In m' (matchingContacts email phoneNumber (snapshot first)) ->
               rootIdOf m' <> None) ->
   exists ps,
     primaries email phoneNumber (snapshot first) = Ok ps /\
     (forall q, In q ps -> Contact.id q <> k) /\
     reconcile email phoneNumber (now_ first) (snapshot first)
     = mergeAndAttach email phoneNumber (now_ first) (snapshot first) ps /\
     (ps = [] ->
      reconcile email phoneNumber (now_ first) (snapshot first)
      = Err TypeError /\
      identify first retry email phoneNumber = Err TypeError) /\
     (ps <> [] ->
      forall err,
        reconcile email phoneNumber (now_ first) (snapshot first) = Err err ->
        requestError err)).
Proof.
  intros Hm Hsec Hlink Hdead.
  assert (Hr : reconcile email phoneNumber (now_ first) (snapshot first)
               = ps <- primaries email phoneNumber (snapshot first) ;;
                 mergeAndAttach email phoneNumber (now_ first)
                                (snapshot first) ps).
  { unfold reconcile.
    destruct (matchingContacts _ _ _) as [|m0 ms]; [destruct Hm|].
    reflexivity. }
  assert (Hid : forall err,
            reconcile email phoneNumber (now_ first) (snapshot first)
            = Err err ->
            isUniqueConstraintError err = false ->
            identify first retry email phoneNumber = Err err).
  { intros err E Hu. unfold identify.
    rewrite (transaction_body_Err first (reconcile email phoneNumber) err E).
    rewrite Hu. reflexivity. }
  split.
  - intros Hnull. apply primaries_Err in Hnull.
    assert (E : reconcile email phoneNumber (now_ first) (snapshot first)
                = Err PrismaClientValidationError)
      by (rewrite Hr, Hnull; reflexivity).
    split; [exact E|]. apply Hid; auto.
  - intros Hroots.
    destruct (primaries_Ok_or_Err email phoneNumber (snapshot first))
      as [[ps Ep]|Ep].
    2: { apply primaries_Err in Ep. destruct Ep as [m' [Hm' Em']].
         exfalso. apply (Hroots m' Hm' Em'). }
    exists ps. split; [exact Ep|].
    rewrite Hr, Ep. simpl. split; [|split; [reflexivity|split]].
    + intros q Hq Eq.
      destruct (primaries_root_in_rows _ _ _ _ q Ep Hq) as [Hin Hl].
      rewrite (Hdead q Hin Eq) in Hl. discriminate.
    + intros ->. simpl. split; auto.
      apply Hid; auto. rewrite Hr, Ep. reflexivity.
    + intros Hne err E.
      destruct ps as [|rootPrimary losers]; [contradiction|].
      eapply mergeAndAttach_Err; eauto.
Qed.

Lemma dangling_link_undetected_witness :
  identify (mkAttempt Examples.danglingNull 9 None) Examples.cleanAttempt
           (Some "c@t.io") None
  = Err PrismaClientValidationError /\
  identify (mkAttempt Examples.danglingOnly 9 None) Examples.cleanAttempt
           (Some "c@t.io") None
  = Err TypeError.
Proof.
  split.
  - apply (dangling_link_undetected (mkAttempt Examples.danglingNull 9 None)
             Examples.cleanAttempt (Some "c@t.io") None Examples.orphan 2).
    + vm_compute. auto.
    + reflexivity.
    + reflexivity.
    + simpl. intros q [<-|[<-|[<-|[]]]]; vm_compute; intros; congruence.
    + exists Examples.unlinked. split; [vm_compute; auto|reflexivity].
  - destruct (dangling_link_undetected
                (mkAttempt Examples.danglingOnly 9 None)
                Examples.cleanAttempt (Some "c@t.io") None Examples.orphan 2)
      as [_ H].
    + vm_compute. auto.
    + reflexivity.
    + reflexivity.
    + simpl. intros q [<-|[<-|[]]]; vm_compute; intros; congruence.
    + destruct H as [ps [Ep [_ [_ [Hnil _]]]]].
      * simpl. intros m' [<-|[]]. discriminate.
      * apply Hnil. vm_compute in Ep. inversion Ep. reflexivity.
Defined.

(** C6 (as stated) fails: the orphan row 3 is matched and its primary,
    row 2, is soft-deleted, yet the call succeeds with the other primary,
    row 1, and even attaches a new secondary to it. *)
Lemma dangling_link_counterexample :
  In Examples.orphan
     (matchingContacts (Some "c@t.io") (Some "100") Examples.dangling) /\
  Contact.linkedId Examples.orphan = Some 2 /\
  findMany (fun c => (Contact.id c =? 2) && isLive c) Examples.dangling = [] /\
  reconcile (Some "c@t.io") (Some "100") 9 Examples.dangling
  = Ok (mkStore [Examples.livePrimary; Examples.deletedPrimary;
                 Examples.orphan;
                 Contact.mk 4 (Some "100") (Some "c@t.io") (Some 1)
                            secondary 9 9 None] 5,
        mkResponse (mkConsolidated 1 ["a@t.io"; "c@t.io"] ["100"] [4])).
Proof. repeat split; vm_compute; auto. Qed.

(* ================================================================== *)
(** * The effect of a merge on the table *)

Lemma existsb_eqb_In (k : Z) (ids : list Z) :
  existsb (Z.eqb k) ids = true <-> In k ids.
Proof.
  rewrite existsb_exists. split.
  - intros [x [Hx E]]. apply Z.eqb_eq in E. congruence.
  - intros H. exists k. split; auto. apply Z.eqb_refl.
Qed.

Lemma existsb_eqb_not_In (k : Z) (ids : list Z) :
  existsb (Z.eqb k) ids = false <-> ~ In k ids.
Proof.
  rewrite <- existsb_eqb_In. destruct (existsb _ _); split; congruence.
Qed.

Lemma merged_cases (rootId : Z) (loserIds : list Z) (now : Z) (c : Contact) :
  (In (Contact.id c) loserIds /\
   merged rootId loserIds now c = demote rootId now c) \/
  (~ In (Contact.id c) loserIds /\ isLive c = true /\
   (exists k, Contact.linkedId c = Some k /\ In k loserIds) /\
   merged rootId loserIds now c = relink rootId now c) \/
  (~ In (Contact.id c) loserIds /\
   (isLive c = true ->
    forall k, Contact.linkedId c = Some k -> ~ In k loserIds) /\
   merged rootId loserIds now c = c).
Proof.
  unfold merged, linksInto.
  destruct (existsb (Z.eqb (Contact.id c)) loserIds) eqn:Ei.
  - left. apply existsb_eqb_In in Ei. auto.
  - right. apply existsb_eqb_not_In in Ei.
    destruct (Contact.linkedId c) as [k|] eqn:Ek.
    + destruct (existsb (Z.eqb k) loserIds) eqn:El; simpl.
      * destruct (isLive c) eqn:Hl.
        -- left. apply existsb_eqb_In in El. repeat split; eauto.
        -- right. repeat split; auto. discriminate.
      * right. apply existsb_eqb_not_In in El. repeat split; auto.
        intros _ k' E. inversion E; subst. auto.
    + right. repeat split; auto. discriminate.
Qed.

Lemma merged_id (rootId : Z) (loserIds : list Z) (now : Z) (c : Contact) :
  Contact.id (merged rootId loserIds now c) = Contact.id c.
Proof.
  destruct (merged_cases rootId loserIds now c)
    as [[_ E]|[[_ [_ [_ E]]]|[_ [_ E]]]]; rewrite E; reflexivity.
Qed.

Lemma merged_email (rootId : Z) (loserIds : list Z) (now : Z) (c : Contact) :
  Contact.email (merged rootId loserIds now c) = Contact.email c.
Proof.
  destruct (merged_cases rootId loserIds now c)
    as [[_ E]|[[_ [_ [_ E]]]|[_ [_ E]]]]; rewrite E; reflexivity.
Qed.

Lemma merged_phoneNumber (rootId : Z) (loserIds : list Z) (now : Z)
  (c : Contact) :
  Contact.phoneNumber (merged rootId loserIds now c) = Contact.phoneNumber c.
Proof.
  destruct (merged_cases rootId loserIds now c)
    as [[_ E]|[[_ [_ [_ E]]]|[_ [_ E]]]]; rewrite E; reflexivity.
Qed.

Lemma merged_createdAt (rootId : Z) (loserIds : list Z) (now : Z)
  (c : Contact) :
  Contact.createdAt (merged rootId loserIds now c) = Contact.createdAt c.
Proof.
  destruct (merged_cases rootId loserIds now c)
    as [[_ E]|[[_ [_ [_ E]]]|[_ [_ E]]]]; rewrite E; reflexivity.
Qed.

Lemma merged_isLive (rootId : Z) (loserIds : list Z) (now : Z) (c : Contact) :
  isLive (merged rootId loserIds now c) = isLive c.
Proof.
  destruct (merged_cases rootId loserIds now c)
    as [[_ E]|[[_ [_ [_ E]]]|[_ [_ E]]]]; rewrite E; reflexivity.
Qed.

(** A merge promotes nobody. *)
Lemma merged_primary (rootId : Z) (loserIds : list Z) (now : Z)
  (c : Contact) :
  Contact.linkPrecedence (merged rootId loserIds now c) = primary ->
  Contact.linkPrecedence c = primary /\ ~ In (Contact.id c) loserIds.
Proof.
  destruct (merged_cases rootId loserIds now c)
    as [[_ E]|[[Hn [_ [_ E]]]|[Hn [_ E]]]]; rewrite E; simpl; auto.
  discriminate.
Qed.

Lemma merged_keeps_precedence (rootId : Z) (loserIds : list Z) (now : Z)
  (c : Contact) :
  ~ In (Contact.id c) loserIds ->
  Contact.linkPrecedence (merged rootId loserIds now c)
  = Contact.linkPrecedence c.
Proof.
  intros Hn.
  destruct (merged_cases rootId loserIds now c)
    as [[H _]|[[_ [_ [_ E]]]|[_ [_ E]]]]; [contradiction| |];
    rewrite E; reflexivity.
Qed.

Lemma merged_linkedId (rootId : Z) (loserIds : list Z) (now : Z)
  (c : Contact) :
  Contact.linkedId (merged rootId loserIds now c) = Some rootId \/
  (merged rootId loserIds now c = c /\ ~ In (Contact.id c) loserIds /\
   (isLive c = true ->
    forall k, Contact.linkedId c = Some k -> ~ In k loserIds)).
Proof.
  destruct (merged_cases rootId loserIds now c)
    as [[_ E]|[[_ [_ [_ E]]]|[Hn [Hk E]]]]; rewrite E; simpl; auto.
Qed.

Lemma whereMatching_merged (email phoneNumber : option string)
  (rootId : Z) (loserIds : list Z) (now : Z) (c : Contact) :
  whereMatching email phoneNumber (merged rootId loserIds now c)
  = whereMatching email phoneNumber c.
Proof.
  unfold whereMatching, whereOR, orConditions.
  rewrite merged_isLive.
  destruct (truthy email), (truthy phoneNumber); simpl;
    rewrite ?merged_email, ?merged_phoneNumber; reflexivity.
Qed.

(** *** The rows fetched in step 3 *)

Lemma filter_uniqueIds (w : Contact -> bool) (rs : list Contact) :
  uniqueIds rs -> uniqueIds (filter w rs).
Proof.
  unfold uniqueIds. induction rs as [|c rs IH]; simpl; auto.
  intros H. inversion H; subst. destruct (w c); simpl; auto.
  constructor; auto. intros Hin. apply H2.
  apply in_map_iff in Hin. destruct Hin as [d [E Hd]].
  apply filter_In in Hd. rewrite <- E. apply in_map. tauto.
Qed.

Lemma findMany_uniqueIds (w : Contact -> bool) (tx : Store) :
  uniqueIds (rows tx) -> uniqueIds (findMany w tx).
Proof.
  intros H. unfold findMany, uniqueIds.
  eapply Permutation_NoDup.
  - apply Permutation_map. apply orderByCreatedAt_perm.
  - apply filter_uniqueIds. auto.
Qed.

Lemma primaries_distinct (email phoneNumber : option string) (tx : Store)
  (rootPrimary : Contact) (losers : list Contact) :
  uniqueIds (rows tx) ->
  primaries email phoneNumber tx = Ok (rootPrimary :: losers) ->
  ~ In (Contact.id rootPrimary) (map Contact.id losers).
Proof.
  unfold primaries. intros Hu E.
  destruct (idList _) as [ids|]; simpl in E; [|discriminate].
  inversion E as [E']. clear E.
  pose proof (findMany_uniqueIds (whereIdIn ids) tx Hu) as H.
  rewrite E' in H. unfold uniqueIds in H. simpl in H.
  inversion H; auto.
Qed.

(** What a successful merge leaves: every row rewritten by [merged], the
    rewritten rows after the others. *)
Lemma merge_rows (email phoneNumber : option string) (now : Z)
  (tx tx1 : Store) (rootPrimary : Contact) (losers : list Contact) :
  uniqueIds (rows tx) ->
  primaries email phoneNumber tx = Ok (rootPrimary :: losers) ->
  mergeLoop (Contact.id rootPrimary) losers now tx = Ok tx1 ->
  Permutation (rows tx1)
              (map (merged (Contact.id rootPrimary) (map Contact.id losers)
                           now) (rows tx)) /\
  nextId tx1 = nextId tx /\
  ~ In (Contact.id rootPrimary) (map Contact.id losers).
Proof.
  intros Hu Ep El.
  pose proof (primaries_distinct _ _ _ _ _ Hu Ep) as Hd.
  destruct (mergeLoop_rows _ _ _ Hd _ _ El). auto.
Qed.

(** The rows of a table that is a map of another, up to order. *)
Lemma perm_map_In_inv (g : Contact -> Contact) (rs rs1 : list Contact)
  (x : Contact) :
  Permutation rs1 (map g rs) -> In x rs1 ->
  exists x0, g x0 = x /\ In x0 rs.
Proof.
  intros R Hx. apply (Permutation_in _ R) in Hx.
  apply in_map_iff in Hx. exact Hx.
Qed.

Lemma perm_map_In (g : Contact -> Contact) (rs rs1 : list Contact)
  (x0 : Contact) :
  Permutation rs1 (map g rs) -> In x0 rs -> In (g x0) rs1.
Proof.
  intros R Hx. apply (Permutation_in _ (Permutation_sym R)).
  apply in_map. exact Hx.
Qed.

Lemma uniqueIds_Permutation (rs rs' : list Contact) :
  Permutation rs rs' -> uniqueIds rs -> uniqueIds rs'.
Proof.
  unfold uniqueIds. intros HP Hu.
  apply (Permutation_NoDup (Permutation_map Contact.id HP) Hu).
Qed.

Lemma linksExist_Permutation (rs rs' : list Contact) :
  Permutation rs rs' -> linksExist rs -> linksExist rs'.
Proof.
  intros HP He c k Hc Ek.
  apply (Permutation_in _ (Permutation_sym HP)) in Hc.
  destruct (He c k Hc Ek) as [d [Hd Ed]]. exists d. split; auto.
  apply (Permutation_in _ HP). exact Hd.
Qed.

Lemma depthOne_Permutation (rs rs' : list Contact) :
  Permutation rs rs' -> depthOne rs -> depthOne rs'.
Proof.
  intros HP Hd c d Hc Hdd. apply Hd;
    apply (Permutation_in _ (Permutation_sym HP)); assumption.
Qed.

Lemma linksValid_Permutation (rs rs' : list Contact) :
  Permutation rs rs' -> linksValid rs -> linksValid rs'.
Proof.
  intros HP Hv c Hc Hl Hs.
  apply (Permutation_in _ (Permutation_sym HP)) in Hc.
  destruct (Hv c Hc Hl Hs) as [d [Hd H]]. exists d. split; auto.
  apply (Permutation_in _ HP). exact Hd.
Qed.

(** The invariants of the table do not depend on the order of its rows:
    a permutation may be rewritten under them. *)
#[local] Instance uniqueIds_Proper :
  Proper (@Permutation Contact ==> iff) uniqueIds.
Proof.
  intros rs rs' HP. split; apply uniqueIds_Permutation; auto.
  apply Permutation_sym. exact HP.
Qed.

#[local] Instance linksExist_Proper :
  Proper (@Permutation Contact ==> iff) linksExist.
Proof.
  intros rs rs' HP. split; apply linksExist_Permutation; auto.
  apply Permutation_sym. exact HP.
Qed.

#[local] Instance depthOne_Proper :
  Proper (@Permutation Contact ==> iff) depthOne.
Proof.
  intros rs rs' HP. split; apply depthOne_Permutation; auto.
  apply Permutation_sym. exact HP.
Qed.

#[local] Instance linksValid_Proper :
  Proper (@Permutation Contact ==> iff) linksValid.
Proof.
  intros rs rs' HP. split; apply linksValid_Permutation; auto.
  apply Permutation_sym. exact HP.
Qed.

Lemma loser_in_primaries (email phoneNumber : option string) (tx : Store)
  (rootPrimary : Contact) (losers : list Contact) (q : Contact) :
  uniqueIds (rows tx) ->
  primaries email phoneNumber tx = Ok (rootPrimary :: losers) ->
  In q (rows tx) -> isLive q = true ->
  (exists m, In m (matchingContacts email phoneNumber tx) /\
             rootIdOf m = Some (Contact.id q)) ->
  q = rootPrimary \/ In (Contact.id q) (map Contact.id losers).
Proof.
  intros Hu Ep Hq Hl Hm.
  assert (H : In q (rootPrimary :: losers)).
  { apply (primaries_In _ _ _ _ Ep). auto. }
  destruct H as [H|H]; auto. right. apply in_map. auto.
Qed.

(* ================================================================== *)
(** * The survivor *)

(** After a successful call the payload names the survivor and every
    loser stands demoted under it. *)
Lemma reconcile_survivor (email phoneNumber : option string) (now : Z)
  (tx tx' : Store) (resp : IdentifyResponse) (rootPrimary : Contact)
  (losers : list Contact) :
  uniqueIds (rows tx) ->
  primaries email phoneNumber tx = Ok (rootPrimary :: losers) ->
  reconcile email phoneNumber now tx = Ok (tx', resp) ->
  primaryContactId (contact resp) = Contact.id rootPrimary /\
  forall l, In l losers ->
            In (demote (Contact.id rootPrimary) now l) (rows tx').
Proof.
  intros Hu Ep E.
  assert (Hdem : forall txm,
            mergeLoop (Contact.id rootPrimary) losers now tx = Ok txm ->
            forall l, In l losers ->
                      In (demote (Contact.id rootPrimary) now l) (rows txm)).
  { intros txm El l Hl.
    destruct (merge_rows _ _ _ _ _ _ _ Hu Ep El) as [R _]. rewrite R.
    destruct (primaries_root_in_rows _ _ _ _ l Ep) as [Hin _];
      [right; auto|].
    destruct (merged_cases (Contact.id rootPrimary) (map Contact.id losers)
                           now l) as [[_ Em]|[[Hn _]|[Hn _]]].
    - rewrite <- Em. apply in_map. auto.
    - exfalso. apply Hn. apply in_map. auto.
    - exfalso. apply Hn. apply in_map. auto. }
  destruct (reconcile_Ok _ _ _ _ _ _ E)
    as [created Em Ec Er
       |rootPrimary' losers' txm n Em Ep' El Ea Ec Er
       |rootPrimary' losers' Em Ep' El Ea Er].
  - exfalso.
    assert (H : In rootPrimary (rootPrimary :: losers)) by (left; auto).
    apply (primaries_In _ _ _ _ Ep) in H.
    destruct H as [_ [_ [m [Hm _]]]]. rewrite Em in Hm. destruct Hm.
  - rewrite Ep in Ep'. inversion Ep'; subst rootPrimary' losers'.
    apply create_Ok in Ec. destruct Ec as [_ [-> _]]. subst resp.
    split; auto. intros l Hl. simpl. apply in_app_iff. left. auto.
  - rewrite Ep in Ep'. inversion Ep'; subst rootPrimary' losers'.
    subst resp. split; auto.
Qed.

(** C3 (as amended).  In step 3 of an attempt the root primaries, that is
    the live rows whose id is the root id of some match, are fetched in
    ascending [createdAt] (no second sort key); the survivor is the first
    of them, so that its [createdAt] is at most that of every other root,
    and all the other roots are the losers: when the call succeeds, the
    payload names the survivor and each loser stands demoted under it. *)
Theorem survivor_is_oldest (email phoneNumber : option string) (tx : Store)
  (rootPrimary : Contact) (losers : list Contact) :
  primaries email phoneNumber tx = Ok (rootPrimary :: losers) ->
  Sorted createdAtLe (rootPrimary :: losers) /\
  (forall q, In q losers ->
             Contact.createdAt rootPrimary <= Contact.createdAt q) /\
  (forall q,
     In q (rows tx) -> isLive q = true ->
     (exists m, In m (matchingContacts email phoneNumber tx) /\
                rootIdOf m = Some (Contact.id q)) ->
     q = rootPrimary \/ In q losers) /\
  (uniqueIds (rows tx) ->
   forall now tx' resp,
     reconcile email phoneNumber now tx = Ok (tx', resp) ->
     primaryContactId (contact resp) = Contact.id rootPrimary /\
     forall l, In l losers ->
               In (demote (Contact.id rootPrimary) now l) (rows tx')).
Proof.
  intros E. pose proof (primaries_sorted _ _ _ _ E) as Hs.
  split; auto. split; [|split].
  - apply Sorted_StronglySorted in Hs; [|apply createdAtLe_trans].
    inversion Hs as [|? ? _ Hall]; subst.
    rewrite Forall_forall in Hall. exact Hall.
  - intros q Hq Hl Hm.
    assert (H : In q (rootPrimary :: losers)).
    { apply (primaries_In _ _ _ _ E). auto. }
    destruct H; auto.
  - intros Hu now tx' resp Er.
    apply (reconcile_survivor email phoneNumber now tx tx' resp); auto.
Qed.

Lemma survivor_is_oldest_witness :
  Sorted createdAtLe [Examples.tiedRoot2; Examples.tiedRoot1].
Proof.
  apply (survivor_is_oldest (Some "a@t.io") (Some "200") Examples.tiedRoots
           Examples.tiedRoot2 [Examples.tiedRoot1]).
  vm_compute. reflexivity.
Defined.

(** C3 (as stated) fails: two root primaries stamped alike are returned in
    scan order, so the survivor is row 2 although row 1 is the minimum for
    ([createdAt], [id]); row 1 is the one demoted. *)
Lemma survivor_tie_counterexample :
  primaries (Some "a@t.io") (Some "200") Examples.tiedRoots
  = Ok [Examples.tiedRoot2; Examples.tiedRoot1] /\
  orderByCreatedAtThenId [Examples.tiedRoot2; Examples.tiedRoot1]
  = [Examples.tiedRoot1; Examples.tiedRoot2] /\
  reconcile (Some "a@t.io") (Some "200") 9 Examples.tiedRoots
  = Ok (mkStore [Examples.tiedRoot2; demote 2 9 Examples.tiedRoot1] 3,
        mkResponse (mkConsolidated 2 ["b@t.io"; "a@t.io"] ["200"; "100"] [1])).
Proof. repeat split; vm_compute; reflexivity. Qed.

(* ================================================================== *)
(** * Depth-one *)

Lemma matching_in_rows (email phoneNumber : option string) (tx : Store)
  (m : Contact) :
  In m (matchingContacts email phoneNumber tx) ->
  In m (rows tx) /\ isLive m = true /\
  whereMatching email phoneNumber m = true.
Proof.
  unfold matchingContacts. rewrite findMany_In. intros [Hin Hw].
  repeat split; auto. unfold whereMatching in Hw.
  apply andb_true_iff in Hw. tauto.
Qed.

(** Under depth-one, the rows fetched in step 3 are primaries. *)
Lemma primaries_are_primary (email phoneNumber : option string) (tx : Store)
  (ps : list Contact) (q : Contact) :
  uniqueIds (rows tx) -> depthOne (rows tx) ->
  primaries email phoneNumber tx = Ok ps -> In q ps ->
  Contact.linkPrecedence q = primary.
Proof.
  intros Hu Hd Ep Hq.
  apply (primaries_In _ _ _ _ Ep) in Hq.
  destruct Hq as [Hin [Hl [m [Hm Er]]]].
  apply matching_in_rows in Hm. destruct Hm as [Hmin [Hml _]].
  unfold rootIdOf in Er.
  destruct (Contact.linkPrecedence m) eqn:Epm.
  - inversion Er as [Eid].
    rewrite <- (uniqueIds_eq _ _ _ Hu Hmin Hin Eid). auto.
  - eapply Hd; eauto.
Qed.

Lemma uniqueIds_map_merged (rootId : Z) (loserIds : list Z) (now : Z)
  (rs : list Contact) :
  map Contact.id (map (merged rootId loserIds now) rs) = map Contact.id rs.
Proof.
  rewrite map_map. apply map_ext. intros c. apply merged_id.
Qed.

Lemma linksExist_merged (rootPrimary : Contact) (loserIds : list Z) (now : Z)
  (rs : list Contact) :
  In rootPrimary rs -> linksExist rs ->
  linksExist (map (merged (Contact.id rootPrimary) loserIds now) rs).
Proof.
  intros Hr He c' k Hc' Ek.
  apply in_map_iff in Hc'. destruct Hc' as [c [<- Hc]].
  destruct (merged_linkedId (Contact.id rootPrimary) loserIds now c)
    as [E|[E _]].
  - rewrite E in Ek. inversion Ek; subst k.
    exists (merged (Contact.id rootPrimary) loserIds now rootPrimary).
    split; [apply in_map; auto | apply merged_id].
  - rewrite E in Ek. destruct (He c k Hc Ek) as [d [Hd Ed]].
    exists (merged (Contact.id rootPrimary) loserIds now d).
    split; [apply in_map; auto | rewrite merged_id; auto].
Qed.

(** Demoting the losers and re-linking their children to a live primary
    survivor keeps the forest at depth one. *)
Lemma depthOne_merged (rootPrimary : Contact) (loserIds : list Z) (now : Z)
  (rs : list Contact) :
  uniqueIds rs -> In rootPrimary rs ->
  Contact.linkPrecedence rootPrimary = primary ->
  ~ In (Contact.id rootPrimary) loserIds ->
  depthOne rs ->
  depthOne (map (merged (Contact.id rootPrimary) loserIds now) rs).
Proof.
  intros Hu Hr Hp Hn Hd c' d' Hc' Hd' Hlc Hld Ek.
  apply in_map_iff in Hc'. destruct Hc' as [c [<- Hc]].
  apply in_map_iff in Hd'. destruct Hd' as [d [<- Hdin]].
  rewrite merged_isLive in Hlc, Hld. rewrite merged_id in Ek.
  destruct (merged_linkedId (Contact.id rootPrimary) loserIds now c)
    as [E|[E [_ Hk]]].
  - rewrite E in Ek. inversion Ek as [Eid].
    assert (d = rootPrimary) by (apply (uniqueIds_eq rs); auto).
    subst d. rewrite merged_keeps_precedence; auto.
  - rewrite E in Ek.
    rewrite merged_keeps_precedence; [apply (Hd c d); auto|].
    apply (Hk Hlc _ Ek).
Qed.

Lemma depthOne_snoc_primary (rs : list Contact) (n : Contact) :
  depthOne rs -> Contact.linkedId n = None ->
  Contact.linkPrecedence n = primary -> depthOne (rs ++ [n]).
Proof.
  intros Hd Hl Hp c d Hc Hdin Hlc Hld Ek.
  apply in_app_iff in Hc. apply in_app_iff in Hdin.
  destruct Hdin as [Hdin|[<-|[]]]; auto.
  destruct Hc as [Hc|[<-|[]]]; [apply (Hd c d); auto | congruence].
Qed.

Lemma depthOne_snoc_secondary (rs : list Contact) (rootPrimary n : Contact) :
  uniqueIds (rs ++ [n]) -> linksExist rs -> depthOne rs ->
  In rootPrimary rs -> Contact.linkPrecedence rootPrimary = primary ->
  Contact.linkedId n = Some (Contact.id rootPrimary) ->
  depthOne (rs ++ [n]).
Proof.
  intros Hu He Hd Hr Hp Hl c d Hc Hdin Hlc Hld Ek.
  destruct (uniqueIds_snoc_fresh _ _ Hu) as [Hu' Hfresh].
  apply in_app_iff in Hc. apply in_app_iff in Hdin.
  destruct Hdin as [Hdin|[<-|[]]].
  - destruct Hc as [Hc|[<-|[]]]; [apply (Hd c d); auto|].
    rewrite Hl in Ek. inversion Ek as [Eid].
    rewrite <- (uniqueIds_eq _ _ _ Hu' Hr Hdin Eid). auto.
  - exfalso. destruct Hc as [Hc|[<-|[]]].
    + destruct (He c _ Hc Ek) as [d [Hd' Ed]]. apply (Hfresh d Hd' Ed).
    + rewrite Hl in Ek. inversion Ek as [Eid]. apply (Hfresh _ Hr Eid).
Qed.

Lemma linksExist_snoc (rs : list Contact) (n : Contact) :
  linksExist rs ->
  (forall k, Contact.linkedId n = Some k ->
             exists d, In d rs /\ Contact.id d = k) ->
  linksExist (rs ++ [n]).
Proof.
  intros He Hn c k Hc Ek. apply in_app_iff in Hc.
  destruct Hc as [Hc|[<-|[]]].
  - destruct (He c k Hc Ek) as [d [Hd Ed]]. exists d.
    split; auto. apply in_app_iff. auto.
  - destruct (Hn k Ek) as [d [Hd Ed]]. exists d.
    split; auto. apply in_app_iff. auto.
Qed.

(** One successful call keeps the primary key, the foreign key and
    depth-one. *)
Lemma reconcile_depthOne (email phoneNumber : option string) (now : Z)
  (tx tx' : Store) (resp : IdentifyResponse) :
  uniqueIds (rows tx) -> linksExist (rows tx) -> depthOne (rows tx) ->
  reconcile email phoneNumber now tx = Ok (tx', resp) ->
  uniqueIds (rows tx') /\ linksExist (rows tx') /\ depthOne (rows tx').
Proof.
  intros Hu He Hd E.
  assert (Hmerge :
    forall rootPrimary losers tx1,
      primaries email phoneNumber tx = Ok (rootPrimary :: losers) ->
      mergeLoop (Contact.id rootPrimary) losers now tx = Ok tx1 ->
      uniqueIds (rows tx1) /\ linksExist (rows tx1) /\ depthOne (rows tx1) /\
      exists r1, In r1 (rows tx1) /\
                 Contact.id r1 = Contact.id rootPrimary /\
                 Contact.linkPrecedence r1 = primary).
  { intros rootPrimary losers tx1 Ep El.
    destruct (merge_rows _ _ _ _ _ _ _ Hu Ep El) as [R [_ Hn]].
    destruct (primaries_root_in_rows _ _ _ _ rootPrimary Ep) as [Hr _];
      [left; reflexivity|].
    assert (Hp : Contact.linkPrecedence rootPrimary = primary).
    { eapply primaries_are_primary; eauto. left. reflexivity. }
    rewrite R. repeat split.
    - unfold uniqueIds. rewrite uniqueIds_map_merged. auto.
    - apply linksExist_merged; auto.
    - apply depthOne_merged; auto.
    - exists (merged (Contact.id rootPrimary) (map Contact.id losers) now
                     rootPrimary).
      split; [apply (perm_map_In _ _ _ _ R); auto|].
      split; [apply merged_id|].
      rewrite merged_keeps_precedence; auto. }
  destruct (reconcile_Ok _ _ _ _ _ _ E)
    as [created Em Ec Er
       |rootPrimary losers tx1 newSecondary Em Ep El Ea Ec Er
       |rootPrimary losers Em Ep El Ea Er].
  - apply create_Ok in Ec. destruct Ec as [Ec [-> Hu']]. simpl.
    repeat split; auto.
    + apply linksExist_snoc; auto. subst created. simpl. discriminate.
    + apply depthOne_snoc_primary; auto; subst created; reflexivity.
  - destruct (Hmerge _ _ _ Ep El) as [Hu1 [He1 [Hd1 [r1 [Hr1 [Eid Hp1]]]]]].
    apply create_Ok in Ec. destruct Ec as [Ec [-> Hu']]. simpl.
    repeat split; auto.
    + apply linksExist_snoc; auto. subst newSecondary. simpl.
      intros k Ek. inversion Ek; subst k. eauto.
    + apply (depthOne_snoc_secondary _ r1); auto.
      subst newSecondary. simpl. congruence.
  - destruct (Hmerge _ _ _ Ep El) as [Hu1 [He1 [Hd1 _]]]. auto.
Qed.

(** C5.  Starting from a table that satisfies the primary key, the
    foreign key and depth-one, every sequence of successful [reconcile]
    calls ends in a table where no live row with precedence secondary is
    referenced by a live row's [linkedId]. *)
Theorem depth_one_preserved (calls : list Call) (tx tx' : Store) :
  uniqueIds (rows tx) -> linksExist (rows tx) -> depthOne (rows tx) ->
  reconcileAll calls tx = Ok tx' ->
  depthOne (rows tx').
Proof.
  revert tx. induction calls as [|call calls IH]; simpl; intros tx Hu He Hd E.
  - inversion E; subst. auto.
  - destruct (reconcile _ _ _ tx) as [[tx1 resp]|] eqn:E1; simpl in E;
      [|discriminate].
    destruct (reconcile_depthOne _ _ _ _ _ _ Hu He Hd E1) as [Hu1 [He1 Hd1]].
    eapply IH; eauto.
Qed.

(* ================================================================== *)
(** * Connected groups *)

Lemma shares_sym (a b : Contact) : shares a b -> shares b a.
Proof.
  intros [[s [E1 E2]]|[s [E1 E2]]]; [left|right]; exists s; auto.
Qed.

Lemma connected_endpoints (rs : list Contact) (a b : Contact) :
  connected rs a b ->
  (In a rs /\ isLive a = true) /\ (In b rs /\ isLive b = true).
Proof.
  induction 1 as [a Ha Hl|a b c Hab IH Hc Hl Hs]; auto.
  destruct IH as [Ha _]. auto.
Qed.

Lemma connected_trans (rs : list Contact) (a b c : Contact) :
  connected rs a b -> connected rs b c -> connected rs a c.
Proof.
  intros Hab Hbc. induction Hbc as [b Hb Hl|b c d Hbc IH Hd Hl Hs]; auto.
  apply (connected_step rs a c d); auto.
Qed.

Lemma shares_merged (rootId : Z) (loserIds : list Z) (now : Z)
  (a b : Contact) :
  shares (merged rootId loserIds now a) (merged rootId loserIds now b) <->
  shares a b.
Proof.
  unfold shares. rewrite !merged_email, !merged_phoneNumber. tauto.
Qed.

(** A merge changes neither who is live nor who shares what: a chain of
    the merged table is a chain of the table before. *)
Lemma connected_merged (rootId : Z) (loserIds : list Z) (now : Z)
  (rs : list Contact) (a' b' : Contact) :
  connected (map (merged rootId loserIds now) rs) a' b' ->
  exists a b, a' = merged rootId loserIds now a /\
              b' = merged rootId loserIds now b /\
              connected rs a b.
Proof.
  induction 1 as [a' Ha Hl|a' b' c' Hab IH Hc Hl Hs].
  - apply in_map_iff in Ha. destruct Ha as [a [<- Ha]].
    rewrite merged_isLive in Hl.
    exists a, a. repeat split. constructor; auto.
  - destruct IH as [a [b [-> [-> Hab']]]].
    apply in_map_iff in Hc. destruct Hc as [c [<- Hc]].
    rewrite merged_isLive in Hl. apply shares_merged in Hs.
    exists a, c. repeat split. apply (connected_step rs a b c); auto.
Qed.

(** Appending a row [n] whose neighbours are already connected to one
    another joins no two groups. *)
Lemma connected_snoc (rs : list Contact) (n a b : Contact) :
  (forall x y, In x rs -> In y rs -> isLive x = true -> isLive y = true ->
               shares x n -> shares n y -> connected rs x y) ->
  In a rs ->
  connected (rs ++ [n]) a b ->
  (In b rs /\ connected rs a b) \/
  (b = n /\ exists x, In x rs /\ isLive x = true /\ shares x n /\
                      connected rs a x).
Proof.
  intros Hbridge Ha H.
  induction H as [a Hin Hl|a b c Hab IH Hc Hl Hs].
  - left. split; auto. constructor; auto.
  - specialize (IH Ha). apply in_app_iff in Hc.
    destruct IH as [[Hb Hab']|[-> [x [Hx [Hlx [Hsx Hax]]]]]].
    + destruct Hc as [Hc|[<-|[]]].
      * left. split; auto. apply (connected_step rs a b c); auto.
      * right. split; auto. exists b. repeat split; auto.
        apply (connected_endpoints _ _ _ Hab').
    + destruct Hc as [Hc|[<-|[]]].
      * left. split; auto. apply (connected_trans rs a x c); auto.
      * right. split; auto. exists x. auto.
Qed.

Lemma connected_snoc_old (rs : list Contact) (n a b : Contact) :
  (forall x y, In x rs -> In y rs -> isLive x = true -> isLive y = true ->
               shares x n -> shares n y -> connected rs x y) ->
  ~ In n rs -> In a rs -> In b rs ->
  connected (rs ++ [n]) a b -> connected rs a b.
Proof.
  intros Hbridge Hn Ha Hb H.
  destruct (connected_snoc _ _ _ _ Hbridge Ha H) as [[_ H']|[-> _]]; auto.
  contradiction.
Qed.

Lemma connected_snoc_isolated (rs : list Contact) (n b : Contact) :
  (forall x, In x rs -> isLive x = true -> ~ shares n x) ->
  connected (rs ++ [n]) n b -> b = n.
Proof.
  intros Hiso H.
  assert (G : forall a, connected (rs ++ [n]) a b -> a = n -> b = n).
  { clear H. intros a H.
    induction H as [a Hin Hl|a b c Hab IH Hc Hl Hs]; auto.
    intros Ea. specialize (IH Ea). subst b. apply in_app_iff in Hc.
    destruct Hc as [Hc|[<-|[]]]; auto.
    exfalso. apply (Hiso c Hc Hl Hs). }
  apply (G n H eq_refl).
Qed.

Lemma uniqueIds_snoc_notin (rs : list Contact) (n : Contact) :
  uniqueIds (rs ++ [n]) -> ~ In n rs.
Proof.
  intros Hu Hin. destruct (uniqueIds_snoc_fresh _ _ Hu) as [_ Hf].
  apply (Hf n Hin eq_refl).
Qed.

(** *** Matches and shared fields *)

Lemma whereMatching_email (email phoneNumber : option string) (x : Contact) :
  normalized email -> email <> None ->
  isLive x = true -> Contact.email x = email ->
  whereMatching email phoneNumber x = true.
Proof.
  intros Hn Hs Hl E. unfold whereMatching, whereOR, orConditions.
  rewrite Hl, (truthy_normalized _ Hn). simpl.
  destruct email as [s|]; [|congruence]. simpl.
  rewrite E, optString_eqb_refl. reflexivity.
Qed.

Lemma whereMatching_phoneNumber (email phoneNumber : option string)
  (x : Contact) :
  normalized phoneNumber -> phoneNumber <> None ->
  isLive x = true -> Contact.phoneNumber x = phoneNumber ->
  whereMatching email phoneNumber x = true.
Proof.
  intros Hn Hs Hl E. unfold whereMatching, whereOR, orConditions.
  rewrite Hl, (truthy_normalized _ Hn). simpl.
  destruct phoneNumber as [s|]; [|congruence].
  destruct (truthy email); simpl;
    rewrite E, optString_eqb_refl, ?orb_true_r; reflexivity.
Qed.

(** A live row that shares a field with the row of the request is a
    match. *)
Lemma shares_whereMatching (email phoneNumber : option string)
  (n x : Contact) :
  normalized email -> normalized phoneNumber ->
  Contact.email n = email -> Contact.phoneNumber n = phoneNumber ->
  isLive x = true -> shares n x ->
  whereMatching email phoneNumber x = true.
Proof.
  intros He Hp Ee Ep Hl [[s [E1 E2]]|[s [E1 E2]]].
  - apply whereMatching_email; congruence.
  - apply whereMatching_phoneNumber; congruence.
Qed.

(* ================================================================== *)
(** * Single primary per connected group *)

(** Under [linksValid], the rows fetched in step 3 are primaries. *)
Lemma primaries_are_primary_valid (email phoneNumber : option string)
  (tx : Store) (ps : list Contact) (q : Contact) :
  uniqueIds (rows tx) -> linksValid (rows tx) ->
  primaries email phoneNumber tx = Ok ps -> In q ps ->
  Contact.linkPrecedence q = primary.
Proof.
  intros Hu Hv Ep Hq.
  apply (primaries_In _ _ _ _ Ep) in Hq.
  destruct Hq as [Hin [Hl [m [Hm Er]]]].
  apply matching_in_rows in Hm. destruct Hm as [Hmin [Hml _]].
  unfold rootIdOf in Er.
  destruct (Contact.linkPrecedence m) eqn:Epm.
  - inversion Er as [Eid].
    rewrite <- (uniqueIds_eq _ _ _ Hu Hmin Hin Eid). auto.
  - destruct (Hv m Hmin Hml Epm) as [d [Hd [Hld [Hpd Ed]]]].
    rewrite Ed in Er. inversion Er as [Eid].
    rewrite <- (uniqueIds_eq _ _ _ Hu Hd Hin Eid). auto.
Qed.

Lemma linksValid_merged (rootPrimary : Contact) (loserIds : list Z) (now : Z)
  (rs : list Contact) :
  In rootPrimary rs -> isLive rootPrimary = true ->
  Contact.linkPrecedence rootPrimary = primary ->
  ~ In (Contact.id rootPrimary) loserIds ->
  linksValid rs ->
  linksValid (map (merged (Contact.id rootPrimary) loserIds now) rs).
Proof.
  intros Hr Hlr Hp Hn Hv c' Hc' Hl Hsec.
  apply in_map_iff in Hc'. destruct Hc' as [c [<- Hc]].
  rewrite merged_isLive in Hl.
  destruct (merged_linkedId (Contact.id rootPrimary) loserIds now c)
    as [E|[E [Hnc Hk]]].
  - exists (merged (Contact.id rootPrimary) loserIds now rootPrimary).
    split; [apply in_map; auto|].
    rewrite merged_isLive, merged_keeps_precedence, merged_id; auto.
  - rewrite E in *.
    destruct (Hv c Hc Hl Hsec) as [d [Hd [Hld [Hpd Ed]]]].
    exists (merged (Contact.id rootPrimary) loserIds now d).
    split; [apply in_map; auto|].
    rewrite merged_isLive, merged_keeps_precedence, merged_id; auto.
Qed.

Lemma linksValid_snoc (rs : list Contact) (n : Contact) :
  linksValid rs ->
  (Contact.linkPrecedence n = secondary ->
   exists d, In d rs /\ isLive d = true /\
             Contact.linkPrecedence d = primary /\
             Contact.linkedId n = Some (Contact.id d)) ->
  linksValid (rs ++ [n]).
Proof.
  intros Hv Hn c Hc Hl Hsec. apply in_app_iff in Hc.
  destruct Hc as [Hc|[<-|[]]].
  - destruct (Hv c Hc Hl Hsec) as [d [Hd H]]. exists d.
    split; auto. apply in_app_iff. auto.
  - destruct (Hn Hsec) as [d [Hd H]]. exists d.
    split; auto. apply in_app_iff. auto.
Qed.

(** Under [linksValid], every match ends in the group of the survivor. *)
Lemma matched_in_group (email phoneNumber : option string) (now : Z)
  (tx : Store) (rootPrimary : Contact) (losers : list Contact) (m : Contact) :
  uniqueIds (rows tx) -> linksValid (rows tx) ->
  primaries email phoneNumber tx = Ok (rootPrimary :: losers) ->
  In m (matchingContacts email phoneNumber tx) ->
  whereGroup (Contact.id rootPrimary)
    (merged (Contact.id rootPrimary) (map Contact.id losers) now m) = true.
Proof.
  intros Hu Hv Ep Hm.
  destruct (matching_in_rows _ _ _ _ Hm) as [Hin [Hl _]].
  apply whereGroup_true. rewrite merged_isLive, merged_id. split; auto.
  destruct (merged_linkedId (Contact.id rootPrimary) (map Contact.id losers)
                            now m) as [E|[E [Hnm Hk]]]; auto.
  rewrite E.
  destruct (Contact.linkPrecedence m) eqn:Epm.
  - left.
    destruct (loser_in_primaries _ _ _ _ _ m Hu Ep Hin Hl) as [->|H]; auto.
    + exists m. split; auto. unfold rootIdOf. rewrite Epm. reflexivity.
    + contradiction.
  - right. destruct (Hv m Hin Hl Epm) as [d [Hd [Hld [Hpd Ed]]]].
    destruct (loser_in_primaries _ _ _ _ _ d Hu Ep Hd Hld) as [->|H]; auto.
    + exists m. split; auto. unfold rootIdOf. rewrite Epm. auto.
    + exfalso. apply (Hk Hl _ Ed H).
Qed.

(** A field that step 5 finds new is the field of no live row. *)
Lemma new_field_unused (email phoneNumber : option string) (now : Z)
  (tx tx1 : Store) (rootPrimary : Contact) (losers : list Contact)
  (field : Contact -> option string) (v : option string) :
  uniqueIds (rows tx) -> linksValid (rows tx) ->
  primaries email phoneNumber tx = Ok (rootPrimary :: losers) ->
  Permutation (rows tx1)
              (map (merged (Contact.id rootPrimary) (map Contact.id losers)
                           now) (rows tx)) ->
  normalized v ->
  (forall x, field (merged (Contact.id rootPrimary) (map Contact.id losers)
                           now x) = field x) ->
  (forall x, isLive x = true -> v <> None -> field x = v ->
             whereMatching email phoneNumber x = true) ->
  hasNew v (filterBoolean
              (map field (findMany (whereGroup (Contact.id rootPrimary)) tx1)))
  = true ->
  forall x, In x (rows tx1) -> isLive x = true -> field x <> v.
Proof.
  intros Hu Hv Ep R Hn Hfield Hmatch Hnew x Hx Hl Ex.
  destruct (hasNew_no_row field _ _ Hn Hnew) as [Hs Hnone].
  apply (Hnone x); auto.
  rewrite R in Hx. apply in_map_iff in Hx. destruct Hx as [x0 [<- Hx0]].
  rewrite merged_isLive in Hl. rewrite Hfield in Ex.
  apply findMany_In. split.
  - rewrite R. apply in_map. auto.
  - eapply matched_in_group; eauto.
    apply findMany_In. split; auto.
Qed.

Lemma attachCondition_new (email phoneNumber : option string)
  (allLinked : list Contact) :
  attachCondition email phoneNumber allLinked = true ->
  hasNewEmail email allLinked = true \/
  hasNewPhone phoneNumber allLinked = true.
Proof.
  unfold attachCondition. intros H. apply andb_true_iff in H.
  destruct H as [H _]. apply orb_true_iff in H. auto.
Qed.

Lemma connected_Permutation (rs rs' : list Contact) (a b : Contact) :
  Permutation rs rs' -> connected rs a b -> connected rs' a b.
Proof.
  intros HP Hc. induction Hc as [a Ha Hl|a b c Hab IH Hc Hl Hs].
  - apply connected_refl; auto. apply (Permutation_in _ HP). exact Ha.
  - apply (connected_step rs' a b c); auto.
    apply (Permutation_in _ HP). exact Hc.
Qed.

Lemma singlePrimary_Permutation (rs rs' : list Contact) :
  Permutation rs rs' -> singlePrimary rs -> singlePrimary rs'.
Proof.
  intros HP Hs a b [Ha Hla] [Hb Hlb] Hc.
  apply Permutation_sym in HP.
  apply Hs.
  - split; auto. apply (Permutation_in _ HP). exact Ha.
  - split; auto. apply (Permutation_in _ HP). exact Hb.
  - apply (connected_Permutation _ _ _ _ HP). exact Hc.
Qed.

#[local] Instance singlePrimary_Proper :
  Proper (@Permutation Contact ==> iff) singlePrimary.
Proof.
  intros rs rs' HP. split; apply singlePrimary_Permutation; auto.
  apply Permutation_sym. exact HP.
Qed.

(** One successful call with a normalized request keeps the primary key,
    [linksValid] and the single primary of every connected group. *)
Lemma reconcile_singlePrimary (email phoneNumber : option string) (now : Z)
  (tx tx' : Store) (resp : IdentifyResponse) :
  normalized email -> normalized phoneNumber ->
  uniqueIds (rows tx) -> linksValid (rows tx) -> singlePrimary (rows tx) ->
  reconcile email phoneNumber now tx = Ok (tx', resp) ->
  uniqueIds (rows tx') /\ linksValid (rows tx') /\ singlePrimary (rows tx').
Proof.
  intros Hne Hnp Hu Hv Hs E.
  assert (Hmerge :
    forall rootPrimary losers tx1,
      primaries email phoneNumber tx = Ok (rootPrimary :: losers) ->
      mergeLoop (Contact.id rootPrimary) losers now tx = Ok tx1 ->
      Permutation (rows tx1)
                  (map (merged (Contact.id rootPrimary)
                               (map Contact.id losers) now) (rows tx)) /\
      uniqueIds (rows tx1) /\ linksValid (rows tx1) /\
      singlePrimary (rows tx1) /\
      exists r1, In r1 (rows tx1) /\ isLive r1 = true /\
                 Contact.id r1 = Contact.id rootPrimary /\
                 Contact.linkPrecedence r1 = primary).
  { intros rootPrimary losers tx1 Ep El.
    destruct (merge_rows _ _ _ _ _ _ _ Hu Ep El) as [R [_ Hn]].
    destruct (primaries_root_in_rows _ _ _ _ rootPrimary Ep) as [Hr Hlr];
      [left; reflexivity|].
    assert (Hp : Contact.linkPrecedence rootPrimary = primary).
    { eapply primaries_are_primary_valid; eauto. left. reflexivity. }
    split; auto. rewrite R. repeat split.
    - unfold uniqueIds. rewrite uniqueIds_map_merged. auto.
    - apply linksValid_merged; auto.
    - intros a' b' [Ha' [Hla Hpa]] [Hb' [Hlb Hpb]] Hc.
      destruct (connected_merged _ _ _ _ _ _ Hc) as [a [b [-> [-> Hab]]]].
      rewrite !merged_id. rewrite merged_isLive in Hla, Hlb.
      apply merged_primary in Hpa, Hpb.
      destruct (connected_endpoints _ _ _ Hab) as [[Ha _] [Hb _]].
      apply Hs; auto; repeat split; tauto.
    - exists (merged (Contact.id rootPrimary) (map Contact.id losers) now
                     rootPrimary).
      rewrite merged_isLive, merged_id, merged_keeps_precedence; auto.
      repeat split; auto. apply (perm_map_In _ _ _ _ R); auto. }
  destruct (reconcile_Ok _ _ _ _ _ _ E)
    as [created Em Ec Er
       |rootPrimary losers tx1 newSecondary Em Ep El Ea Ec Er
       |rootPrimary losers Em Ep El Ea Er].
  - apply create_Ok in Ec. destruct Ec as [Ec [-> Hu']]. simpl.
    assert (Hiso : forall x, In x (rows tx) -> isLive x = true ->
                             ~ shares created x).
    { intros x Hx Hl Hsh.
      assert (Hin : In x (matchingContacts email phoneNumber tx)).
      { apply findMany_In. split; auto.
        apply (shares_whereMatching email phoneNumber created x); auto;
          subst created; reflexivity. }
      rewrite Em in Hin. destruct Hin. }
    pose proof (uniqueIds_snoc_notin _ _ Hu') as Hnot.
    repeat split; auto.
    + apply linksValid_snoc; auto. subst created. simpl. discriminate.
    + intros a b [Ha [Hla Hpa]] [Hb [Hlb Hpb]] Hc.
      apply in_app_iff in Ha. destruct Ha as [Ha|[<-|[]]].
      * assert (Hbridge :
          forall x y, In x (rows tx) -> In y (rows tx) ->
                      isLive x = true -> isLive y = true ->
                      shares x created -> shares created y ->
                      connected (rows tx) x y).
        { intros x y Hx Hy Hlx Hly Hsx Hsy. exfalso.
          apply (Hiso y Hy Hly Hsy). }
        destruct (connected_snoc _ _ _ _ Hbridge Ha Hc)
          as [[Hb' Hab]|[-> [x [Hx [Hlx [Hsx _]]]]]].
        -- apply Hs; auto; repeat split; auto.
        -- exfalso. apply (Hiso x Hx Hlx). apply shares_sym. auto.
      * rewrite (connected_snoc_isolated _ _ _ Hiso Hc). reflexivity.
  - destruct (Hmerge _ _ _ Ep El)
      as [R [Hu1 [Hv1 [Hs1 [r1 [Hr1 [Hlr1 [Eid Hp1]]]]]]]].
    pose proof (attachCondition_new _ _ _ Ea) as Hnew.
    apply create_Ok in Ec. destruct Ec as [Ec [-> Hu']]. simpl.
    pose proof (uniqueIds_snoc_notin _ _ Hu') as Hnot.
    assert (Hbridge :
      forall x y, In x (rows tx1) -> In y (rows tx1) ->
                  isLive x = true -> isLive y = true ->
                  shares x newSecondary -> shares newSecondary y ->
                  connected (rows tx1) x y).
    { intros x y Hx Hy Hlx Hly Hsx Hsy.
      apply (connected_step (rows tx1) x x y); auto;
        [constructor; auto|].
      assert (Een : Contact.email newSecondary = email)
        by (subst newSecondary; reflexivity).
      assert (Epn : Contact.phoneNumber newSecondary = phoneNumber)
        by (subst newSecondary; reflexivity).
      destruct Hnew as [Hnew|Hnew].
      - assert (Hun : forall z, In z (rows tx1) -> isLive z = true ->
                                Contact.email z <> email).
        { apply (new_field_unused email phoneNumber now tx tx1 rootPrimary
                   losers Contact.email email); auto.
          - intros z. apply merged_email.
          - intros z Hlz Hsome Ez. apply whereMatching_email; auto. }
        destruct Hsx as [[s [E1 E2]]|[s [E1 E2]]];
          [exfalso; apply (Hun x Hx Hlx); congruence|].
        destruct Hsy as [[t [E3 E4]]|[t [E3 E4]]];
          [exfalso; apply (Hun y Hy Hly); congruence|].
        right. exists s. split; congruence.
      - assert (Hun : forall z, In z (rows tx1) -> isLive z = true ->
                                Contact.phoneNumber z <> phoneNumber).
        { apply (new_field_unused email phoneNumber now tx tx1 rootPrimary
                   losers Contact.phoneNumber phoneNumber); auto.
          - intros z. apply merged_phoneNumber.
          - intros z Hlz Hsome Ez. apply whereMatching_phoneNumber; auto. }
        destruct Hsx as [[s [E1 E2]]|[s [E1 E2]]];
          [|exfalso; apply (Hun x Hx Hlx); congruence].
        destruct Hsy as [[t [E3 E4]]|[t [E3 E4]]];
          [|exfalso; apply (Hun y Hy Hly); congruence].
        left. exists s. split; congruence. }
    repeat split; auto.
    + apply linksValid_snoc; auto. intros _. exists r1.
      subst newSecondary. simpl. repeat split; auto. congruence.
    + intros a b [Ha [Hla Hpa]] [Hb [Hlb Hpb]] Hc.
      assert (Hold : forall z, In z (rows tx1 ++ [newSecondary]) ->
                               Contact.linkPrecedence z = primary ->
                               In z (rows tx1)).
      { intros z Hz Hpz. apply in_app_iff in Hz.
        destruct Hz as [Hz|[<-|[]]]; auto.
        subst newSecondary. simpl in Hpz. discriminate. }
      apply Hs1; try (repeat split; auto).
      apply (connected_snoc_old _ newSecondary); auto.
  - destruct (Hmerge _ _ _ Ep El) as [_ [Hu1 [Hv1 [Hs1 _]]]]. auto.
Qed.

(** C1 (as amended).  Starting from a table that satisfies the primary
    key, in which every live secondary is linked to a live primary and
    every connected group of live rows has at most one primary, every
    sequence of successful [reconcile] calls with normalized requests ends
    in a table where ids are still unique, every live secondary is still
    linked to a live primary, and every connected group of live rows (the
    transitive closure of "shares email or shares phone") has at most one
    live row with precedence primary. *)
Theorem single_primary_preserved (calls : list Call) (tx tx' : Store) :
  Forall normalizedCall calls ->
  uniqueIds (rows tx) -> linksValid (rows tx) -> singlePrimary (rows tx) ->
  reconcileAll calls tx = Ok tx' ->
  uniqueIds (rows tx') /\ linksValid (rows tx') /\ singlePrimary (rows tx').
Proof.
  revert tx.
  induction calls as [|call calls IH]; simpl; intros tx Hn Hu Hv Hs E.
  - inversion E; subst. auto.
  - destruct (reconcile _ _ _ tx) as [[tx1 resp]|] eqn:E1; simpl in E;
      [|discriminate].
    inversion Hn as [|? ? [Hne Hnp] Hn']; subst.
    destruct (reconcile_singlePrimary _ _ _ _ _ _ Hne Hnp Hu Hv Hs E1)
      as [Hu1 [Hv1 Hs1]].
    eapply IH; eauto.
Qed.

Lemma normalizedCall_mergeCalls : Forall normalizedCall Examples.mergeCalls.
Proof. repeat constructor; discriminate. Qed.

Lemma single_primary_preserved_witness :
  singlePrimary (rows Examples.afterMerge).
Proof.
  apply (single_primary_preserved Examples.mergeCalls Examples.emptyStore
           Examples.afterMerge).
  - apply normalizedCall_mergeCalls.
  - constructor.
  - intros c [].
  - intros a b [[] _].
  - vm_compute. reflexivity.
Defined.

Lemma depth_one_preserved_witness : depthOne (rows Examples.afterMerge).
Proof.
  apply (depth_one_preserved Examples.mergeCalls Examples.emptyStore
           Examples.afterMerge).
  - constructor.
  - intros c k [].
  - intros c d [].
  - vm_compute. reflexivity.
Defined.

(** C1 (as stated) fails: after the merge of two primaries the demoted
    row shares neither its email nor its phone with any other live row, so
    that its connected group has no primary at all. *)
Lemma exactly_one_primary_counterexample :
  exactlyOnePrimary (rows Examples.emptyStore) /\
  Forall normalizedCall Examples.mergeCalls /\
  reconcileAll Examples.mergeCalls Examples.emptyStore
  = Ok Examples.afterMerge /\
  ~ exactlyOnePrimary (rows Examples.afterMerge).
Proof.
  split; [intros c []|]. split; [apply normalizedCall_mergeCalls|].
  split; [vm_compute; reflexivity|].
  intros H.
  destruct (H Examples.biff) as [a [[_ [_ Hp]] [Hc _]]];
    [simpl; auto | reflexivity |].
  assert (G : forall x y, connected (rows Examples.afterMerge) x y ->
                          x = Examples.biff -> y = Examples.biff).
  { clear. intros x y Hc.
    induction Hc as [x Hin Hl|x y z Hxy IH Hz Hl Hs]; auto.
    intros Ex. specialize (IH Ex). subst y.
    destruct Hz as [<-|[<-|[]]]; auto.
    exfalso. destruct Hs as [[s [E1 E2]]|[s [E1 E2]]];
      simpl in E1, E2; congruence. }
  rewrite (G _ _ Hc eq_refl) in Hp. discriminate.
Qed.

(* ================================================================== *)
(** * Idempotence *)

Lemma buildResponse_ext (a b : Contact) (secondaries : list Contact) :
  Contact.id a = Contact.id b ->
  Contact.email a = Contact.email b ->
  Contact.phoneNumber a = Contact.phoneNumber b ->
  buildResponse a secondaries = buildResponse b secondaries.
Proof. unfold buildResponse. intros -> -> ->. reflexivity. Qed.

Lemma filter_nil_all (w : Contact -> bool) (l : list Contact) :
  (forall x, In x l -> w x = false) -> filter w l = [].
Proof.
  induction l as [|c l IH]; simpl; intros H; auto.
  rewrite (H c) by auto. apply IH. auto.
Qed.

(** A query that only the row of a given id satisfies returns that row. *)
Lemma filter_single (w : Contact -> bool) (rs : list Contact) (r : Contact) :
  uniqueIds rs -> In r rs -> w r = true ->
  (forall x, In x rs -> w x = true -> Contact.id x = Contact.id r) ->
  filter w rs = [r].
Proof.
  unfold uniqueIds. induction rs as [|c rs IH]; simpl; intros Hu Hr Hw Hx.
  - destruct Hr.
  - inversion Hu as [|? ? Hnotin Hu']; subst.
    destruct (w c) eqn:Ewc.
    + assert (c = r).
      { apply (uniqueIds_eq (c :: rs)); simpl; auto. }
      subst c. f_equal. apply filter_nil_all. intros x Hin.
      destruct (w x) eqn:Ewx; auto. exfalso. apply Hnotin.
      rewrite <- (Hx x (or_intror Hin) Ewx). apply in_map. auto.
    + destruct Hr as [->|Hr]; [congruence|]. apply IH; auto.
Qed.

Lemma findMany_single (w : Contact -> bool) (tx : Store) (r : Contact) :
  uniqueIds (rows tx) -> In r (rows tx) -> w r = true ->
  (forall x, In x (rows tx) -> w x = true -> Contact.id x = Contact.id r) ->
  findMany w tx = [r].
Proof.
  intros Hu Hr Hw Hx. unfold findMany.
  rewrite (filter_single w (rows tx) r); auto.
Qed.


(** A call that finds one root primary and nothing to attach returns the
    table as it is. *)
Lemma reconcile_settled (email phoneNumber : option string) (now : Z)
  (tx : Store) (rootPrimary : Contact) :
  matchingContacts email phoneNumber tx <> [] ->
  primaries email phoneNumber tx = Ok [rootPrimary] ->
  attachCondition email phoneNumber
    (findMany (whereGroup (Contact.id rootPrimary)) tx) = false ->
  reconcile email phoneNumber now tx
  = Ok (tx, buildResponse rootPrimary
              (secondariesOf (Contact.id rootPrimary)
                 (findMany (whereGroup (Contact.id rootPrimary)) tx))).
Proof.
  intros Hm Ep Ea. unfold reconcile.
  destruct (matchingContacts email phoneNumber tx) as [|m ms];
    [contradiction|].
  rewrite Ep. simpl. rewrite Ea. reflexivity.
Qed.




Section SecondCall.
Variables (email phoneNumber : option string) (now : Z).
Variables (tx tx1 tx' : Store) (rootPrimary : Contact).
Variables (losers extra : list Contact).

Let rootId : Z := Contact.id rootPrimary.
Let settle : Contact -> Contact :=
  merged (Contact.id rootPrimary) (map Contact.id losers) now.

Hypothesis Hu : uniqueIds (rows tx).
Hypothesis He : linksExist (rows tx).
Hypothesis Ep : primaries email phoneNumber tx = Ok (rootPrimary :: losers).
Hypothesis R : Permutation (rows tx1) (map settle (rows tx)).
Hypothesis R' : rows tx' = rows tx1 ++ extra.
Hypothesis Hu' : uniqueIds (rows tx').
Hypothesis Hextra : forall n, In n extra -> rootIdOf n = Some rootId.
Hypothesis Hfresh :
  forall n c, In n extra -> In c (rows tx) -> Contact.id c <> Contact.id n.







End SecondCall.







(* ================================================================== *)
(** * The order of the scan *)

(** The properties of a table used below are stated on its rows as a set:
    they hold of a table and of any reordering of it alike. *)
Lemma seniority_Permutation (rs rs' : list Contact) :
  Permutation rs rs' -> seniority rs -> seniority rs'.
Proof.
  intros HP H c d Hc Hd.
  apply H; apply (Permutation_in _ (Permutation_sym HP)); assumption.
Qed.

Lemma notAfter_Permutation (now : Z) (rs rs' : list Contact) :
  Permutation rs rs' -> notAfter now rs -> notAfter now rs'.
Proof.
  intros HP H c Hc.
  apply H; apply (Permutation_in _ (Permutation_sym HP)); assumption.
Qed.

Lemma allLive_Permutation (rs rs' : list Contact) :
  Permutation rs rs' -> allLive rs -> allLive rs'.
Proof.
  intros HP H c Hc.
  apply H; apply (Permutation_in _ (Permutation_sym HP)); assumption.
Qed.

Lemma idsBelow_Permutation (n : Z) (rs rs' : list Contact) :
  Permutation rs rs' -> idsBelow n rs -> idsBelow n rs'.
Proof.
  intros HP H c Hc.
  apply H; apply (Permutation_in _ (Permutation_sym HP)); assumption.
Qed.

Lemma pairsUnique_Permutation (rs rs' : list Contact) :
  Permutation rs rs' -> pairsUnique rs -> pairsUnique rs'.
Proof.
  intros HP H a b e p Ha Hb.
  apply H; apply (Permutation_in _ (Permutation_sym HP)); assumption.
Qed.

Lemma groupsClosed_Permutation (rs rs' : list Contact) :
  Permutation rs rs' -> groupsClosed rs -> groupsClosed rs'.
Proof.
  intros HP H a b Ha Hb.
  apply H; apply (Permutation_in _ (Permutation_sym HP)); assumption.
Qed.

#[local] Instance seniority_Proper :
  Proper (@Permutation Contact ==> iff) seniority.
Proof.
  intros rs rs' HP. split; apply seniority_Permutation; auto.
  apply Permutation_sym. exact HP.
Qed.

#[local] Instance notAfter_Proper (now : Z) :
  Proper (@Permutation Contact ==> iff) (notAfter now).
Proof.
  intros rs rs' HP. split; apply notAfter_Permutation; auto.
  apply Permutation_sym. exact HP.
Qed.

#[local] Instance allLive_Proper :
  Proper (@Permutation Contact ==> iff) allLive.
Proof.
  intros rs rs' HP. split; apply allLive_Permutation; auto.
  apply Permutation_sym. exact HP.
Qed.

#[local] Instance idsBelow_Proper (n : Z) :
  Proper (@Permutation Contact ==> iff) (idsBelow n).
Proof.
  intros rs rs' HP. split; apply idsBelow_Permutation; auto.
  apply Permutation_sym. exact HP.
Qed.

#[local] Instance pairsUnique_Proper :
  Proper (@Permutation Contact ==> iff) pairsUnique.
Proof.
  intros rs rs' HP. split; apply pairsUnique_Permutation; auto.
  apply Permutation_sym. exact HP.
Qed.

#[local] Instance groupsClosed_Proper :
  Proper (@Permutation Contact ==> iff) groupsClosed.
Proof.
  intros rs rs' HP. split; apply groupsClosed_Permutation; auto.
  apply Permutation_sym. exact HP.
Qed.


(* ================================================================== *)
(** * What a call leaves untouched *)

Lemma keepsRow_refl (rootId : Z) (c : Contact) : keepsRow rootId c c.
Proof. unfold keepsRow. tauto. Qed.


Lemma keepsRow_demote (rootId now : Z) (c : Contact) :
  keepsRow rootId c (demote rootId now c).
Proof. unfold keepsRow. simpl. repeat split; auto. discriminate. Qed.

Lemma keepsRow_relink (rootId now : Z) (c : Contact) :
  keepsRow rootId c (relink rootId now c).
Proof. unfold keepsRow. simpl. repeat split; auto. Qed.









(* ================================================================== *)
(** * The payload and the table after the call *)

Lemma group_rows (rootId : Z) (tx : Store) (c : Contact) :
  In c (findMany (whereGroup rootId) tx) <->
  In c (rows tx) /\ inGroup rootId c.
Proof. rewrite findMany_In, whereGroup_true. unfold inGroup. tauto. Qed.

Lemma secondariesOf_In (rootId : Z) (allLinked : list Contact) (c : Contact) :
  In c (secondariesOf rootId allLinked) <->
  In c allLinked /\ Contact.id c <> rootId.
Proof.
  unfold secondariesOf. rewrite filter_In, negb_true_iff, Z.eqb_neq. tauto.
Qed.

Lemma payload_emails_In (r : Contact) (secs : list Contact) (s : string) :
  In s (emails (contact (buildResponse r secs))) <->
  s <> "" /\ exists c, In c (r :: secs) /\ Contact.email c = Some s.
Proof. apply (buildResponse_field Contact.email r secs). Qed.

Lemma payload_phoneNumbers_In (r : Contact) (secs : list Contact)
  (s : string) :
  In s (phoneNumbers (contact (buildResponse r secs))) <->
  s <> "" /\ exists c, In c (r :: secs) /\ Contact.phoneNumber c = Some s.
Proof. apply (buildResponse_field Contact.phoneNumber r secs). Qed.

Lemma uniqueIds_app_fresh (rs : list Contact) (n : Contact) :
  uniqueIds rs -> (forall c, In c rs -> Contact.id c <> Contact.id n) ->
  uniqueIds (rs ++ [n]).
Proof.
  unfold uniqueIds. intros Hu Hf. rewrite map_app. simpl.
  apply NoDup_app; auto.
  - repeat constructor. intros [].
  - intros i Hi [<-|[]]. apply in_map_iff in Hi.
    destruct Hi as [c [E Hc]]. apply (Hf c Hc E).
Qed.

(** The shape of the payload of a successful call, in terms of the table
    the call leaves: it is built from a live row [r] of that table and from
    the other live rows of the group of [r]. *)
Lemma reconcile_payload (email phoneNumber : option string) (now : Z)
  (tx tx' : Store) (resp : IdentifyResponse) :
  uniqueIds (rows tx) -> linksExist (rows tx) ->
  reconcile email phoneNumber now tx = Ok (tx', resp) ->
  exists r secs,
    resp = buildResponse r secs /\
    In r (rows tx') /\ isLive r = true /\
    uniqueIds (rows tx') /\
    (forall c, In c secs <->
               In c (rows tx') /\ inGroup (Contact.id r) c /\
               Contact.id c <> Contact.id r) /\
    NoDup (map Contact.id secs).
Proof.
  intros Hu He E.
  destruct (reconcile_Ok _ _ _ _ _ _ E)
    as [created Em Ec Er
       |rootPrimary losers txm n Em Ep El Ea Ec Er
       |rootPrimary losers Em Ep El Ea Er].
  - apply create_Ok in Ec. destruct Ec as [Ec [-> Hu']]. simpl.
    destruct (uniqueIds_snoc_fresh _ _ Hu') as [_ Hfresh].
    exists created, [].
    split; [exact Er|]. split; [apply in_app_iff; right; left; reflexivity|].
    split; [subst created; reflexivity|]. split; [exact Hu'|].
    split; [|constructor].
    intros c. split; [intros []|].
    intros [Hc [[_ [Hid|Hl]] Hne]]; [contradiction|].
    apply in_app_iff in Hc. destruct Hc as [Hc|[<-|[]]]; [|congruence].
    destruct (He c _ Hc Hl) as [d [Hd Ed]]. apply (Hfresh d Hd Ed).
  - destruct (merge_rows _ _ _ _ _ _ _ Hu Ep El) as [R [_ Hn]].
    destruct (primaries_root_in_rows _ _ _ _ rootPrimary Ep) as [Hr Hlr];
      [left; reflexivity|].
    apply create_Ok in Ec. destruct Ec as [Ec [-> Hu']]. simpl.
    destruct (uniqueIds_snoc_fresh _ _ Hu') as [Hum Hfresh].
    set (settle := merged (Contact.id rootPrimary) (map Contact.id losers)
                          now) in *.
    assert (Hsr : In (settle rootPrimary) (rows txm))
      by (rewrite R; apply in_map; auto).
    assert (Hng : inGroup (Contact.id rootPrimary) n).
    { subst n. unfold inGroup. simpl. auto. }
    assert (Eid : Contact.id (settle rootPrimary) = Contact.id rootPrimary)
      by apply merged_id.
    exists (settle rootPrimary),
           (secondariesOf (Contact.id rootPrimary)
              (findMany (whereGroup (Contact.id rootPrimary)) txm ++ [n])).
    rewrite Eid.
    split.
    { subst resp. apply buildResponse_ext; unfold settle;
        rewrite ?merged_id, ?merged_email, ?merged_phoneNumber; reflexivity. }
    split; [apply in_app_iff; auto|].
    split; [unfold settle; rewrite merged_isLive; auto|].
    split; [exact Hu'|]. split.
    + intros c. rewrite secondariesOf_In, !in_app_iff, group_rows. simpl.
      split.
      * intros [[[Hc Hg]|[<-|[]]] Hne]; auto.
      * intros [[Hc|[<-|[]]] [Hg Hne]]; auto.
    + unfold secondariesOf. apply filter_uniqueIds.
      apply uniqueIds_app_fresh.
      * apply findMany_uniqueIds. auto.
      * intros c Hc. apply group_rows in Hc. apply Hfresh. tauto.
  - destruct (merge_rows _ _ _ _ _ _ _ Hu Ep El) as [R [_ Hn]].
    destruct (primaries_root_in_rows _ _ _ _ rootPrimary Ep) as [Hr Hlr];
      [left; reflexivity|].
    set (settle := merged (Contact.id rootPrimary) (map Contact.id losers)
                          now) in *.
    assert (Hu' : uniqueIds (rows tx')).
    { rewrite R. unfold uniqueIds, settle.
      rewrite uniqueIds_map_merged. auto. }
    assert (Eid : Contact.id (settle rootPrimary) = Contact.id rootPrimary)
      by apply merged_id.
    exists (settle rootPrimary),
           (secondariesOf (Contact.id rootPrimary)
              (findMany (whereGroup (Contact.id rootPrimary)) tx')).
    rewrite Eid.
    split.
    { subst resp. apply buildResponse_ext; unfold settle;
        rewrite ?merged_id, ?merged_email, ?merged_phoneNumber; reflexivity. }
    split; [rewrite R; apply in_map; auto|].
    split; [unfold settle; rewrite merged_isLive; auto|].
    split; [exact Hu'|]. split.
    + intros c. rewrite secondariesOf_In, group_rows. tauto.
    + unfold secondariesOf. apply filter_uniqueIds.
      apply findMany_uniqueIds. auto.
Qed.

(** X2.  The payload of a successful call is the consolidated view of one
    group of the table the call leaves (primary key and foreign key
    assumed of the table before): [primaryContactId] is the id of a live
    row; [secondaryContactIds] lists, without repetition, exactly the ids
    of the other live rows linked to it; [emails] and [phoneNumbers] hold
    exactly the non-empty emails and phones of these rows. *)
Theorem payload_is_group (email phoneNumber : option string) (now : Z)
  (tx tx' : Store) (resp : IdentifyResponse) :
  uniqueIds (rows tx) -> linksExist (rows tx) ->
  reconcile email phoneNumber now tx = Ok (tx', resp) ->
  (exists r, In r (rows tx') /\ isLive r = true /\
             Contact.id r = primaryContactId (contact resp)) /\
  (forall i, In i (secondaryContactIds (contact resp)) <->
             i <> primaryContactId (contact resp) /\
             exists c, In c (rows tx') /\
                       inGroup (primaryContactId (contact resp)) c /\
                       Contact.id c = i) /\
  NoDup (secondaryContactIds (contact resp)) /\
  (forall s, In s (emails (contact resp)) <->
             s <> "" /\
             exists c, In c (rows tx') /\
                       inGroup (primaryContactId (contact resp)) c /\
                       Contact.email c = Some s) /\
  (forall s, In s (phoneNumbers (contact resp)) <->
             s <> "" /\
             exists c, In c (rows tx') /\
                       inGroup (primaryContactId (contact resp)) c /\
                       Contact.phoneNumber c = Some s).
Proof.
  intros Hu He E.
  destruct (reconcile_payload _ _ _ _ _ _ Hu He E)
    as [r [secs [-> [Hr [Hl [Hu' [Hsecs Hnd]]]]]]].
  assert (Hgroup : forall c, In c (r :: secs) <->
                             In c (rows tx') /\ inGroup (Contact.id r) c).
  { intros c. simpl. rewrite Hsecs. split.
    - intros [<-|H]; [|tauto]. unfold inGroup. auto.
    - intros [Hc Hg].
      destruct (Z.eq_dec (Contact.id c) (Contact.id r)) as [Eq|Ne]; auto.
      left. apply (uniqueIds_eq (rows tx')); auto. }
  change (primaryContactId (contact (buildResponse r secs)))
    with (Contact.id r).
  change (secondaryContactIds (contact (buildResponse r secs)))
    with (map Contact.id secs).
  split; [exists r; auto|]. split; [|split; [exact Hnd|split]].
  - intros i. rewrite in_map_iff. split.
    + intros [c [Ei Hc]]. apply Hsecs in Hc. destruct Hc as [Hc [Hg Hne]].
      split; [congruence|]. exists c. auto.
    + intros [Hne [c [Hc [Hg Ei]]]]. exists c. split; auto.
      apply Hsecs. repeat split; auto; try apply Hg. congruence.
  - intros s. rewrite payload_emails_In. split.
    + intros [Hs [c [Hc Ec]]]. split; auto. apply Hgroup in Hc.
      exists c. tauto.
    + intros [Hs [c [Hc [Hg Ec]]]]. split; auto. exists c.
      split; auto. apply Hgroup. auto.
  - intros s. rewrite payload_phoneNumbers_In. split.
    + intros [Hs [c [Hc Ec]]]. split; auto. apply Hgroup in Hc.
      exists c. tauto.
    + intros [Hs [c [Hc [Hg Ec]]]]. split; auto. exists c.
      split; auto. apply Hgroup. auto.
Qed.

Lemma payload_is_group_witness :
  NoDup (secondaryContactIds (contact Examples.docMartyPayload)).
Proof.
  apply (payload_is_group (Some "marty@hv.edu") (Some "555-0100") 11
           Examples.docOnly Examples.docMarty Examples.docMartyPayload).
  - repeat constructor. simpl. tauto.
  - intros c k [<-|[]]. simpl. discriminate.
  - vm_compute. reflexivity.
Defined.

(* ================================================================== *)
(** * The payload and the request *)

Lemma not_attached_known (field : Contact -> option string)
  (v : option string) (allLinked : list Contact) (s : string) :
  (hasNew v (filterBoolean (map field allLinked)) = false \/
   exists c, In c allLinked /\ (isNull v || optString_eqb (field c) v) = true)
  ->
  v = Some s -> s <> "" ->
  exists c, In c allLinked /\ field c = Some s.
Proof.
  intros H -> Hs. destruct H as [H|[c [Hc H]]].
  - unfold hasNew in H. apply negb_false_iff, includes_In in H.
    apply existing_In in H. tauto.
  - simpl in H. apply optString_eqb_eq in H. eauto.
Qed.

Lemma attachCondition_false (email phoneNumber : option string)
  (allLinked : list Contact) :
  attachCondition email phoneNumber allLinked = false ->
  (hasNewEmail email allLinked = false /\
   hasNewPhone phoneNumber allLinked = false) \/
  exists c, In c allLinked /\
            (isNull email || optString_eqb (Contact.email c) email) = true /\
            (isNull phoneNumber
             || optString_eqb (Contact.phoneNumber c) phoneNumber) = true.
Proof.
  unfold attachCondition. intros H. apply andb_false_iff in H.
  destruct H as [H|H].
  - left. apply orb_false_iff in H. auto.
  - right. apply negb_false_iff in H. unfold exactDuplicate in H.
    apply existsb_exists in H. destruct H as [c [Hc H]].
    apply andb_true_iff in H. exists c. tauto.
Qed.



(* ================================================================== *)
(** * The matches and the group returned *)

(** When every live secondary is linked to a live primary, every live row
    that the request matches ends in the group named in the payload. *)
Lemma matches_collected (email phoneNumber : option string) (now : Z)
  (tx tx' : Store) (resp : IdentifyResponse) :
  uniqueIds (rows tx) -> linksValid (rows tx) ->
  reconcile email phoneNumber now tx = Ok (tx', resp) ->
  (exists r, In r (rows tx') /\ isLive r = true /\
             Contact.linkPrecedence r = primary /\
             Contact.id r = primaryContactId (contact resp)) /\
  forall x, In x (rows tx') -> isLive x = true ->
            whereMatching email phoneNumber x = true ->
            Contact.id x = primaryContactId (contact resp) \/
            In (Contact.id x) (secondaryContactIds (contact resp)).
Proof.
  intros Hu Hv E.
  assert (Hmerged :
    forall rootPrimary losers txm,
      primaries email phoneNumber tx = Ok (rootPrimary :: losers) ->
      mergeLoop (Contact.id rootPrimary) losers now tx = Ok txm ->
      (exists r, In r (rows txm) /\ isLive r = true /\
                 Contact.linkPrecedence r = primary /\
                 Contact.id r = Contact.id rootPrimary) /\
      forall x, In x (rows txm) -> isLive x = true ->
                whereMatching email phoneNumber x = true ->
                In x (findMany (whereGroup (Contact.id rootPrimary)) txm)).
  { intros rootPrimary losers txm Ep El.
    destruct (merge_rows _ _ _ _ _ _ _ Hu Ep El) as [R [_ Hn]].
    destruct (primaries_root_in_rows _ _ _ _ rootPrimary Ep) as [Hr Hlr];
      [left; reflexivity|].
    split.
    - exists (merged (Contact.id rootPrimary) (map Contact.id losers) now
                     rootPrimary).
      rewrite R, merged_isLive, merged_id, merged_keeps_precedence; auto.
      repeat split; auto.
      + apply in_map. auto.
      + eapply primaries_are_primary_valid; eauto. left. reflexivity.
    - intros x Hx Hl Hw. apply findMany_In. split; auto.
      rewrite R in Hx. apply in_map_iff in Hx. destruct Hx as [x0 [<- Hx0]].
      rewrite merged_isLive in Hl. rewrite whereMatching_merged in Hw.
      eapply matched_in_group; eauto. apply findMany_In. auto. }
  destruct (reconcile_Ok _ _ _ _ _ _ E)
    as [created Em Ec Er
       |rootPrimary losers txm n Em Ep El Ea Ec Er
       |rootPrimary losers Em Ep El Ea Er].
  - apply create_Ok in Ec. destruct Ec as [Ec [-> _]]. subst resp. simpl.
    split.
    + exists created. split; [apply in_app_iff; right; left; reflexivity|].
      subst created. auto.
    + intros x Hx Hl Hw. apply in_app_iff in Hx.
      destruct Hx as [Hx|[<-|[]]]; auto.
      exfalso.
      assert (H : In x (matchingContacts email phoneNumber tx))
        by (apply findMany_In; auto).
      rewrite Em in H. destruct H.
  - destruct (Hmerged _ _ _ Ep El) as [[r [Hr [Hlr [Hpr Eid]]]] Hall].
    apply create_Ok in Ec. destruct Ec as [Ec [-> Hu']]. subst resp. simpl.
    destruct (uniqueIds_snoc_fresh _ _ Hu') as [_ Hfresh].
    split.
    + exists r. repeat split; auto. apply in_app_iff. auto.
    + intros x Hx Hl Hw.
      destruct (Z.eq_dec (Contact.id x) (Contact.id rootPrimary)); auto.
      right. apply in_map. apply secondariesOf_In. split; auto.
      apply in_app_iff in Hx. apply in_app_iff.
      destruct Hx as [Hx|Hx]; auto.
  - destruct (Hmerged _ _ _ Ep El) as [Hroot Hall]. subst resp. simpl.
    split; auto.
    intros x Hx Hl Hw.
    destruct (Z.eq_dec (Contact.id x) (Contact.id rootPrimary)); auto.
    right. apply in_map. apply secondariesOf_In. split; auto.
Qed.

(** X4.  On a table with unique ids where every live secondary is linked
    to a live primary, a successful call gathers every match: the payload
    names a live primary row of the table the call leaves, and every live
    row of that table whose email or phone the request matches has its id
    in the payload, as [primaryContactId] or in [secondaryContactIds]. *)
Theorem payload_covers_matches (email phoneNumber : option string) (now : Z)
  (tx tx' : Store) (resp : IdentifyResponse) :
  uniqueIds (rows tx) -> linksValid (rows tx) ->
  reconcile email phoneNumber now tx = Ok (tx', resp) ->
  (exists r, In r (rows tx') /\ isLive r = true /\
             Contact.linkPrecedence r = primary /\
             Contact.id r = primaryContactId (contact resp)) /\
  forall x, In x (rows tx') -> isLive x = true ->
            (email <> None /\ email <> Some "" /\ Contact.email x = email) \/
            (phoneNumber <> None /\ phoneNumber <> Some "" /\
             Contact.phoneNumber x = phoneNumber) ->
            Contact.id x = primaryContactId (contact resp) \/
            In (Contact.id x) (secondaryContactIds (contact resp)).
Proof.
  intros Hu Hv E.
  destruct (matches_collected _ _ _ _ _ _ Hu Hv E) as [Hroot Hall].
  split; auto. intros x Hx Hl Hm. apply Hall; auto.
  destruct Hm as [[Hs [Hn Ex]]|[Hs [Hn Ex]]].
  - apply whereMatching_email; auto.
  - apply whereMatching_phoneNumber; auto.
Qed.

Lemma uniqueIds_twoPrimaries : uniqueIds (rows MoreExamples.twoPrimaries).
Proof. repeat constructor; simpl; intuition discriminate. Qed.

Lemma linksValid_twoPrimaries : linksValid (rows MoreExamples.twoPrimaries).
Proof. intros c [<-|[<-|[]]] _ H; discriminate. Qed.

Lemma payload_covers_matches_witness :
  exists r, In r (rows Examples.afterMerge) /\ isLive r = true /\
            Contact.linkPrecedence r = primary /\
            Contact.id r
            = primaryContactId (contact MoreExamples.mergedPayload).
Proof.
  apply (payload_covers_matches (Some "george@hv.edu") (Some "717171") 30
           MoreExamples.twoPrimaries Examples.afterMerge).
  - apply uniqueIds_twoPrimaries.
  - apply linksValid_twoPrimaries.
  - vm_compute. reflexivity.
Defined.

(** X5.  The call that carries no usable field (both fields null or
    empty): the [OR] filter is then left undefined and every live row is a
    match.  On a table with unique ids where every live secondary is linked
    to a live primary, a successful call of that kind leaves every live row
    of the table in the one group that the payload names. *)
Theorem no_field_gathers_all (email phoneNumber : option string) (now : Z)
  (tx tx' : Store) (resp : IdentifyResponse) :
  truthy email = false -> truthy phoneNumber = false ->
  uniqueIds (rows tx) -> linksValid (rows tx) ->
  reconcile email phoneNumber now tx = Ok (tx', resp) ->
  forall x, In x (rows tx') -> isLive x = true ->
            Contact.id x = primaryContactId (contact resp) \/
            In (Contact.id x) (secondaryContactIds (contact resp)).
Proof.
  intros He Hp Hu Hv E x Hx Hl.
  destruct (matches_collected _ _ _ _ _ _ Hu Hv E) as [_ Hall].
  apply Hall; auto.
  unfold whereMatching, whereOR, orConditions. rewrite Hl, He, Hp.
  reflexivity.
Qed.

Lemma no_field_gathers_all_witness :
  Contact.id Examples.biff
  = primaryContactId (contact MoreExamples.mergedPayload) \/
  In (Contact.id Examples.biff)
     (secondaryContactIds (contact MoreExamples.mergedPayload)).
Proof.
  apply (no_field_gathers_all None None 30 MoreExamples.twoPrimaries
           Examples.afterMerge MoreExamples.mergedPayload).
  - reflexivity.
  - reflexivity.
  - apply uniqueIds_twoPrimaries.
  - apply linksValid_twoPrimaries.
  - vm_compute. reflexivity.
  - simpl. auto.
  - reflexivity.
Defined.

(* ================================================================== *)
(** * Seniority *)

Lemma survivor_oldest (email phoneNumber : option string) (tx : Store)
  (rootPrimary : Contact) (losers : list Contact) (q : Contact) :
  primaries email phoneNumber tx = Ok (rootPrimary :: losers) ->
  In q losers ->
  Contact.createdAt rootPrimary <= Contact.createdAt q.
Proof.
  intros E Hq. pose proof (primaries_sorted _ _ _ _ E) as Hs.
  apply Sorted_StronglySorted in Hs; [|apply createdAtLe_trans].
  inversion Hs as [|? ? _ Hall]; subst.
  rewrite Forall_forall in Hall. apply Hall. auto.
Qed.

Lemma loser_of_id (email phoneNumber : option string) (tx : Store)
  (rootPrimary : Contact) (losers : list Contact) (k : Z) :
  primaries email phoneNumber tx = Ok (rootPrimary :: losers) ->
  In k (map Contact.id losers) ->
  exists l, In l losers /\ Contact.id l = k /\
            In l (rows tx) /\ isLive l = true.
Proof.
  intros Ep Hk. apply in_map_iff in Hk. destruct Hk as [l [El Hl]].
  exists l. repeat split; auto;
    apply (primaries_root_in_rows _ _ _ _ l Ep); right; auto.
Qed.

(** Demoting the losers and re-linking their children to the oldest root
    keeps seniority. *)
Lemma seniority_merged (email phoneNumber : option string) (now : Z)
  (tx : Store) (rootPrimary : Contact) (losers : list Contact) :
  uniqueIds (rows tx) -> seniority (rows tx) ->
  primaries email phoneNumber tx = Ok (rootPrimary :: losers) ->
  seniority (map (merged (Contact.id rootPrimary) (map Contact.id losers)
                         now) (rows tx)).
Proof.
  intros Hu Hs Ep c' d' Hc' Hd' Hlc Hld Ek.
  destruct (primaries_root_in_rows _ _ _ _ rootPrimary Ep) as [Hr Hlr];
    [left; reflexivity|].
  apply in_map_iff in Hc'. destruct Hc' as [c [<- Hc]].
  apply in_map_iff in Hd'. destruct Hd' as [d [<- Hd]].
  rewrite merged_isLive in Hlc, Hld. rewrite merged_id in Ek.
  rewrite !merged_createdAt.
  destruct (merged_cases (Contact.id rootPrimary) (map Contact.id losers)
                         now c)
    as [[Hin Em]|[[Hn [_ [[k [Elk Hk]] Em]]]|[Hn [Hk Em]]]];
    rewrite Em in Ek.
  - simpl in Ek. inversion Ek as [Eid].
    assert (d = rootPrimary) by (apply (uniqueIds_eq (rows tx)); auto).
    subst d.
    destruct (loser_of_id _ _ _ _ _ _ Ep Hin) as [l [Hl [El [Hlin _]]]].
    assert (l = c) by (apply (uniqueIds_eq (rows tx)); auto).
    subst l. eapply survivor_oldest; eauto.
  - simpl in Ek. inversion Ek as [Eid].
    assert (d = rootPrimary) by (apply (uniqueIds_eq (rows tx)); auto).
    subst d.
    destruct (loser_of_id _ _ _ _ _ _ Ep Hk) as [l [Hl [El [Hlin Hll]]]].
    apply Z.le_trans with (Contact.createdAt l).
    + eapply survivor_oldest; eauto.
    + apply (Hs c l); auto. congruence.
  - apply (Hs c d); auto.
Qed.

Lemma seniority_snoc (rs : list Contact) (n : Contact) :
  uniqueIds (rs ++ [n]) -> linksExist rs -> seniority rs ->
  (forall d, In d rs -> Contact.linkedId n = Some (Contact.id d) ->
             Contact.createdAt d <= Contact.createdAt n) ->
  seniority (rs ++ [n]).
Proof.
  intros Hu He Hs Hn c d Hc Hd Hlc Hld Ek.
  destruct (uniqueIds_snoc_fresh _ _ Hu) as [_ Hfresh].
  apply in_app_iff in Hc. apply in_app_iff in Hd.
  destruct Hd as [Hd|[<-|[]]].
  - destruct Hc as [Hc|[<-|[]]]; [apply (Hs c d); auto | auto].
  - destruct Hc as [Hc|[<-|[]]]; [|lia].
    exfalso. destruct (He c _ Hc Ek) as [d [Hd Ed]].
    apply (Hfresh d Hd Ed).
Qed.

Lemma notAfter_snoc (now : Z) (rs : list Contact) (n : Contact) :
  notAfter now rs -> Contact.createdAt n <= now -> notAfter now (rs ++ [n]).
Proof.
  intros H Hn c Hc. apply in_app_iff in Hc.
  destruct Hc as [Hc|[<-|[]]]; auto.
Qed.

Lemma notAfter_merged (rootId : Z) (loserIds : list Z) (now t : Z)
  (rs : list Contact) :
  notAfter t rs -> notAfter t (map (merged rootId loserIds now) rs).
Proof.
  intros H c Hc. apply in_map_iff in Hc. destruct Hc as [c0 [<- Hc0]].
  rewrite merged_createdAt. auto.
Qed.

Lemma notAfter_later (t t' : Z) (rs : list Contact) :
  t <= t' -> notAfter t rs -> notAfter t' rs.
Proof. intros Hle H c Hc. specialize (H c Hc). lia. Qed.

(** One successful call, made no earlier than any row was stamped, keeps
    the primary key, the foreign key and seniority. *)
Lemma reconcile_seniority (email phoneNumber : option string) (now : Z)
  (tx tx' : Store) (resp : IdentifyResponse) :
  uniqueIds (rows tx) -> linksExist (rows tx) -> seniority (rows tx) ->
  notAfter now (rows tx) ->
  reconcile email phoneNumber now tx = Ok (tx', resp) ->
  uniqueIds (rows tx') /\ linksExist (rows tx') /\ seniority (rows tx') /\
  notAfter now (rows tx').
Proof.
  intros Hu He Hs Ht E.
  assert (Hmerge :
    forall rootPrimary losers txm,
      primaries email phoneNumber tx = Ok (rootPrimary :: losers) ->
      mergeLoop (Contact.id rootPrimary) losers now tx = Ok txm ->
      uniqueIds (rows txm) /\ linksExist (rows txm) /\
      seniority (rows txm) /\ notAfter now (rows txm) /\
      exists r, In r (rows txm) /\ Contact.id r = Contact.id rootPrimary).
  { intros rootPrimary losers txm Ep El.
    destruct (merge_rows _ _ _ _ _ _ _ Hu Ep El) as [R [_ Hn]].
    destruct (primaries_root_in_rows _ _ _ _ rootPrimary Ep) as [Hr _];
      [left; reflexivity|].
    repeat split; try (rewrite R).
    - unfold uniqueIds. rewrite uniqueIds_map_merged. auto.
    - apply linksExist_merged; auto.
    - eapply seniority_merged; eauto.
    - apply notAfter_merged. auto.
    - exists (merged (Contact.id rootPrimary) (map Contact.id losers) now
                     rootPrimary).
      split; [apply (perm_map_In _ _ _ _ R); auto | apply merged_id]. }
  destruct (reconcile_Ok _ _ _ _ _ _ E)
    as [created Em Ec Er
       |rootPrimary losers txm n Em Ep El Ea Ec Er
       |rootPrimary losers Em Ep El Ea Er].
  - apply create_Ok in Ec. destruct Ec as [Ec [-> Hu']]. simpl.
    repeat split; auto.
    + apply linksExist_snoc; auto. subst created. simpl. discriminate.
    + apply seniority_snoc; auto. subst created. simpl. discriminate.
    + apply notAfter_snoc; auto. subst created. simpl. lia.
  - destruct (Hmerge _ _ _ Ep El) as [Hu1 [He1 [Hs1 [Ht1 [r [Hr Eid]]]]]].
    apply create_Ok in Ec. destruct Ec as [Ec [-> Hu']]. simpl.
    repeat split; auto.
    + apply linksExist_snoc; auto. subst n. simpl.
      intros k Ek. inversion Ek; subst k. eauto.
    + apply seniority_snoc; auto. intros d Hd _.
      replace (Contact.createdAt n) with now by (subst n; reflexivity).
      auto.
    + apply notAfter_snoc; auto. subst n. simpl. lia.
  - destruct (Hmerge _ _ _ Ep El) as [Hu1 [He1 [Hs1 [Ht1 _]]]]. auto.
Qed.

(** X6.  Seniority is kept.  Starting from a table that satisfies the
    primary key, the foreign key and seniority (no live row is older than
    the live row it is linked to), every sequence of successful calls made
    at times that do not decrease, none earlier than a row of the table was
    stamped, ends in a table that satisfies seniority: the survivor of a
    merge is never younger than the rows that come under it. *)
Theorem seniority_preserved (calls : list Call) (t : Z) (tx tx' : Store) :
  timesFrom t calls -> notAfter t (rows tx) ->
  uniqueIds (rows tx) -> linksExist (rows tx) -> seniority (rows tx) ->
  reconcileAll calls tx = Ok tx' ->
  seniority (rows tx').
Proof.
  revert t tx.
  induction calls as [|call calls IH]; simpl; intros t tx Hc Ht Hu He Hs E.
  - inversion E; subst. auto.
  - destruct (reconcile _ _ _ tx) as [[tx1 resp]|] eqn:E1; simpl in E;
      [|discriminate].
    destruct Hc as [Hle Hc].
    destruct (reconcile_seniority _ _ _ _ _ _ Hu He Hs
                (notAfter_later _ _ _ Hle Ht) E1) as [Hu1 [He1 [Hs1 Ht1]]].
    eapply IH; eauto.
Qed.

Lemma seniority_preserved_witness : seniority (rows Examples.afterMerge).
Proof.
  apply (seniority_preserved Examples.mergeCalls 0 Examples.emptyStore
           Examples.afterMerge).
  - simpl. lia.
  - intros c [].
  - constructor.
  - intros c k [].
  - intros c d [].
  - vm_compute. reflexivity.
Defined.

(* ================================================================== *)
(** * The order of the demotions *)

Lemma existsb_Permutation (A : Type) (f : A -> bool) (l l' : list A) :
  Permutation l l' -> existsb f l = existsb f l'.
Proof.
  intros HP. induction HP; simpl.
  - reflexivity.
  - rewrite IHHP. reflexivity.
  - destruct (f x), (f y); reflexivity.
  - congruence.
Qed.

Lemma merged_Permutation (rootId : Z) (ids ids' : list Z) (now : Z)
  (c : Contact) :
  Permutation ids ids' -> merged rootId ids now c = merged rootId ids' now c.
Proof.
  intros HP. unfold merged, linksInto.
  rewrite (existsb_Permutation _ _ _ _ HP).
  destruct (Contact.linkedId c) as [k|]; [|reflexivity].
  rewrite (existsb_Permutation _ (Z.eqb k) _ _ HP). reflexivity.
Qed.

Lemma merged_unstamped (rootId : Z) (ids : list Z) (now now' : Z)
  (c : Contact) :
  unstamped (merged rootId ids now c) = unstamped (merged rootId ids now' c).
Proof.
  unfold merged.
  destruct (existsb (Z.eqb (Contact.id c)) ids); [reflexivity|].
  destruct (linksInto ids c && isLive c); reflexivity.
Qed.

(** X7.  The table a merge leaves does not depend on the order in which
    the losers are demoted, apart from the order of its rows in the scan
    and the times of the last update: two runs of the loop over the same
    losers in different orders, at whatever times, both successful, end in
    tables with the same rows up to order and [updatedAt], and the same
    sequence.  (The order of root primaries with equal [createdAt] is the
    store's; past the survivor it has no other effect.) *)
Theorem mergeLoop_order_irrelevant (rootId : Z) (losers losers' : list Contact)
  (now now' : Z) (tx tx1 tx2 : Store) :
  Permutation losers losers' ->
  ~ In rootId (map Contact.id losers) ->
  mergeLoop rootId losers now tx = Ok tx1 ->
  mergeLoop rootId losers' now' tx = Ok tx2 ->
  Permutation (map unstamped (rows tx1)) (map unstamped (rows tx2)) /\
  nextId tx1 = nextId tx2.
Proof.
  intros HP Hn E1 E2.
  assert (HPi : Permutation (map Contact.id losers) (map Contact.id losers'))
    by (apply Permutation_map; exact HP).
  assert (Hn' : ~ In rootId (map Contact.id losers')).
  { intros H. apply Hn. apply (Permutation_in _ (Permutation_sym HPi) H). }
  destruct (mergeLoop_rows _ _ _ Hn _ _ E1) as [R1 N1].
  destruct (mergeLoop_rows _ _ _ Hn' _ _ E2) as [R2 N2].
  split; [|congruence].
  apply (Permutation_map unstamped) in R1.
  apply (Permutation_map unstamped) in R2.
  apply (Permutation_trans R1). apply Permutation_sym.
  apply (Permutation_trans R2). rewrite !map_map.
  replace (map (fun x => unstamped (merged rootId (map Contact.id losers')
                                           now' x)) (rows tx))
    with (map (fun x => unstamped (merged rootId (map Contact.id losers)
                                          now x)) (rows tx)).
  - apply Permutation_refl.
  - apply map_ext. intros c.
    rewrite (merged_unstamped rootId _ now now').
    f_equal. apply merged_Permutation. exact HPi.
Qed.

Lemma mergeLoop_order_irrelevant_witness :
  exists tx1 tx2,
    mergeLoop 1 [MoreExamples.biffPrimary; MoreExamples.strickland] 40
              MoreExamples.threePrimaries = Ok tx1 /\
    mergeLoop 1 [MoreExamples.strickland; MoreExamples.biffPrimary] 45
              MoreExamples.threePrimaries = Ok tx2 /\
    Permutation (map unstamped (rows tx1)) (map unstamped (rows tx2)) /\
    nextId tx1 = nextId tx2.
Proof.
  eexists. eexists.
  split; [vm_compute; reflexivity|].
  split; [vm_compute; reflexivity|].
  apply (mergeLoop_order_irrelevant 1
           [MoreExamples.biffPrimary; MoreExamples.strickland]
           [MoreExamples.strickland; MoreExamples.biffPrimary]
           40 45 MoreExamples.threePrimaries).
  - apply perm_swap.
  - simpl. intros [H|[H|[]]]; discriminate.
  - vm_compute. reflexivity.
  - vm_compute. reflexivity.
Defined.

(* ================================================================== *)
(** * The service of [bitespeed-identity/src/service.ts] *)

Lemma Map_set_fresh (m : list (Z * Contact)) (k : Z) (v : Contact) :
  ~ In k (map fst m) -> Legacy.Map_set m k v = m ++ [(k, v)].
Proof.
  induction m as [|[k' v'] m IH]; simpl; intros Hn; auto.
  destruct (k' =? k) eqn:E.
  - apply Z.eqb_eq in E. tauto.
  - rewrite IH by tauto. reflexivity.
Qed.

Lemma primaryMap_from (ps : list Contact) :
  forall m,
    NoDup (map fst m ++ map Contact.id ps) ->
    fold_left (fun m p => Legacy.Map_set m (Contact.id p) p) ps m
    = m ++ map (fun p => (Contact.id p, p)) ps.
Proof.
  induction ps as [|p ps IH]; simpl; intros m Hn.
  - rewrite app_nil_r. reflexivity.
  - rewrite Map_set_fresh.
    + rewrite IH.
      * rewrite <- app_assoc. reflexivity.
      * rewrite map_app, <- app_assoc. simpl. exact Hn.
    + apply NoDup_remove_2 in Hn. intros H. apply Hn.
      apply in_or_app. auto.
Qed.

(** With distinct ids the [Map] returns the rows as they were put in. *)
Lemma Map_values_primaryMap (ps : list Contact) :
  uniqueIds ps -> Legacy.Map_values (Legacy.primaryMap ps) = ps.
Proof.
  intros Hu. unfold Legacy.Map_values, Legacy.primaryMap.
  rewrite primaryMap_from by exact Hu. simpl.
  rewrite map_map. simpl. apply map_id.
Qed.

(** Sorting rows that are in order leaves them as they are. *)
Lemma orderByCreatedAt_sorted_id (l : list Contact) :
  Sorted createdAtLe l -> orderByCreatedAt l = l.
Proof.
  induction l as [|c l IH]; simpl; intros Hs; auto.
  inversion Hs as [|? ? Hs' Hd]; subst.
  rewrite IH by exact Hs'.
  destruct l as [|d l']; simpl; auto.
  inversion Hd as [|? ? Hle]; subst. unfold createdAtLe in Hle.
  apply Z.leb_le in Hle. rewrite Hle. reflexivity.
Qed.

Lemma sortedPrimaries_id (email phoneNumber : option string) (tx : Store)
  (ps : list Contact) :
  uniqueIds (rows tx) ->
  primaries email phoneNumber tx = Ok ps ->
  Legacy.sortedPrimaries ps = ps.
Proof.
  intros Hu Ep. unfold Legacy.sortedPrimaries.
  rewrite Map_values_primaryMap.
  - apply orderByCreatedAt_sorted_id. eapply primaries_sorted; eauto.
  - unfold primaries in Ep.
    destruct (idList _) as [ids|]; simpl in Ep; [|discriminate].
    inversion Ep; subst ps. apply findMany_uniqueIds. exact Hu.
Qed.

Lemma legacy_reconcile_agrees (email phoneNumber : option string) (now : Z)
  (tx : Store) :
  uniqueIds (rows tx) ->
  Legacy.reconcile email phoneNumber now tx
  = legacyResult (reconcile email phoneNumber now tx).
Proof.
  intros Hu. unfold Legacy.reconcile, reconcile.
  destruct (matchingContacts email phoneNumber tx) as [|m ms].
  - destruct (create email phoneNumber None primary now tx) as [[tx1 c]|];
      reflexivity.
  - destruct (primaries email phoneNumber tx) as [ps|] eqn:Ep; simpl;
      [|reflexivity].
    rewrite (sortedPrimaries_id _ _ _ _ Hu Ep).
    destruct ps as [|rootPrimary losers]; simpl; [reflexivity|].
    destruct (mergeLoop _ _ _ _) as [tx1|]; simpl; [|reflexivity].
    destruct (attachCondition _ _ _); [|reflexivity].
    destruct (create _ _ _ _ _ _) as [[tx2 n]|]; reflexivity.
Qed.

(** X8.  The earlier service and the present one.  On a table with unique
    ids, [identify] of [bitespeed-identity/src/service.ts] returns what one
    transactional attempt of the present reconciler returns, table and
    payload, the first field of the payload being spelt
    [primaryContatctId]: passing the root primaries through a [Map] and
    sorting them again changes nothing.  So it returns what the present
    [identify] returns, unless the attempt fails on the unique constraint,
    which the earlier service surfaces where the present one tries
    again. *)
Theorem legacy_identify_agrees (a : Attempt)
  (email phoneNumber : option string) :
  uniqueIds (rows (snapshot a)) ->
  Legacy.identify a email phoneNumber
  = legacyResult (transaction a (reconcile email phoneNumber)) /\
  forall retry,
    Legacy.identify a email phoneNumber
    = legacyResult (identify a retry email phoneNumber) \/
    exists err, Legacy.identify a email phoneNumber = Err err /\
                isUniqueConstraintError err = true.
Proof.
  intros Hu.
  assert (E : Legacy.identify a email phoneNumber
              = legacyResult (transaction a (reconcile email phoneNumber))).
  { unfold Legacy.identify, transaction.
    rewrite (legacy_reconcile_agrees _ _ _ _ Hu).
    destruct (reconcile email phoneNumber (now_ a) (snapshot a))
      as [[tx' resp]|]; simpl; [|reflexivity].
    destruct (abort a); reflexivity. }
  split; [exact E|].
  intros retry. rewrite E. unfold identify.
  destruct (transaction a (reconcile email phoneNumber)) as [[tx' resp]|err];
    simpl.
  - left. reflexivity.
  - destruct (isUniqueConstraintError err) eqn:Eu.
    + right. exists err. auto.
    + left. reflexivity.
Qed.

Lemma legacy_identify_agrees_witness :
  Legacy.identify (mkAttempt MoreExamples.twoPrimaries 30 None)
                  (Some "george@hv.edu") (Some "717171")
  = Ok (Examples.afterMerge, legacyPayload MoreExamples.mergedPayload).
Proof.
  destruct (legacy_identify_agrees
              (mkAttempt MoreExamples.twoPrimaries 30 None)
              (Some "george@hv.edu") (Some "717171")
              uniqueIds_twoPrimaries) as [E _].
  rewrite E. vm_compute. reflexivity.
Defined.

(* ================================================================== *)
(** * Calls on a consistent table succeed *)

Lemma sameIdentity_true (a b : Contact) :
  sameIdentity a b = true ->
  exists e p, Contact.email a = Some e /\ Contact.phoneNumber a = Some p /\
              Contact.email b = Some e /\ Contact.phoneNumber b = Some p.
Proof.
  unfold sameIdentity.
  destruct (Contact.email a), (Contact.phoneNumber a), (Contact.linkedId a),
           (Contact.email b), (Contact.phoneNumber b), (Contact.linkedId b);
    try discriminate.
  intros H. apply andb_true_iff in H. destruct H as [H _].
  apply andb_true_iff in H. destruct H as [H1 H2].
  apply String.eqb_eq in H1. apply String.eqb_eq in H2. subst.
  do 2 eexists. repeat split; reflexivity.
Qed.

Lemma uniqueIndex_passes (rs : list Contact) :
  uniqueIds rs -> pairsUnique rs -> uniqueIndexHolds rs = true.
Proof.
  unfold uniqueIndexHolds, uniqueIds.
  induction rs as [|c rs IH]; simpl; intros Hu Hp; auto.
  inversion Hu as [|? ? Hn Hu']; subst. apply andb_true_iff. split.
  - apply forallb_forall. intros b Hb. apply negb_true_iff.
    destruct (sameIdentity c b) eqn:E; auto. exfalso.
    destruct (sameIdentity_true _ _ E) as [e [p [A [B [C D]]]]].
    apply Hn. rewrite (Hp c b e p); simpl; auto. apply in_map. auto.
  - apply IH; auto. intros a b e p Ha Hb. apply Hp; right; auto.
Qed.

Lemma foreignKey_passes (rs : list Contact) :
  linksExist rs -> foreignKeyHolds rs = true.
Proof.
  intros He. unfold foreignKeyHolds. apply forallb_forall. intros c Hc.
  destruct (Contact.linkedId c) as [k|] eqn:E; auto.
  destruct (He c k Hc E) as [d [Hd Ed]].
  apply existsb_exists. exists d. split; auto. apply Z.eqb_eq. auto.
Qed.

(** The database accepts a table with unique ids, links that exist and
    unique pairs. *)
Lemma checkConstraints_passes (rs : list Contact) :
  uniqueIds rs -> linksExist rs -> pairsUnique rs ->
  checkConstraints rs = Ok tt.
Proof.
  intros Hu He Hp. unfold checkConstraints.
  rewrite (proj2 (pairwise_ids_NoDup rs) Hu).
  rewrite (uniqueIndex_passes rs Hu Hp).
  rewrite (foreignKey_passes rs He). reflexivity.
Qed.

Lemma keeps_map_static (rootId : Z) (g : Contact -> Contact)
  (rs : list Contact) :
  (forall c, keepsRow rootId c (g c)) ->
  (exists r, In r rs /\ Contact.id r = rootId) ->
  uniqueIds rs -> linksExist rs -> pairsUnique rs ->
  map Contact.id (map g rs) = map Contact.id rs /\
  uniqueIds (map g rs) /\ linksExist (map g rs) /\ pairsUnique (map g rs).
Proof.
  intros Hg [r [Hr Er]] Hu He Hp.
  assert (Hid : map Contact.id (map g rs) = map Contact.id rs).
  { rewrite map_map. apply map_ext. intros c. apply (Hg c). }
  split; [exact Hid|]. split; [|split].
  - unfold uniqueIds. rewrite Hid. exact Hu.
  - intros c' k Hc' Ek. apply in_map_iff in Hc'.
    destruct Hc' as [c [<- Hc]].
    destruct (Hg c) as [_ [_ [_ [_ [_ [_ [Hk|Hk]]]]]]].
    + rewrite Hk in Ek. destruct (He c k Hc Ek) as [d [Hd Ed]].
      exists (g d). split; [apply in_map; auto|].
      rewrite <- Ed. apply (Hg d).
    + exists (g r). split; [apply in_map; auto|].
      rewrite Hk in Ek. inversion Ek; subst k.
      rewrite <- Er. apply (Hg r).
  - intros a' b' e p Ha' Hb'. apply in_map_iff in Ha', Hb'.
    destruct Ha' as [a [<- Ha]]. destruct Hb' as [b [<- Hb]].
    destruct (Hg a) as [Ia [Ea [Pa _]]]. destruct (Hg b) as [Ib [Eb [Pb _]]].
    rewrite Ia, Ea, Pa, Ib, Eb, Pb. apply Hp; auto.
Qed.

Lemma rewriteRows_static (rootId : Z) (touched : Contact -> bool)
  (change : Contact -> Contact) (rs : list Contact) :
  (forall c, keepsRow rootId c (change c)) ->
  (exists r, In r rs /\ Contact.id r = rootId) ->
  uniqueIds rs -> linksExist rs -> pairsUnique rs ->
  Permutation (map Contact.id (rewriteRows touched change rs))
              (map Contact.id rs) /\
  uniqueIds (rewriteRows touched change rs) /\
  linksExist (rewriteRows touched change rs) /\
  pairsUnique (rewriteRows touched change rs).
Proof.
  intros Hg Hr Hu He Hp.
  pose proof (rewriteRows_Permutation touched change rs) as P.
  destruct (keeps_map_static rootId
              (fun c => if touched c then change c else c) rs)
    as [Hid [Hu' [He' Hp']]]; auto.
  { intros c. destruct (touched c); [apply Hg | apply keepsRow_refl]. }
  rewrite <- Hid. split; [apply Permutation_map; exact P|].
  rewrite P. auto.
Qed.

Lemma update_succeeds (whereId rootId now : Z) (tx : Store) :
  In whereId (map Contact.id (rows tx)) ->
  In rootId (map Contact.id (rows tx)) ->
  uniqueIds (rows tx) -> linksExist (rows tx) -> pairsUnique (rows tx) ->
  exists tx', update whereId rootId now tx = Ok tx' /\
              Permutation (map Contact.id (rows tx'))
                          (map Contact.id (rows tx)) /\
              uniqueIds (rows tx') /\ linksExist (rows tx') /\
              pairsUnique (rows tx').
Proof.
  intros Hw Hr Hu He Hp. unfold update.
  apply in_map_iff in Hw. destruct Hw as [w [Ew Hw]].
  apply in_map_iff in Hr. destruct Hr as [r [Er Hr]].
  assert (Hex : existsb (fun c => Contact.id c =? whereId) (rows tx) = true).
  { apply existsb_exists. exists w. split; auto. apply Z.eqb_eq. auto. }
  rewrite Hex.
  destruct (rewriteRows_static rootId (fun c => Contact.id c =? whereId)
              (demote rootId now) (rows tx))
    as [Hid [Hu' [He' Hp']]]; eauto.
  { intros c. apply keepsRow_demote. }
  rewrite (checkConstraints_passes _ Hu' He' Hp'). simpl.
  eexists. split; [reflexivity|]. simpl. auto.
Qed.

Lemma updateMany_succeeds (whereLinkedId rootId now : Z) (tx : Store) :
  In rootId (map Contact.id (rows tx)) ->
  uniqueIds (rows tx) -> linksExist (rows tx) -> pairsUnique (rows tx) ->
  exists tx', updateMany whereLinkedId rootId now tx = Ok tx' /\
              Permutation (map Contact.id (rows tx'))
                          (map Contact.id (rows tx)) /\
              uniqueIds (rows tx') /\ linksExist (rows tx') /\
              pairsUnique (rows tx').
Proof.
  intros Hr Hu He Hp. unfold updateMany.
  apply in_map_iff in Hr. destruct Hr as [r [Er Hr]].
  destruct (rewriteRows_static rootId
              (fun c => optZ_eqb (Contact.linkedId c) (Some whereLinkedId)
                        && isLive c)
              (relink rootId now) (rows tx))
    as [Hid [Hu' [He' Hp']]]; eauto.
  { intros c. apply keepsRow_relink. }
  rewrite (checkConstraints_passes _ Hu' He' Hp'). simpl.
  eexists. split; [reflexivity|]. simpl. auto.
Qed.

(** The merge loop goes through when the rows it names are in the
    table. *)
Lemma mergeLoop_succeeds (rootId : Z) (losers : list Contact) (now : Z) :
  forall tx,
    In rootId (map Contact.id (rows tx)) ->
    (forall l, In l losers -> In (Contact.id l) (map Contact.id (rows tx))) ->
    uniqueIds (rows tx) -> linksExist (rows tx) -> pairsUnique (rows tx) ->
    exists tx', mergeLoop rootId losers now tx = Ok tx'.
Proof.
  induction losers as [|l losers IH]; simpl; intros tx Hr Hl Hu He Hp.
  - eauto.
  - destruct (update_succeeds (Contact.id l) rootId now tx)
      as [tx1 [E1 [I1 [Hu1 [He1 Hp1]]]]]; auto.
    rewrite E1. simpl.
    destruct (updateMany_succeeds (Contact.id l) rootId now tx1)
      as [tx2 [E2 [I2 [Hu2 [He2 Hp2]]]]]; auto.
    { rewrite I1. exact Hr. }
    rewrite E2. simpl. apply IH; auto.
    + rewrite I2, I1. exact Hr.
    + intros l' Hl'. rewrite I2, I1. auto.
Qed.

Lemma pairsUnique_snoc (rs : list Contact) (n : Contact) :
  pairsUnique rs ->
  (forall c e p, In c rs ->
     Contact.email c = Some e -> Contact.phoneNumber c = Some p ->
     Contact.email n = Some e -> Contact.phoneNumber n = Some p -> False) ->
  pairsUnique (rs ++ [n]).
Proof.
  intros Hp Hn a b e p Ha Hb Ea Pa Eb Pb.
  apply in_app_iff in Ha. apply in_app_iff in Hb.
  destruct Ha as [Ha|[<-|[]]]; destruct Hb as [Hb|[<-|[]]].
  - apply (Hp a b e p); auto.
  - exfalso. apply (Hn a e p); auto.
  - exfalso. apply (Hn b e p); auto.
  - reflexivity.
Qed.

Lemma pairsUnique_merged (rootId : Z) (loserIds : list Z) (now : Z)
  (rs : list Contact) :
  pairsUnique rs -> pairsUnique (map (merged rootId loserIds now) rs).
Proof.
  intros Hp a' b' e p Ha' Hb'. apply in_map_iff in Ha', Hb'.
  destruct Ha' as [a [<- Ha]]. destruct Hb' as [b [<- Hb]].
  rewrite !merged_id, !merged_email, !merged_phoneNumber. apply Hp; auto.
Qed.

(** The insert of a row with the next id goes through when the sequence
    has an id left, the values fit their columns, the row's link exists
    and its pair is new. *)
Lemma create_succeeds (email phoneNumber : option string)
  (linkedId : option Z) (linkPrecedence : LinkPrecedence) (now : Z)
  (tx : Store) :
  nextId tx <= INT_MAX -> fitsColumns email phoneNumber = true ->
  uniqueIds (rows tx) -> idsBelow (nextId tx) (rows tx) ->
  linksExist (rows tx) -> pairsUnique (rows tx) ->
  (forall k, linkedId = Some k -> In k (map Contact.id (rows tx))) ->
  (forall c e p, In c (rows tx) ->
     Contact.email c = Some e -> Contact.phoneNumber c = Some p ->
     email = Some e -> phoneNumber = Some p -> False) ->
  let created := Contact.mk (nextId tx) phoneNumber email linkedId
                            linkPrecedence now now None in
  create email phoneNumber linkedId linkPrecedence now tx
  = Ok (mkStore (rows tx ++ [created]) (nextId tx + 1), created) /\
  uniqueIds (rows tx ++ [created]) /\
  idsBelow (nextId tx + 1) (rows tx ++ [created]) /\
  linksExist (rows tx ++ [created]) /\
  pairsUnique (rows tx ++ [created]).
Proof.
  intros Hi Hf Hu Hb He Hp Hk Hnew created.
  assert (Hu' : uniqueIds (rows tx ++ [created])).
  { apply uniqueIds_app_fresh; auto. intros c Hc. specialize (Hb c Hc).
    subst created. simpl. lia. }
  assert (He' : linksExist (rows tx ++ [created])).
  { apply linksExist_snoc; auto. subst created. simpl. intros k Ek.
    specialize (Hk k Ek). apply in_map_iff in Hk.
    destruct Hk as [d [Ed Hd]]. eauto. }
  assert (Hp' : pairsUnique (rows tx ++ [created])).
  { apply pairsUnique_snoc; [exact Hp | exact Hnew]. }
  split; [|split; [|split; [|split]]]; auto.
  - unfold create. rewrite (proj2 (Z.ltb_ge _ _) Hi), Hf. simpl.
    fold created.
    rewrite (checkConstraints_passes _ Hu' He' Hp'). reflexivity.
  - intros c Hc. apply in_app_iff in Hc. destruct Hc as [Hc|[<-|[]]].
    + specialize (Hb c Hc). lia.
    + subst created. simpl. lia.
Qed.

Lemma allLive_snoc (rs : list Contact) (n : Contact) :
  allLive rs -> isLive n = true -> allLive (rs ++ [n]).
Proof.
  intros H Hn c Hc. apply in_app_iff in Hc.
  destruct Hc as [Hc|[<-|[]]]; auto.
Qed.

(** A row that holds the pair of the request is a match. *)
Lemma whereMatching_pair (email phoneNumber : option string) (c : Contact) :
  isLive c = true ->
  Contact.email c = email -> Contact.phoneNumber c = phoneNumber ->
  whereMatching email phoneNumber c = true.
Proof. intros Hl <- <-. apply whereMatching_exact. exact Hl. Qed.

(** One call on a consistent table, with fields that fit their columns and
    an id left in the sequence, returns, and leaves a consistent table;
    it takes at most one id. *)
Lemma reconcile_succeeds (email phoneNumber : option string) (now : Z)
  (tx : Store) :
  consistent tx ->
  fitsColumns email phoneNumber = true -> nextId tx <= INT_MAX ->
  exists tx' resp, reconcile email phoneNumber now tx = Ok (tx', resp) /\
                   consistent tx' /\ nextId tx' <= nextId tx + 1.
Proof.
  intros [Hl [Hu [Hb [He [Hv Hp]]]]] Hf Hi. unfold reconcile.
  destruct (matchingContacts email phoneNumber tx) as [|m ms] eqn:Em.
  - destruct (create_succeeds email phoneNumber None primary now tx)
      as [Ec [Hu' [Hb' [He' Hp']]]]; auto.
    { discriminate. }
    { intros c e p Hc Ee Ep Ee' Ep'.
      assert (H : In c (matchingContacts email phoneNumber tx)).
      { apply findMany_In. split; auto.
        apply whereMatching_pair; auto; congruence. }
      rewrite Em in H. destruct H. }
    rewrite Ec. simpl. eexists. eexists. split; [reflexivity|].
    unfold consistent. simpl. repeat split; auto; try lia.
    + apply allLive_snoc; auto.
    + apply linksValid_snoc; auto. simpl. discriminate.
  - assert (Hm : In m (matchingContacts email phoneNumber tx))
      by (rewrite Em; left; reflexivity).
    assert (Hroot : forall x, In x (matchingContacts email phoneNumber tx) ->
                              exists q, In q (rows tx) /\ isLive q = true /\
                                        rootIdOf x = Some (Contact.id q)).
    { intros x Hx. destruct (matching_in_rows _ _ _ _ Hx) as [Hxr [Hxl _]].
      unfold rootIdOf.
      destruct (Contact.linkPrecedence x) eqn:Ex.
      - exists x. auto.
      - destruct (Hv x Hxr Hxl Ex) as [d [Hd [Hdl [_ Ed]]]].
        exists d. auto. }
    destruct (idList_total (primaryIds (matchingContacts email phoneNumber tx)))
      as [ks Ek].
    { intros Hnone. apply primaryIds_In in Hnone.
      destruct Hnone as [x [Hx Ex]].
      destruct (Hroot x Hx) as [q [_ [_ Eq]]]. congruence. }
    assert (Ep : primaries email phoneNumber tx
                 = Ok (findMany (whereIdIn ks) tx)).
    { unfold primaries. rewrite Ek. reflexivity. }
    rewrite Ep. simpl.
    destruct (findMany (whereIdIn ks) tx) as [|rootPrimary losers] eqn:Eps.
    { exfalso. destruct (Hroot m Hm) as [q [Hq [Hql Eq]]].
      assert (H : In q []).
      { apply (primaries_In _ _ _ _ Ep). eauto. }
      destruct H. }
    destruct (primaries_root_in_rows _ _ _ _ rootPrimary Ep) as [Hr Hrl];
      [left; reflexivity|].
    destruct (mergeLoop_succeeds (Contact.id rootPrimary) losers now tx)
      as [tx1 El]; auto.
    { apply in_map. exact Hr. }
    { intros l Hlo. apply in_map.
      apply (primaries_root_in_rows _ _ _ _ l Ep). right. exact Hlo. }
    destruct (merge_rows _ _ _ _ _ _ _ Hu Ep El) as [R [N Hn]].
    assert (Hpr : Contact.linkPrecedence rootPrimary = primary).
    { eapply primaries_are_primary_valid; eauto. left. reflexivity. }
    assert (Hl1 : allLive (rows tx1)).
    { rewrite R. intros c Hc. apply in_map_iff in Hc.
      destruct Hc as [c0 [<- Hc0]]. rewrite merged_isLive. auto. }
    assert (Hu1 : uniqueIds (rows tx1)).
    { rewrite R. unfold uniqueIds. rewrite uniqueIds_map_merged. exact Hu. }
    assert (Hb1 : idsBelow (nextId tx1) (rows tx1)).
    { rewrite R, N. intros c Hc. apply in_map_iff in Hc.
      destruct Hc as [c0 [<- Hc0]]. rewrite merged_id. auto. }
    assert (He1 : linksExist (rows tx1)).
    { rewrite R. apply linksExist_merged; auto. }
    assert (Hv1 : linksValid (rows tx1)).
    { rewrite R. apply linksValid_merged; auto. }
    assert (Hp1 : pairsUnique (rows tx1)).
    { rewrite R. apply pairsUnique_merged; auto. }
    unfold mergeAndAttach. rewrite El. simpl.
    destruct (attachCondition email phoneNumber
                (findMany (whereGroup (Contact.id rootPrimary)) tx1)) eqn:Ea.
    + destruct (create_succeeds email phoneNumber
                  (Some (Contact.id rootPrimary)) secondary now tx1)
        as [Ec [Hu' [Hb' [He' Hp']]]]; auto; try lia.
      { intros k Ek'. inversion Ek'; subst k.
        rewrite R, uniqueIds_map_merged. apply in_map. exact Hr. }
      { intros c e p Hc Ee Epn Ee' Epn'.
        unfold attachCondition in Ea. apply andb_true_iff in Ea.
        destruct Ea as [_ Ea]. apply negb_true_iff in Ea.
        assert (Hg : In c (findMany (whereGroup (Contact.id rootPrimary))
                                    tx1)).
        { apply findMany_In. split; auto.
          apply (perm_map_In_inv _ _ _ _ R) in Hc.
          destruct Hc as [c0 [<- Hc0]].
          rewrite merged_email in Ee. rewrite merged_phoneNumber in Epn.
          apply (matched_in_group email phoneNumber now tx rootPrimary
                                  losers c0 Hu Hv Ep).
          apply findMany_In. split; auto.
          apply whereMatching_pair; auto; congruence. }
        apply exactDuplicate_exact in Hg.
        rewrite Ee, Epn, <- Ee', <- Epn' in Hg. congruence. }
      rewrite Ec. simpl. eexists. eexists. split; [reflexivity|].
      unfold consistent. simpl. repeat split; auto; try lia.
      * apply allLive_snoc; auto.
      * apply linksValid_snoc; auto. simpl. intros _.
        exists (merged (Contact.id rootPrimary) (map Contact.id losers) now
                       rootPrimary).
        rewrite merged_isLive, merged_id, merged_keeps_precedence; auto.
        repeat split; auto. apply (perm_map_In _ _ _ _ R). exact Hr.
    + eexists. eexists. split; [reflexivity|].
      unfold consistent. simpl. repeat split; auto; lia.
Qed.

Lemma consistent_twoPrimaries : consistent MoreExamples.twoPrimaries.
Proof.
  unfold consistent. simpl. repeat split.
  - intros c [<-|[<-|[]]]; reflexivity.
  - apply uniqueIds_twoPrimaries.
  - intros c [<-|[<-|[]]]; simpl; lia.
  - intros c k [<-|[<-|[]]]; discriminate.
  - apply linksValid_twoPrimaries.
  - intros a b e p [<-|[<-|[]]] [<-|[<-|[]]]; simpl; congruence.
Qed.





(* ================================================================== *)
(** * Rows that share a field are in one group *)


(** The root of a live row after a merge, from its root before. *)
Lemma rootIdOf_merged (rootId : Z) (loserIds : list Z) (now : Z)
  (rs : list Contact) (x : Contact) :
  uniqueIds rs ->
  (forall k, In k loserIds ->
             exists l, In l rs /\ Contact.id l = k /\
                       Contact.linkPrecedence l = primary) ->
  In x rs -> isLive x = true ->
  rootIdOf (merged rootId loserIds now x)
  = option_map (rootAfter rootId loserIds) (rootIdOf x).
Proof.
  intros Hu Hl Hx Hlx. unfold rootAfter.
  destruct (merged_cases rootId loserIds now x)
    as [[Hin Em]|[[Hn [_ [[k [Elk Hk]] Em]]]|[Hn [Hk Em]]]]; rewrite Em.
  - destruct (Hl _ Hin) as [l [Hlr [El Hp]]].
    assert (l = x) by (apply (uniqueIds_eq rs); auto). subst l.
    unfold rootIdOf at 2. rewrite Hp. simpl.
    apply existsb_eqb_In in Hin. rewrite Hin. reflexivity.
  - unfold rootIdOf. simpl.
    destruct (Contact.linkPrecedence x); simpl.
    + apply existsb_eqb_not_In in Hn. rewrite Hn. reflexivity.
    + rewrite Elk. simpl. apply existsb_eqb_In in Hk. rewrite Hk.
      reflexivity.
  - unfold rootIdOf.
    destruct (Contact.linkPrecedence x); simpl.
    + apply existsb_eqb_not_In in Hn. rewrite Hn. reflexivity.
    + destruct (Contact.linkedId x) as [k|] eqn:Ek; simpl; auto.
      specialize (Hk Hlx k eq_refl). apply existsb_eqb_not_In in Hk.
      rewrite Hk. reflexivity.
Qed.

(** Every match resolves to one of the rows fetched in step 3. *)
Lemma matched_root (email phoneNumber : option string) (tx : Store)
  (ps : list Contact) (m : Contact) :
  linksValid (rows tx) ->
  primaries email phoneNumber tx = Ok ps ->
  In m (matchingContacts email phoneNumber tx) ->
  exists q, In q ps /\ rootIdOf m = Some (Contact.id q).
Proof.
  intros Hv Ep Hm.
  destruct (matching_in_rows _ _ _ _ Hm) as [Hr [Hl _]].
  destruct (Contact.linkPrecedence m) eqn:Epm.
  - exists m. unfold rootIdOf. rewrite Epm. split; auto.
    apply (primaries_In _ _ _ _ Ep). repeat split; auto.
    exists m. unfold rootIdOf. rewrite Epm. auto.
  - destruct (Hv m Hr Hl Epm) as [d [Hd [Hdl [_ Ed]]]].
    exists d. unfold rootIdOf. rewrite Epm. split; auto.
    apply (primaries_In _ _ _ _ Ep). repeat split; auto.
    exists m. unfold rootIdOf. rewrite Epm. auto.
Qed.

(** A live row that shares a value with the request is a match. *)
Lemma sharesTruthy_matched (email phoneNumber : option string) (tx : Store)
  (x n : Contact) :
  In x (rows tx) -> isLive x = true ->
  Contact.email n = email -> Contact.phoneNumber n = phoneNumber ->
  sharesTruthy x n ->
  In x (matchingContacts email phoneNumber tx).
Proof.
  intros Hx Hl Ee Ep Hs. apply findMany_In. split; auto.
  destruct Hs as [[s [Hs [E1 E2]]]|[s [Hs [E1 E2]]]].
  - apply whereMatching_email; auto; unfold normalized; congruence.
  - apply whereMatching_phoneNumber; auto; unfold normalized; congruence.
Qed.

(** What one successful call does to the roots: the rows that were in the
    table keep their id, liveness and fields, and the root of each
    live one is sent through one map of roots; a row that is added is live
    and has the root of every row it shares a value with. *)
Lemma reconcile_roots (email phoneNumber : option string) (now : Z)
  (tx tx' : Store) (resp : IdentifyResponse) :
  uniqueIds (rows tx) -> linksValid (rows tx) ->
  reconcile email phoneNumber now tx = Ok (tx', resp) ->
  uniqueIds (rows tx') /\ linksValid (rows tx') /\
  exists (g : Contact -> Contact) (f : Z -> Z) (added : list Contact),
    Permutation (rows tx') (map g (rows tx) ++ added) /\
    (forall x, Contact.id (g x) = Contact.id x /\
               isLive (g x) = isLive x /\
               Contact.email (g x) = Contact.email x /\
               Contact.phoneNumber (g x) = Contact.phoneNumber x) /\
    (forall x, In x (rows tx) -> isLive x = true ->
               rootIdOf (g x) = option_map f (rootIdOf x)) /\
    (forall n x, In n added -> In x (rows tx) -> isLive x = true ->
                 sharesTruthy x n -> rootIdOf (g x) = rootIdOf n) /\
    (forall n n', In n added -> In n' added -> n = n').
Proof.
  intros Hu Hv E.
  assert (Hmerge :
    forall rootPrimary losers tx1,
      primaries email phoneNumber tx = Ok (rootPrimary :: losers) ->
      mergeLoop (Contact.id rootPrimary) losers now tx = Ok tx1 ->
      Permutation (rows tx1)
                  (map (merged (Contact.id rootPrimary)
                               (map Contact.id losers) now) (rows tx)) /\
      uniqueIds (rows tx1) /\ linksValid (rows tx1) /\
      (forall x, In x (rows tx) -> isLive x = true ->
         rootIdOf (merged (Contact.id rootPrimary) (map Contact.id losers)
                          now x)
         = option_map (rootAfter (Contact.id rootPrimary)
                                 (map Contact.id losers)) (rootIdOf x)) /\
      exists r1, In r1 (rows tx1) /\ isLive r1 = true /\
                 Contact.id r1 = Contact.id rootPrimary /\
                 Contact.linkPrecedence r1 = primary).
  { intros rootPrimary losers tx1 Ep El.
    destruct (merge_rows _ _ _ _ _ _ _ Hu Ep El) as [R [_ Hn]].
    destruct (primaries_root_in_rows _ _ _ _ rootPrimary Ep) as [Hr Hlr];
      [left; reflexivity|].
    assert (Hp : Contact.linkPrecedence rootPrimary = primary).
    { eapply primaries_are_primary_valid; eauto. left. reflexivity. }
    split; auto. split; [|split; [|split]]; try (rewrite R).
    - unfold uniqueIds. rewrite uniqueIds_map_merged. auto.
    - apply linksValid_merged; auto.
    - intros x Hx Hlx. apply (rootIdOf_merged _ _ _ (rows tx)); auto.
      intros k Hk. apply in_map_iff in Hk. destruct Hk as [l [El' Hl]].
      exists l. split; [|split]; auto.
      + apply (primaries_root_in_rows _ _ _ _ l Ep). right. auto.
      + apply (primaries_are_primary_valid _ _ _ _ l Hu Hv Ep). right. auto.
    - exists (merged (Contact.id rootPrimary) (map Contact.id losers) now
                     rootPrimary).
      rewrite merged_isLive, merged_id, merged_keeps_precedence; auto.
      repeat split; auto. apply (perm_map_In _ _ _ _ R); auto. }
  assert (Hfields :
    forall rootId loserIds x,
      Contact.id (merged rootId loserIds now x) = Contact.id x /\
      isLive (merged rootId loserIds now x) = isLive x /\
      Contact.email (merged rootId loserIds now x) = Contact.email x /\
      Contact.phoneNumber (merged rootId loserIds now x)
      = Contact.phoneNumber x).
  { intros. rewrite merged_id, merged_isLive, merged_email,
      merged_phoneNumber. auto. }
  destruct (reconcile_Ok _ _ _ _ _ _ E)
    as [created Em Ec Er
       |rootPrimary losers tx1 n Em Ep El Ea Ec Er
       |rootPrimary losers Em Ep El Ea Er].
  - apply create_Ok in Ec. destruct Ec as [Ec [-> Hu']]. simpl.
    split; [exact Hu'|]. split.
    { apply linksValid_snoc; auto. subst created. simpl. discriminate. }
    exists (fun x => x), (fun k => k), [created].
    rewrite map_id. split; [reflexivity|]. split; [auto|]. split.
    + intros x _ _. destruct (rootIdOf x); reflexivity.
    + split; [|intros n n' [<-|[]] [<-|[]]; reflexivity].
      intros n x [<-|[]] Hx Hlx Hs. exfalso.
      assert (H : In x (matchingContacts email phoneNumber tx)).
      { apply (sharesTruthy_matched email phoneNumber tx x created); auto;
          subst created; reflexivity. }
      rewrite Em in H. destruct H.
  - destruct (Hmerge _ _ _ Ep El)
      as [R [Hu1 [Hv1 [Hroot [r1 [Hr1 [Hlr1 [Eid Hp1]]]]]]]].
    destruct (merge_rows _ _ _ _ _ _ _ Hu Ep El) as [_ [_ Hn]].
    apply create_Ok in Ec. destruct Ec as [Ec [-> Hu']]. simpl.
    split; [exact Hu'|]. split.
    { apply linksValid_snoc; auto. intros _. exists r1.
      subst n. simpl. repeat split; auto. congruence. }
    exists (merged (Contact.id rootPrimary) (map Contact.id losers) now),
           (rootAfter (Contact.id rootPrimary) (map Contact.id losers)),
           [n].
    split; [apply Permutation_app_tail; exact R|]. split; [apply Hfields|].
    split; [exact Hroot|].
    split; [|intros n1 n2 [<-|[]] [<-|[]]; reflexivity].
    intros n' x [<-|[]] Hx Hlx Hs.
    assert (Hm : In x (matchingContacts email phoneNumber tx)).
    { apply (sharesTruthy_matched email phoneNumber tx x n); auto;
        subst n; reflexivity. }
    destruct (matched_root _ _ _ _ _ Hv Ep Hm) as [q [Hq Eq]].
    rewrite (Hroot x Hx Hlx), Eq. simpl.
    replace (rootIdOf n) with (Some (Contact.id rootPrimary))
      by (subst n; reflexivity).
    f_equal. unfold rootAfter. destruct Hq as [<-|Hq].
    + apply existsb_eqb_not_In in Hn. rewrite Hn. reflexivity.
    + assert (Hin : In (Contact.id q) (map Contact.id losers))
        by (apply in_map; exact Hq).
      apply existsb_eqb_In in Hin. rewrite Hin. reflexivity.
  - destruct (Hmerge _ _ _ Ep El) as [R [Hu1 [Hv1 [Hroot _]]]].
    split; [exact Hu1|]. split; [exact Hv1|].
    exists (merged (Contact.id rootPrimary) (map Contact.id losers) now),
           (rootAfter (Contact.id rootPrimary) (map Contact.id losers)),
           [].
    rewrite R, app_nil_r. split; [reflexivity|]. split; [apply Hfields|].
    split; [exact Hroot|]. split; [intros n x []|intros n n' []].
Qed.


Lemma uniqueIds_elderAndGroup : uniqueIds (rows MoreExamples.elderAndGroup).
Proof. repeat constructor; simpl; intuition discriminate. Qed.

Lemma linksValid_elderAndGroup : linksValid (rows MoreExamples.elderAndGroup).
Proof.
  intros c [<-|[<-|[<-|[]]]] _ H; try discriminate.
  exists MoreExamples.doc. simpl. auto.
Qed.

Lemma joiningCalls_joined :
  reconcileAll MoreExamples.joiningCalls MoreExamples.elderAndGroup
  = Ok MoreExamples.joined.
Proof. vm_compute. reflexivity. Qed.



(* ================================================================== *)
(** * Groups are not split *)

Lemma reconcile_same_root (email phoneNumber : option string) (now : Z)
  (tx tx' : Store) (resp : IdentifyResponse) :
  uniqueIds (rows tx) -> linksValid (rows tx) ->
  reconcile email phoneNumber now tx = Ok (tx', resp) ->
  uniqueIds (rows tx') /\ linksValid (rows tx') /\
  (forall a, In a (rows tx) -> isLive a = true ->
             exists a', In a' (rows tx') /\ Contact.id a' = Contact.id a /\
                        isLive a' = true) /\
  (forall a b a' b',
     In a (rows tx) -> In b (rows tx) ->
     isLive a = true -> isLive b = true ->
     In a' (rows tx') -> In b' (rows tx') ->
     Contact.id a' = Contact.id a -> Contact.id b' = Contact.id b ->
     rootIdOf a = rootIdOf b -> rootIdOf a' = rootIdOf b').
Proof.
  intros Hu Hv E.
  destruct (reconcile_roots _ _ _ _ _ _ Hu Hv E)
    as [Hu' [Hv' [g [f [added [R [Hf [Hroot _]]]]]]]].
  split; [exact Hu'|]. split; [exact Hv'|].
  assert (Hin : forall x, In x (rows tx) -> In (g x) (rows tx')).
  { intros x Hx. rewrite R. apply in_app_iff. left. apply in_map. auto. }
  split.
  - intros a Ha Hla. exists (g a). destruct (Hf a) as [Ei [El _]].
    rewrite Ei, El. auto.
  - intros a b a' b' Ha Hb Hla Hlb Ha' Hb' Eia Eib Er.
    assert (Ea : a' = g a).
    { apply (uniqueIds_eq (rows tx')); auto.
      destruct (Hf a) as [Ei _]. congruence. }
    assert (Eb : b' = g b).
    { apply (uniqueIds_eq (rows tx')); auto.
      destruct (Hf b) as [Ei _]. congruence. }
    subst a' b'. rewrite (Hroot a Ha Hla), (Hroot b Hb Hlb), Er.
    reflexivity.
Qed.

(** X12.  Groups are not split.  On a table with unique ids in which
    every live secondary is linked to a live primary, two live rows that
    resolve to the same root still resolve to the same root after any
    sequence of successful calls: a merge moves a group as a whole. *)
Theorem groups_never_split (calls : list Call) (tx tx' : Store) :
  uniqueIds (rows tx) -> linksValid (rows tx) ->
  reconcileAll calls tx = Ok tx' ->
  forall a b a' b',
    In a (rows tx) -> In b (rows tx) ->
    isLive a = true -> isLive b = true ->
    In a' (rows tx') -> In b' (rows tx') ->
    Contact.id a' = Contact.id a -> Contact.id b' = Contact.id b ->
    rootIdOf a = rootIdOf b -> rootIdOf a' = rootIdOf b'.
Proof.
  revert tx.
  induction calls as [|call calls IH]; simpl; intros tx Hu Hv E
    a b a' b' Ha Hb Hla Hlb Ha' Hb' Eia Eib Er.
  - inversion E; subst.
    rewrite (uniqueIds_eq _ _ _ Hu Ha' Ha Eia).
    rewrite (uniqueIds_eq _ _ _ Hu Hb' Hb Eib). exact Er.
  - destruct (reconcile _ _ _ tx) as [[tx1 resp]|] eqn:E1; simpl in E;
      [|discriminate].
    destruct (reconcile_same_root _ _ _ _ _ _ Hu Hv E1)
      as [Hu1 [Hv1 [Hkeep Hstep]]].
    destruct (Hkeep a Ha Hla) as [a1 [Ha1 [Eia1 Hla1]]].
    destruct (Hkeep b Hb Hlb) as [b1 [Hb1 [Eib1 Hlb1]]].
    apply (IH tx1 Hu1 Hv1 E a1 b1 a' b'); auto; try congruence.
    apply (Hstep a b a1 b1); auto.
Qed.

Lemma groups_never_split_witness :
  rootIdOf MoreExamples.docJoined = rootIdOf MoreExamples.martyJoined.
Proof.
  apply (groups_never_split MoreExamples.joiningCalls
           MoreExamples.elderAndGroup MoreExamples.joined
           uniqueIds_elderAndGroup linksValid_elderAndGroup
           joiningCalls_joined
           MoreExamples.doc MoreExamples.marty).
  - simpl. auto.
  - simpl. auto.
  - reflexivity.
  - reflexivity.
  - simpl. auto.
  - simpl. auto.
  - reflexivity.
  - reflexivity.
  - reflexivity.
Defined.

(* ================================================================== *)
(** * When a row is inserted *)

Lemma group_row_origin (email phoneNumber : option string) (now : Z)
  (tx tx1 : Store) (rootPrimary : Contact) (losers : list Contact)
  (field : Contact -> option string) (c : Contact) :
  Permutation (rows tx1)
              (map (merged (Contact.id rootPrimary) (map Contact.id losers)
                           now) (rows tx)) ->
  (forall x, field (merged (Contact.id rootPrimary) (map Contact.id losers)
                           now x) = field x) ->
  In c (findMany (whereGroup (Contact.id rootPrimary)) tx1) ->
  exists c0, In c0 (rows tx) /\ isLive c0 = true /\ field c0 = field c.
Proof.
  intros R Hfield Hc. apply findMany_In in Hc. destruct Hc as [Hc Hw].
  apply whereGroup_true in Hw. destruct Hw as [Hl _].
  rewrite R in Hc. apply in_map_iff in Hc. destruct Hc as [c0 [<- Hc0]].
  rewrite merged_isLive in Hl. exists c0. rewrite Hfield. auto.
Qed.

(** X13.  When a row is inserted.  For a request whose fields are null or
    non-empty, one at least not null, on a table with unique ids where every
    live secondary is linked to a live primary, a successful call inserts a
    row exactly when the request carries an email that no live row holds or
    a phone number that no live row holds; otherwise the sequence of ids
    stays where it was. *)
Theorem insert_iff_new_value (email phoneNumber : option string) (now : Z)
  (tx tx' : Store) (resp : IdentifyResponse) :
  normalized email -> normalized phoneNumber ->
  email <> None \/ phoneNumber <> None ->
  uniqueIds (rows tx) -> linksValid (rows tx) ->
  reconcile email phoneNumber now tx = Ok (tx', resp) ->
  (nextId tx' = nextId tx + 1 <->
   bringsNewValue email phoneNumber (rows tx)) /\
  (nextId tx' = nextId tx \/ nextId tx' = nextId tx + 1).
Proof.
  intros Hne Hnp Hsome Hu Hv E.
  destruct (reconcile_Ok _ _ _ _ _ _ E)
    as [created Em Ec Er
       |rootPrimary losers tx1 n Em Ep El Ea Ec Er
       |rootPrimary losers Em Ep El Ea Er].
  - apply create_Ok in Ec. destruct Ec as [_ [-> _]]. simpl.
    split; [|right; reflexivity]. split; [intros _|reflexivity].
    assert (Hnone : forall x, In x (rows tx) -> isLive x = true ->
                              whereMatching email phoneNumber x = true ->
                              False).
    { intros x Hx Hl Hw.
      assert (H : In x (matchingContacts email phoneNumber tx))
        by (apply findMany_In; auto).
      rewrite Em in H. destruct H. }
    destruct Hsome as [Hs|Hs]; [left|right]; split; auto;
      intros x Hx Hl Ex; apply (Hnone x Hx Hl).
    + apply whereMatching_email; auto.
    + apply whereMatching_phoneNumber; auto.
  - destruct (merge_rows _ _ _ _ _ _ _ Hu Ep El) as [R [N _]].
    apply create_Ok in Ec. destruct Ec as [_ [-> _]]. simpl. rewrite N.
    split; [|right; reflexivity]. split; [intros _|reflexivity].
    assert (Hback :
      forall (field : Contact -> option string) (v : option string),
        (forall x, field (merged (Contact.id rootPrimary)
                                 (map Contact.id losers) now x) = field x) ->
        (forall x, In x (rows tx1) -> isLive x = true -> field x <> v) ->
        forall x, In x (rows tx) -> isLive x = true -> field x <> v).
    { intros field v Hfield Hun x Hx Hl.
      rewrite <- Hfield. apply Hun.
      - rewrite R. apply in_map. exact Hx.
      - rewrite merged_isLive. exact Hl. }
    destruct (attachCondition_new _ _ _ Ea) as [Hnew|Hnew]; [left|right].
    + split; [apply (hasNew_no_row Contact.email _ _ Hne Hnew)|].
      apply (Hback Contact.email email (merged_email _ _ _)).
      apply (new_field_unused email phoneNumber now tx tx1 rootPrimary
               losers Contact.email email); auto.
      * intros z. apply merged_email.
      * intros z Hlz Hs Ez. apply whereMatching_email; auto.
    + split; [apply (hasNew_no_row Contact.phoneNumber _ _ Hnp Hnew)|].
      apply (Hback Contact.phoneNumber phoneNumber
               (merged_phoneNumber _ _ _)).
      apply (new_field_unused email phoneNumber now tx tx1 rootPrimary
               losers Contact.phoneNumber phoneNumber); auto.
      * intros z. apply merged_phoneNumber.
      * intros z Hlz Hs Ez. apply whereMatching_phoneNumber; auto.
  - destruct (merge_rows _ _ _ _ _ _ _ Hu Ep El) as [R [N _]].
    split; [|left; exact N]. rewrite N.
    split; [intros H; lia|]. intros Hb. exfalso.
    apply attachCondition_false in Ea.
    assert (Hknown :
      forall (field : Contact -> option string) (v : option string),
        (forall x, field (merged (Contact.id rootPrimary)
                                 (map Contact.id losers) now x) = field x) ->
        normalized v -> v <> None ->
        (hasNew v (filterBoolean
                     (map field (findMany
                                   (whereGroup (Contact.id rootPrimary))
                                   tx'))) = false \/
         exists c, In c (findMany (whereGroup (Contact.id rootPrimary)) tx')
                   /\ (isNull v || optString_eqb (field c) v) = true) ->
        exists x, In x (rows tx) /\ isLive x = true /\ field x = v).
    { intros field v Hfield Hn Hs Hk.
      destruct v as [s|]; [|congruence].
      destruct (not_attached_known field (Some s) _ s Hk eq_refl)
        as [c [Hc Ec]].
      { unfold normalized in Hn. congruence. }
      destruct (group_row_origin email phoneNumber now tx tx' rootPrimary
                  losers field c R Hfield Hc) as [c0 [Hc0 [Hl0 E0]]].
      exists c0. repeat split; auto. congruence. }
    destruct Hb as [[Hs Hun]|[Hs Hun]].
    + destruct (Hknown Contact.email email (merged_email _ _ _) Hne Hs)
        as [x [Hx [Hl Ex]]].
      { destruct Ea as [[H _]|[c [Hc [H _]]]]; [left; exact H|right; eauto]. }
      apply (Hun x Hx Hl Ex).
    + destruct (Hknown Contact.phoneNumber phoneNumber
                  (merged_phoneNumber _ _ _) Hnp Hs) as [x [Hx [Hl Ex]]].
      { destruct Ea as [[_ H]|[c [Hc [_ H]]]]; [left; exact H|right; eauto]. }
      apply (Hun x Hx Hl Ex).
Qed.

Lemma insert_iff_new_value_witness :
  ~ bringsNewValue (Some "george@hv.edu") (Some "717171")
      (rows MoreExamples.twoPrimaries).
Proof.
  destruct (insert_iff_new_value (Some "george@hv.edu") (Some "717171") 30
              MoreExamples.twoPrimaries Examples.afterMerge
              MoreExamples.mergedPayload) as [[_ H] _].
  - discriminate.
  - discriminate.
  - left. discriminate.
  - apply uniqueIds_twoPrimaries.
  - apply linksValid_twoPrimaries.
  - vm_compute. reflexivity.
  - intros Hb. apply H in Hb. simpl in Hb. lia.
Defined.

(* ================================================================== *)
(** * Looking a known value up *)

(** When all the matches resolve to the root of one of them, step 3
    fetches exactly one row. *)
Lemma single_root_primaries (email phoneNumber : option string) (tx : Store)
  (x : Contact) :
  uniqueIds (rows tx) -> linksValid (rows tx) ->
  In x (matchingContacts email phoneNumber tx) ->
  (forall m, In m (matchingContacts email phoneNumber tx) ->
             rootIdOf m = rootIdOf x) ->
  exists q, In q (rows tx) /\ isLive q = true /\
            rootIdOf x = Some (Contact.id q) /\
            primaries email phoneNumber tx = Ok [q].
Proof.
  intros Hu Hv Hx Hall.
  destruct (matching_in_rows _ _ _ _ Hx) as [Hxr [Hxl _]].
  assert (Hq : exists q, In q (rows tx) /\ isLive q = true /\
                         rootIdOf x = Some (Contact.id q)).
  { unfold rootIdOf. destruct (Contact.linkPrecedence x) eqn:Ex.
    - exists x. auto.
    - destruct (Hv x Hxr Hxl Ex) as [d [Hd [Hdl [_ Ed]]]]. exists d. auto. }
  destruct Hq as [q [Hq [Hql Eq]]].
  exists q. repeat split; auto.
  destruct (idList_total (primaryIds (matchingContacts email phoneNumber tx)))
    as [ks Ek].
  { intros Hnone. apply primaryIds_In in Hnone.
    destruct Hnone as [m [Hm Em]]. rewrite (Hall m Hm) in Em. congruence. }
  unfold primaries. rewrite Ek. simpl. f_equal.
  destruct (idList_Ok _ _ Ek) as [_ Hks].
  assert (Hin : forall k, In k ks <-> k = Contact.id q).
  { intros k. rewrite Hks, primaryIds_In. split.
    - intros [m [Hm Em]]. rewrite (Hall m Hm) in Em. congruence.
    - intros ->. exists x. auto. }
  apply findMany_single; auto.
  - apply whereIdIn_true. split; auto. apply Hin. reflexivity.
  - intros y Hy Hw. apply whereIdIn_true in Hw. destruct Hw as [Hw _].
    apply Hin. exact Hw.
Qed.

Lemma lookup_settled (field : Contact -> option string)
  (email phoneNumber : option string) (now : Z) (tx : Store) (x : Contact)
  (s : string) :
  uniqueIds (rows tx) -> linksValid (rows tx) -> groupsClosed (rows tx) ->
  In x (rows tx) -> isLive x = true -> s <> "" -> field x = Some s ->
  whereMatching email phoneNumber x = true ->
  (forall m, isLive m = true -> whereMatching email phoneNumber m = true ->
             field m = Some s) ->
  (forall a b, field a = Some s -> field b = Some s -> sharesTruthy a b) ->
  (forall allLinked,
     In x allLinked -> attachCondition email phoneNumber allLinked = false) ->
  exists resp,
    reconcile email phoneNumber now tx = Ok (tx, resp) /\
    rootIdOf x = Some (primaryContactId (contact resp)).
Proof.
  intros Hu Hv Hg Hx Hl Hs Ex Hw Hm Hsh Hatt.
  assert (Hxm : In x (matchingContacts email phoneNumber tx))
    by (apply findMany_In; auto).
  destruct (single_root_primaries email phoneNumber tx x Hu Hv Hxm)
    as [q [Hq [Hql [Eq Ep]]]].
  { intros m Hmm. destruct (matching_in_rows _ _ _ _ Hmm) as [Hmr [Hml Hmw]].
    apply Hg; auto. }
  eexists. split.
  - apply reconcile_settled; [| exact Ep |].
    + intros En. rewrite En in Hxm. destruct Hxm.
    + apply Hatt. apply findMany_In. split; auto.
      apply whereGroup_true. split; auto.
      unfold rootIdOf in Eq. destruct (Contact.linkPrecedence x).
      * left. congruence.
      * right. exact Eq.
  - simpl. exact Eq.
Qed.

Lemma attachCondition_known_email (s : string) (allLinked : list Contact)
  (x : Contact) :
  s <> "" -> Contact.email x = Some s -> In x allLinked ->
  attachCondition (Some s) None allLinked = false.
Proof.
  intros Hs Ex Hx. unfold attachCondition, hasNewEmail, hasNewPhone. simpl.
  assert (H : includes (existingEmails allLinked) s = true).
  { apply includes_In. apply existing_In. split; eauto. }
  rewrite H. reflexivity.
Qed.

Lemma attachCondition_known_phoneNumber (s : string)
  (allLinked : list Contact) (x : Contact) :
  s <> "" -> Contact.phoneNumber x = Some s -> In x allLinked ->
  attachCondition None (Some s) allLinked = false.
Proof.
  intros Hs Ex Hx. unfold attachCondition, hasNewEmail, hasNewPhone. simpl.
  assert (H : includes (existingPhones allLinked) s = true).
  { apply includes_In. apply existing_In. split; eauto. }
  rewrite H. reflexivity.
Qed.

Lemma whereMatching_email_only (s : string) (m : Contact) :
  s <> "" ->
  whereMatching (Some s) None m = true ->
  Contact.email m = Some s.
Proof.
  intros Hs. unfold whereMatching, orConditions, truthy.
  apply String.eqb_neq in Hs. rewrite Hs. simpl.
  rewrite orb_false_r. intros H. apply andb_true_iff in H.
  destruct H as [_ H]. apply optString_eqb_eq in H. exact H.
Qed.

Lemma whereMatching_phoneNumber_only (s : string) (m : Contact) :
  s <> "" ->
  whereMatching None (Some s) m = true ->
  Contact.phoneNumber m = Some s.
Proof.
  intros Hs. unfold whereMatching, orConditions, truthy.
  apply String.eqb_neq in Hs. rewrite Hs. simpl.
  rewrite orb_false_r. intros H. apply andb_true_iff in H.
  destruct H as [_ H]. apply optString_eqb_eq in H. exact H.
Qed.

(** X14.  Looking a known value up writes nothing.  On a table with
    unique ids, where every live secondary is linked to a live primary and
    live rows that share a value resolve to the same root, a call that
    carries only an email held by a live row, or only a phone number held
    by a live row, returns, leaves the table exactly as it was, and names
    the root of that row as [primaryContactId]. *)
Theorem known_value_lookup_reads_only (now : Z) (tx : Store) (x : Contact)
  (s : string) :
  uniqueIds (rows tx) -> linksValid (rows tx) -> groupsClosed (rows tx) ->
  In x (rows tx) -> isLive x = true -> s <> "" ->
  (Contact.email x = Some s ->
   exists resp, reconcile (Some s) None now tx = Ok (tx, resp) /\
                rootIdOf x = Some (primaryContactId (contact resp))) /\
  (Contact.phoneNumber x = Some s ->
   exists resp, reconcile None (Some s) now tx = Ok (tx, resp) /\
                rootIdOf x = Some (primaryContactId (contact resp))).
Proof.
  intros Hu Hv Hg Hx Hl Hs. split; intros Ex.
  - apply (lookup_settled Contact.email (Some s) None now tx x s); auto.
    + apply whereMatching_email; auto; unfold normalized; congruence.
    + intros m _ Hm. apply (whereMatching_email_only s m Hs Hm).
    + intros a b Ea Eb. left. exists s. auto.
    + intros allLinked Hin.
      apply (attachCondition_known_email s allLinked x); auto.
  - apply (lookup_settled Contact.phoneNumber None (Some s) now tx x s);
      auto.
    + apply whereMatching_phoneNumber; auto; unfold normalized; congruence.
    + intros m _ Hm. apply (whereMatching_phoneNumber_only s m Hs Hm).
    + intros a b Ea Eb. right. exists s. auto.
    + intros allLinked Hin.
      apply (attachCondition_known_phoneNumber s allLinked x); auto.
Qed.

Lemma known_value_lookup_reads_only_witness :
  exists resp,
    reconcile (Some "marty@hv.edu") None 40 MoreExamples.elderAndGroup
    = Ok (MoreExamples.elderAndGroup, resp) /\
    rootIdOf MoreExamples.marty = Some (primaryContactId (contact resp)).
Proof.
  apply (known_value_lookup_reads_only 40 MoreExamples.elderAndGroup
           MoreExamples.marty "marty@hv.edu").
  - apply uniqueIds_elderAndGroup.
  - apply linksValid_elderAndGroup.
  - intros a b [<-|[<-|[<-|[]]]] [<-|[<-|[<-|[]]]] _ _
           [[s [_ [E1 E2]]]|[s [_ [E1 E2]]]];
      simpl in *; try reflexivity; congruence.
  - simpl. auto.
  - reflexivity.
  - discriminate.
  - reflexivity.
Defined.

(* ================================================================== *)
(** * The clock *)

Lemma forallb_map_ext {A : Type} (f f' : A -> bool) (g : A -> A)
  (l : list A) :
  (forall x, f' (g x) = f x) -> forallb f' (map g l) = forallb f l.
Proof.
  intros H. induction l as [|x l IH]; simpl; auto. rewrite H, IH. auto.
Qed.

Lemma existsb_map_ext {A : Type} (f f' : A -> bool) (g : A -> A)
  (l : list A) :
  (forall x, f' (g x) = f x) -> existsb f' (map g l) = existsb f l.
Proof.
  intros H. induction l as [|x l IH]; simpl; auto. rewrite H, IH. auto.
Qed.

Lemma pairwise_map {A : Type} (ok : A -> A -> bool) (g : A -> A)
  (l : list A) :
  (forall a b, ok (g a) (g b) = ok a b) ->
  pairwise ok (map g l) = pairwise ok l.
Proof.
  intros H. induction l as [|x l IH]; simpl; auto.
  rewrite IH. f_equal. apply forallb_map_ext. intros y. apply H.
Qed.

(** The constraints do not read what a map of rows leaves alone when it
    keeps the three keys and the link. *)
Lemma checkConstraints_map (g : Contact -> Contact) (rs : list Contact) :
  (forall c, Contact.id (g c) = Contact.id c /\
             Contact.email (g c) = Contact.email c /\
             Contact.phoneNumber (g c) = Contact.phoneNumber c /\
             Contact.linkedId (g c) = Contact.linkedId c) ->
  checkConstraints (map g rs) = checkConstraints rs.
Proof.
  intros Hg. unfold checkConstraints.
  assert (Hp : primaryKeyHolds (map g rs) = primaryKeyHolds rs).
  { apply pairwise_map. intros a b.
    destruct (Hg a) as [-> _]. destruct (Hg b) as [-> _]. reflexivity. }
  assert (Hi : uniqueIndexHolds (map g rs) = uniqueIndexHolds rs).
  { apply pairwise_map. intros a b. unfold sameIdentity.
    destruct (Hg a) as [_ [-> [-> ->]]].
    destruct (Hg b) as [_ [-> [-> ->]]]. reflexivity. }
  assert (Hf : foreignKeyHolds (map g rs) = foreignKeyHolds rs).
  { unfold foreignKeyHolds. apply forallb_map_ext. intros c.
    destruct (Hg c) as [_ [_ [_ ->]]].
    destruct (Contact.linkedId c) as [k|]; auto.
    apply existsb_map_ext. intros d. destruct (Hg d) as [-> _].
    reflexivity. }
  rewrite Hp, Hi, Hf. reflexivity.
Qed.

Lemma checkConstraints_unstamped (rs : list Contact) :
  checkConstraints (map unstamped rs) = checkConstraints rs.
Proof. apply checkConstraints_map. intros c. simpl. auto. Qed.

Lemma checkConstraints_timeless (rs : list Contact) :
  checkConstraints (map timeless rs) = checkConstraints rs.
Proof. apply checkConstraints_map. intros c. simpl. auto. Qed.

Lemma rewriteRows_map (f : Contact -> Contact)
  (touched touched' : Contact -> bool) (change change' : Contact -> Contact)
  (rs : list Contact) :
  (forall c, touched' (f c) = touched c) ->
  (forall c, change' (f c) = f (change c)) ->
  rewriteRows touched' change' (map f rs)
  = map f (rewriteRows touched change rs).
Proof.
  intros Ht Hc. unfold rewriteRows. rewrite map_app. f_equal.
  - induction rs as [|c rs IH]; simpl; auto.
    rewrite Ht. destruct (touched c); simpl; rewrite IH; reflexivity.
  - induction rs as [|c rs IH]; simpl; auto.
    rewrite Ht. destruct (touched c); simpl; rewrite IH; auto.
    rewrite Hc. reflexivity.
Qed.

Lemma update_unstamped (whereId rootId now : Z) (tx : Store) :
  update whereId rootId 0 (unstampedStore tx)
  = mapResult unstampedStore (update whereId rootId now tx).
Proof.
  unfold update. simpl.
  rewrite (existsb_map_ext (fun c => Contact.id c =? whereId)
             (fun c => Contact.id c =? whereId) unstamped)
    by reflexivity.
  destruct (existsb _ (rows tx)); [|reflexivity].
  rewrite (rewriteRows_map unstamped (fun c => Contact.id c =? whereId) _
             (demote rootId now)) by reflexivity.
  rewrite checkConstraints_unstamped.
  destruct (checkConstraints _) as [[]|]; reflexivity.
Qed.

Lemma updateMany_unstamped (whereLinkedId rootId now : Z) (tx : Store) :
  updateMany whereLinkedId rootId 0 (unstampedStore tx)
  = mapResult unstampedStore (updateMany whereLinkedId rootId now tx).
Proof.
  unfold updateMany. simpl.
  rewrite (rewriteRows_map unstamped
             (fun c => optZ_eqb (Contact.linkedId c) (Some whereLinkedId)
                       && isLive c) _
             (relink rootId now)) by reflexivity.
  rewrite checkConstraints_unstamped.
  destruct (checkConstraints _) as [[]|]; reflexivity.
Qed.

(** The merge loop at any time is the merge loop at time 0, up to the
    times of the last update. *)
Lemma mergeLoop_unstamped (rootId : Z) (losers : list Contact) (now : Z) :
  forall tx,
    mergeLoop rootId losers 0 (unstampedStore tx)
    = mapResult unstampedStore (mergeLoop rootId losers now tx).
Proof.
  induction losers as [|l losers IH]; simpl; intros tx; auto.
  rewrite (update_unstamped _ _ now).
  destruct (update _ _ now tx) as [tx1|]; simpl; auto.
  rewrite (updateMany_unstamped _ _ now).
  destruct (updateMany _ _ now tx1) as [tx2|]; simpl; auto.
Qed.

Lemma insertByCreatedAt_unstamped (c : Contact) (l : list Contact) :
  insertByCreatedAt (unstamped c) (map unstamped l)
  = map unstamped (insertByCreatedAt c l).
Proof.
  induction l as [|d l IH]; simpl; auto.
  destruct (Contact.createdAt c <=? Contact.createdAt d); simpl; auto.
  rewrite IH. reflexivity.
Qed.

Lemma findMany_unstamped (w : Contact -> bool) (tx : Store) :
  (forall c, w (unstamped c) = w c) ->
  findMany w (unstampedStore tx) = map unstamped (findMany w tx).
Proof.
  intros Hw. unfold findMany, unstampedStore. simpl.
  induction (rows tx) as [|c rs IH]; simpl; auto.
  rewrite Hw. destruct (w c); simpl; auto.
  rewrite IH. apply insertByCreatedAt_unstamped.
Qed.

Lemma timeless_unstamped (l : list Contact) :
  map timeless (map unstamped l) = map timeless l.
Proof. rewrite map_map. apply map_ext. intros c. reflexivity. Qed.

Lemma filterBoolean_timeless (field : Contact -> option string)
  (l l' : list Contact) :
  (forall c, field (timeless c) = field c) ->
  map timeless l = map timeless l' ->
  filterBoolean (map field l) = filterBoolean (map field l').
Proof.
  intros Hf E. f_equal.
  rewrite <- (map_ext _ _ Hf l), <- (map_ext _ _ Hf l').
  rewrite <- !(map_map timeless field). rewrite E. reflexivity.
Qed.

Lemma attachCondition_timeless (email phoneNumber : option string)
  (l l' : list Contact) :
  map timeless l = map timeless l' ->
  attachCondition email phoneNumber l = attachCondition email phoneNumber l'.
Proof.
  intros E. unfold attachCondition, hasNewEmail, hasNewPhone,
    existingEmails, existingPhones.
  rewrite (filterBoolean_timeless Contact.email l l') by auto.
  rewrite (filterBoolean_timeless Contact.phoneNumber l l') by auto.
  f_equal. f_equal. unfold exactDuplicate.
  set (p := fun c : Contact =>
              (isNull email || optString_eqb (Contact.email c) email) &&
              (isNull phoneNumber ||
               optString_eqb (Contact.phoneNumber c) phoneNumber)).
  rewrite <- (existsb_map_ext p p timeless l) by reflexivity.
  rewrite <- (existsb_map_ext p p timeless l') by reflexivity.
  rewrite E. reflexivity.
Qed.

Lemma secondariesOf_timeless (rootId : Z) (l : list Contact) :
  map timeless (secondariesOf rootId l)
  = secondariesOf rootId (map timeless l).
Proof.
  unfold secondariesOf. induction l as [|c l IH]; simpl; auto.
  destruct (negb (Contact.id c =? rootId)); simpl; rewrite IH; reflexivity.
Qed.

Lemma fold_left_map_ext {A B : Type} (f : A -> B -> A) (g : B -> B)
  (l : list B) :
  (forall a x, f a (g x) = f a x) ->
  forall a, fold_left f (map g l) a = fold_left f l a.
Proof.
  intros H. induction l as [|x l IH]; simpl; intros a; auto.
  rewrite H. apply IH.
Qed.

Lemma buildResponse_timeless (primary_ : Contact) (l l' : list Contact) :
  map timeless l = map timeless l' ->
  buildResponse primary_ l = buildResponse primary_ l'.
Proof.
  intros E.
  assert (H : forall s, buildResponse primary_ s
                        = buildResponse primary_ (map timeless s)).
  { intros s. unfold buildResponse.
    rewrite (fold_left_map_ext
               (fun arr c => pushNew arr (Contact.email c)) timeless s)
      by reflexivity.
    rewrite (fold_left_map_ext
               (fun arr c => pushNew arr (Contact.phoneNumber c)) timeless s)
      by reflexivity.
    rewrite map_map. reflexivity. }
  rewrite (H l), (H l'), E. reflexivity.
Qed.

(** The insert of a row, times left out, does not depend on the time
    nor on the times in the table. *)
Lemma create_timeless (email phoneNumber : option string)
  (linkedId : option Z) (linkPrecedence : LinkPrecedence) (now now' : Z)
  (tx tx' : Store) :
  map timeless (rows tx) = map timeless (rows tx') ->
  nextId tx = nextId tx' ->
  match create email phoneNumber linkedId linkPrecedence now tx,
        create email phoneNumber linkedId linkPrecedence now' tx' with
  | Ok (tx1, n), Ok (tx1', n') =>
      map timeless (rows tx1) = map timeless (rows tx1') /\
      nextId tx1 = nextId tx1' /\ timeless n = timeless n'
  | Err e, Err e' => e = e'
  | _, _ => False
  end.
Proof.
  intros E N. unfold create.
  assert (Ec : checkConstraints
                 (rows tx ++ [Contact.mk (nextId tx) phoneNumber email
                                linkedId linkPrecedence now now None])
               = checkConstraints
                   (rows tx' ++ [Contact.mk (nextId tx') phoneNumber email
                                   linkedId linkPrecedence now' now' None])).
  { rewrite <- checkConstraints_timeless.
    rewrite <- (checkConstraints_timeless (rows tx' ++ _)).
    rewrite !map_app, E, N. reflexivity. }
  rewrite Ec, N. clear Ec.
  destruct (INT_MAX <? nextId tx'); [reflexivity|].
  destruct (negb (fitsColumns email phoneNumber)); [reflexivity|].
  destruct (checkConstraints _) as [[]|]; [|simpl; reflexivity].
  cbn [bind fst snd rows nextId].
  rewrite !map_app, E. auto.
Qed.

(** X15.  The clock is not an input of the answer.  For every table and
    every request, two calls made at different times return the same
    payload and leave tables that differ only in [createdAt] and
    [updatedAt], or fail with the same error. *)
Theorem reconcile_ignores_clock (email phoneNumber : option string)
  (now now' : Z) (tx : Store) :
  timelessOutcome (reconcile email phoneNumber now tx)
  = timelessOutcome (reconcile email phoneNumber now' tx).
Proof.
  unfold reconcile.
  destruct (matchingContacts email phoneNumber tx) as [|m ms].
  - pose proof (create_timeless email phoneNumber None primary now now'
                  tx tx eq_refl eq_refl) as H.
    destruct (create email phoneNumber None primary now tx)
      as [[tx1 n]|e];
      destruct (create email phoneNumber None primary now' tx)
        as [[tx1' n']|e']; simpl; try contradiction.
    + destruct H as [R [N Hn]]. unfold timelessOutcome. simpl.
      rewrite R, N. do 2 f_equal.
      apply buildResponse_ext; inversion Hn; reflexivity.
    + congruence.
  - destruct (primaries email phoneNumber tx) as [ps|]; simpl;
      [|reflexivity].
    destruct ps as [|rootPrimary losers]; simpl; [reflexivity|].
    pose proof (mergeLoop_unstamped (Contact.id rootPrimary) losers now tx)
      as H1.
    pose proof (mergeLoop_unstamped (Contact.id rootPrimary) losers now' tx)
      as H2.
    rewrite H1 in H2. clear H1.
    destruct (mergeLoop _ _ now tx) as [tx1|e];
      destruct (mergeLoop _ _ now' tx) as [tx1'|e']; simpl in *;
      try discriminate; [|congruence].
    inversion H2 as [[R N]]. clear H2.
    assert (Rt : map timeless (rows tx1) = map timeless (rows tx1')).
    { rewrite <- timeless_unstamped, R, timeless_unstamped. reflexivity. }
    assert (Hw : forall c, whereGroup (Contact.id rootPrimary) (unstamped c)
                           = whereGroup (Contact.id rootPrimary) c)
      by reflexivity.
    assert (Ra : map timeless (findMany (whereGroup (Contact.id rootPrimary))
                                        tx1)
                 = map timeless (findMany (whereGroup (Contact.id rootPrimary))
                                          tx1')).
    { rewrite <- timeless_unstamped.
      rewrite <- (findMany_unstamped _ tx1 Hw).
      replace (unstampedStore tx1) with (unstampedStore tx1')
        by (unfold unstampedStore; congruence).
      rewrite (findMany_unstamped _ tx1' Hw), timeless_unstamped.
      reflexivity. }
    rewrite (attachCondition_timeless email phoneNumber _ _ Ra).
    destruct (attachCondition _ _ _).
    + pose proof (create_timeless email phoneNumber
                    (Some (Contact.id rootPrimary)) secondary now now'
                    tx1 tx1' Rt N) as H.
      destruct (create _ _ _ _ now tx1) as [[tx2 n]|e];
        destruct (create _ _ _ _ now' tx1') as [[tx2' n']|e']; simpl;
        try contradiction; [|congruence].
      destruct H as [R2 [N2 Hn]]. unfold timelessOutcome. simpl.
      rewrite R2, N2. do 2 f_equal.
      apply buildResponse_timeless.
      rewrite !secondariesOf_timeless, !map_app, Ra. simpl.
      rewrite Hn. reflexivity.
    + unfold timelessOutcome. simpl. rewrite Rt, N. do 2 f_equal.
      apply buildResponse_timeless.
      rewrite !secondariesOf_timeless, Ra. reflexivity.
Qed.

(* ================================================================== *)
(** * The order of the scan *)

Lemma noTies_eq (l : list Contact) (a b : Contact) :
  noTies l -> In a l -> In b l ->
  Contact.createdAt a = Contact.createdAt b -> a = b.
Proof.
  unfold noTies. induction l as [|c l IH]; simpl; intros Hn Ha Hb E.
  - destruct Ha.
  - inversion Hn as [|? ? Hnot Hn']; subst.
    destruct Ha as [->|Ha]; destruct Hb as [->|Hb]; auto.
    + exfalso. apply Hnot. rewrite E. apply in_map. exact Hb.
    + exfalso. apply Hnot. rewrite <- E. apply in_map. exact Ha.
Qed.

(** Without ties a sorted list is determined by its elements. *)
Lemma sorted_perm_unique (l1 : list Contact) :
  forall l2,
    StronglySorted createdAtLe l1 -> StronglySorted createdAtLe l2 ->
    Permutation l1 l2 -> noTies l1 -> l1 = l2.
Proof.
  induction l1 as [|a l1 IH]; intros l2 H1 H2 HP Hn.
  - apply Permutation_nil in HP. auto.
  - destruct l2 as [|b l2].
    { apply Permutation_sym, Permutation_nil in HP. discriminate. }
    inversion H1 as [|? ? H1' Ha]; subst.
    inversion H2 as [|? ? H2' Hb]; subst.
    rewrite Forall_forall in Ha, Hb.
    assert (Hba : In b (a :: l1))
      by (apply (Permutation_in _ (Permutation_sym HP)); left; reflexivity).
    assert (Hab : In a (b :: l2))
      by (apply (Permutation_in _ HP); left; reflexivity).
    assert (E : a = b).
    { apply (noTies_eq (a :: l1)); auto; [left; reflexivity|].
      assert (Hle1 : Contact.createdAt a <= Contact.createdAt b).
      { destruct Hba as [->|Hba]; [lia|]. apply (Ha b Hba). }
      assert (Hle2 : Contact.createdAt b <= Contact.createdAt a).
      { destruct Hab as [->|Hab]; [lia|]. apply (Hb a Hab). }
      lia. }
    subst b. f_equal. apply IH; auto.
    + apply Permutation_cons_inv in HP. exact HP.
    + unfold noTies in *. simpl in Hn. inversion Hn. auto.
Qed.

Lemma filter_Permutation (w : Contact -> bool) (l l' : list Contact) :
  Permutation l l' -> Permutation (filter w l) (filter w l').
Proof.
  intros HP. induction HP; simpl.
  - constructor.
  - destruct (w x); auto.
  - destruct (w x), (w y); auto. apply perm_swap.
  - eapply perm_trans; eauto.
Qed.

Lemma noTies_filter (w : Contact -> bool) (l : list Contact) :
  noTies l -> noTies (filter w l).
Proof.
  unfold noTies. induction l as [|c l IH]; simpl; intros Hn; auto.
  inversion Hn as [|? ? Hnot Hn']; subst.
  destruct (w c); simpl; auto. constructor; auto.
  intros Hin. apply Hnot. apply in_map_iff in Hin.
  destruct Hin as [d [Ed Hd]]. apply filter_In in Hd.
  rewrite <- Ed. apply in_map. tauto.
Qed.

Lemma noTies_Permutation (l l' : list Contact) :
  Permutation l l' -> noTies l -> noTies l'.
Proof.
  unfold noTies. intros HP Hn.
  apply (Permutation_NoDup (Permutation_map Contact.createdAt HP) Hn).
Qed.

(** Without ties a query returns the same list whatever the order of the
    scan. *)
Lemma findMany_Permutation (w : Contact -> bool) (tx tx' : Store) :
  Permutation (rows tx) (rows tx') -> noTies (rows tx) ->
  findMany w tx = findMany w tx'.
Proof.
  intros HP Hn. unfold findMany. apply sorted_perm_unique.
  - apply Sorted_StronglySorted; [apply createdAtLe_trans|].
    apply orderByCreatedAt_sorted.
  - apply Sorted_StronglySorted; [apply createdAtLe_trans|].
    apply orderByCreatedAt_sorted.
  - eapply perm_trans; [apply Permutation_sym, orderByCreatedAt_perm|].
    eapply perm_trans; [|apply orderByCreatedAt_perm].
    apply filter_Permutation. exact HP.
  - apply (noTies_Permutation (filter w (rows tx))).
    + apply orderByCreatedAt_perm.
    + apply noTies_filter. exact Hn.
Qed.

Lemma forallb_Permutation (A : Type) (f : A -> bool) (l l' : list A) :
  Permutation l l' -> forallb f l = forallb f l'.
Proof.
  intros HP. induction HP; simpl.
  - reflexivity.
  - rewrite IHHP. reflexivity.
  - destruct (f x), (f y); reflexivity.
  - congruence.
Qed.

Lemma pairwise_Permutation (A : Type) (ok : A -> A -> bool) (l l' : list A) :
  (forall a b, ok a b = ok b a) ->
  Permutation l l' -> pairwise ok l = pairwise ok l'.
Proof.
  intros Hsym HP. induction HP; simpl.
  - reflexivity.
  - rewrite IHHP, (forallb_Permutation _ _ _ _ HP). reflexivity.
  - rewrite (Hsym y x).
    destruct (ok x y), (forallb (ok x) l), (forallb (ok y) l); reflexivity.
  - congruence.
Qed.

Lemma sameIdentity_sym (a b : Contact) : sameIdentity a b = sameIdentity b a.
Proof.
  unfold sameIdentity.
  destruct (Contact.email a), (Contact.phoneNumber a), (Contact.linkedId a),
           (Contact.email b), (Contact.phoneNumber b), (Contact.linkedId b);
    try reflexivity.
  rewrite (String.eqb_sym s s1), (String.eqb_sym s0 s2), (Z.eqb_sym z z0).
  reflexivity.
Qed.

(** The constraints do not depend on the order of the rows. *)
Lemma checkConstraints_Permutation (rs rs' : list Contact) :
  Permutation rs rs' -> checkConstraints rs = checkConstraints rs'.
Proof.
  intros HP. unfold checkConstraints.
  assert (Hp : primaryKeyHolds rs = primaryKeyHolds rs').
  { apply pairwise_Permutation; auto. intros a b.
    rewrite Z.eqb_sym. reflexivity. }
  assert (Hi : uniqueIndexHolds rs = uniqueIndexHolds rs').
  { apply pairwise_Permutation; auto. intros a b.
    rewrite sameIdentity_sym. reflexivity. }
  assert (Hf : foreignKeyHolds rs = foreignKeyHolds rs').
  { unfold foreignKeyHolds.
    rewrite (forallb_Permutation _ _ _ _ HP).
    rewrite <- (map_id rs') at 2.
    symmetry. apply forallb_map_ext. intros c.
    destruct (Contact.linkedId c); auto.
    apply existsb_Permutation. apply Permutation_sym. exact HP. }
  rewrite Hp, Hi, Hf. reflexivity.
Qed.

Lemma rewriteRows_perm (touched : Contact -> bool)
  (change : Contact -> Contact) (rs rs' : list Contact) :
  Permutation rs rs' ->
  Permutation (rewriteRows touched change rs)
              (rewriteRows touched change rs').
Proof.
  intros HP.
  rewrite (rewriteRows_Permutation touched change rs).
  rewrite (rewriteRows_Permutation touched change rs').
  apply Permutation_map. exact HP.
Qed.

Lemma rewriteRows_noTies (touched : Contact -> bool)
  (change : Contact -> Contact) (rs : list Contact) :
  (forall c, Contact.createdAt (change c) = Contact.createdAt c) ->
  noTies rs -> noTies (rewriteRows touched change rs).
Proof.
  intros Hg Hn. unfold noTies.
  apply (Permutation_NoDup (l := map Contact.createdAt rs)); [|exact Hn].
  apply Permutation_sym.
  rewrite (rewriteRows_Permutation touched change rs), map_map.
  rewrite (map_ext (fun c => Contact.createdAt (if touched c then change c
                                                else c))
                   Contact.createdAt).
  - apply Permutation_refl.
  - intros c. destruct (touched c); auto.
Qed.

Lemma write_Permutation (touched : Contact -> bool)
  (change : Contact -> Contact) (guard guard' : bool)
  (err : Error) (tx tx' : Store) :
  Permutation (rows tx) (rows tx') -> nextId tx = nextId tx' ->
  guard = guard' ->
  (forall c, Contact.createdAt (change c) = Contact.createdAt c) ->
  noTies (rows tx) ->
  match (if guard
         then _ <- checkConstraints (rewriteRows touched change (rows tx)) ;;
              Ok (mkStore (rewriteRows touched change (rows tx)) (nextId tx))
         else Err err),
        (if guard'
         then _ <- checkConstraints (rewriteRows touched change (rows tx')) ;;
              Ok (mkStore (rewriteRows touched change (rows tx'))
                          (nextId tx'))
         else Err err) with
  | Ok t, Ok t' =>
      Permutation (rows t) (rows t') /\ nextId t = nextId t' /\
      noTies (rows t)
  | Err e, Err e' => e = e'
  | _, _ => False
  end.
Proof.
  intros HP N <- Hg Hn. destruct guard; [|reflexivity].
  rewrite (checkConstraints_Permutation _ _
             (rewriteRows_perm touched change _ _ HP)).
  destruct (checkConstraints _) as [[]|]; simpl; auto.
  split; [apply rewriteRows_perm; exact HP|]. split; [exact N|].
  apply rewriteRows_noTies; auto.
Qed.

Lemma update_Permutation (whereId rootId now : Z) (tx tx' : Store) :
  Permutation (rows tx) (rows tx') -> nextId tx = nextId tx' ->
  noTies (rows tx) ->
  match update whereId rootId now tx, update whereId rootId now tx' with
  | Ok t, Ok t' =>
      Permutation (rows t) (rows t') /\ nextId t = nextId t' /\
      noTies (rows t)
  | Err e, Err e' => e = e'
  | _, _ => False
  end.
Proof.
  intros HP N Hn.
  apply (write_Permutation
           (fun c => Contact.id c =? whereId) (demote rootId now)
           (existsb (fun c => Contact.id c =? whereId) (rows tx))
           (existsb (fun c => Contact.id c =? whereId) (rows tx'))
           (PrismaClientKnownRequestError PRISMA_RECORD_NOT_FOUND_CODE)
           tx tx' HP N (existsb_Permutation _ _ _ _ HP)); auto.
Qed.

Lemma updateMany_Permutation (whereLinkedId rootId now : Z)
  (tx tx' : Store) :
  Permutation (rows tx) (rows tx') -> nextId tx = nextId tx' ->
  noTies (rows tx) ->
  match updateMany whereLinkedId rootId now tx,
        updateMany whereLinkedId rootId now tx' with
  | Ok t, Ok t' =>
      Permutation (rows t) (rows t') /\ nextId t = nextId t' /\
      noTies (rows t)
  | Err e, Err e' => e = e'
  | _, _ => False
  end.
Proof.
  intros HP N Hn.
  apply (write_Permutation
           (fun c => optZ_eqb (Contact.linkedId c) (Some whereLinkedId)
                     && isLive c)
           (relink rootId now)
           true true TypeError tx tx' HP N eq_refl); auto.
Qed.

Lemma mergeLoop_Permutation (rootId : Z) (losers : list Contact) (now : Z) :
  forall tx tx',
    Permutation (rows tx) (rows tx') -> nextId tx = nextId tx' ->
    noTies (rows tx) ->
    match mergeLoop rootId losers now tx, mergeLoop rootId losers now tx' with
    | Ok t, Ok t' =>
        Permutation (rows t) (rows t') /\ nextId t = nextId t' /\
        noTies (rows t)
    | Err e, Err e' => e = e'
    | _, _ => False
    end.
Proof.
  induction losers as [|l losers IH]; simpl; intros tx tx' HP N Hn.
  - auto.
  - pose proof (update_Permutation (Contact.id l) rootId now tx tx' HP N Hn)
      as H1.
    destruct (update _ _ _ tx) as [tx1|e1];
      destruct (update _ _ _ tx') as [tx1'|e1']; simpl;
      try contradiction; auto.
    destruct H1 as [HP1 [N1 Hn1]].
    pose proof (updateMany_Permutation (Contact.id l) rootId now tx1 tx1'
                  HP1 N1 Hn1) as H2.
    destruct (updateMany _ _ _ tx1) as [tx2|e2];
      destruct (updateMany _ _ _ tx1') as [tx2'|e2']; simpl;
      try contradiction; auto.
    destruct H2 as [HP2 [N2 Hn2]]. apply IH; auto.
Qed.

Lemma create_Permutation (email phoneNumber : option string)
  (linkedId : option Z) (linkPrecedence : LinkPrecedence) (now : Z)
  (tx tx' : Store) :
  Permutation (rows tx) (rows tx') -> nextId tx = nextId tx' ->
  match create email phoneNumber linkedId linkPrecedence now tx,
        create email phoneNumber linkedId linkPrecedence now tx' with
  | Ok (t, n), Ok (t', n') =>
      n = n' /\ Permutation (rows t) (rows t') /\ nextId t = nextId t'
  | Err e, Err e' => e = e'
  | _, _ => False
  end.
Proof.
  intros HP N. unfold create. rewrite <- N.
  assert (HP' : forall n, Permutation (rows tx ++ [n]) (rows tx' ++ [n]))
    by (intros n; apply Permutation_app_tail; exact HP).
  rewrite (checkConstraints_Permutation _ _ (HP' _)).
  destruct (INT_MAX <? nextId tx); [reflexivity|].
  destruct (negb (fitsColumns email phoneNumber)); [reflexivity|].
  destruct (checkConstraints _) as [[]|]; simpl; auto.
Qed.

(** X16.  The order of the scan matters only through ties.  When no two
    rows of the table have the same [createdAt], the order in which the
    database scans the table has no effect on a call: on two tables with
    the same rows in different orders, the call returns the same payload
    and tables with the same rows, or fails with the same error. *)
Theorem scan_order_irrelevant_without_ties
  (email phoneNumber : option string) (now : Z) (tx tx' : Store) :
  Permutation (rows tx) (rows tx') -> nextId tx = nextId tx' ->
  noTies (rows tx) ->
  sameUpToOrder (reconcile email phoneNumber now tx)
                (reconcile email phoneNumber now tx').
Proof.
  intros HP N Hn. unfold sameUpToOrder, reconcile, matchingContacts.
  rewrite <- (findMany_Permutation (whereMatching email phoneNumber) tx tx'
                HP Hn).
  destruct (findMany (whereMatching email phoneNumber) tx) as [|m ms] eqn:Em.
  - pose proof (create_Permutation email phoneNumber None primary now
                  tx tx' HP N) as H.
    destruct (create _ _ _ _ _ tx) as [[t n]|e];
      destruct (create _ _ _ _ _ tx') as [[t' n']|e']; simpl;
      try contradiction; auto.
    destruct H as [-> [HP1 N1]]. auto.
  - unfold primaries, matchingContacts.
    rewrite <- (findMany_Permutation (whereMatching email phoneNumber) tx tx'
                  HP Hn).
    rewrite Em.
    destruct (idList (primaryIds (m :: ms))) as [ids|]; simpl; auto.
    rewrite <- (findMany_Permutation (whereIdIn ids) tx tx' HP Hn).
    destruct (findMany (whereIdIn ids) tx) as [|rootPrimary losers]; simpl;
      auto.
    pose proof (mergeLoop_Permutation (Contact.id rootPrimary) losers now
                  tx tx' HP N Hn) as H.
    destruct (mergeLoop _ _ _ tx) as [tx1|e];
      destruct (mergeLoop _ _ _ tx') as [tx1'|e']; simpl;
      try contradiction; auto.
    destruct H as [HP1 [N1 Hn1]].
    rewrite <- (findMany_Permutation (whereGroup (Contact.id rootPrimary))
                  tx1 tx1' HP1 Hn1).
    destruct (attachCondition _ _ _); simpl; auto.
    pose proof (create_Permutation email phoneNumber
                  (Some (Contact.id rootPrimary)) secondary now
                  tx1 tx1' HP1 N1) as H.
    destruct (create _ _ _ _ _ tx1) as [[t n]|e];
      destruct (create _ _ _ _ _ tx1') as [[t' n']|e']; simpl;
      try contradiction; auto.
    destruct H as [-> [HP2 N2]]. auto.
Qed.

Lemma scan_order_irrelevant_without_ties_witness :
  sameUpToOrder
    (Ok (Examples.afterMerge, MoreExamples.mergedPayload))
    (reconcile (Some "george@hv.edu") (Some "717171") 30
               MoreExamples.twoPrimariesSwapped).
Proof.
  apply (scan_order_irrelevant_without_ties (Some "george@hv.edu")
           (Some "717171") 30 MoreExamples.twoPrimaries
           MoreExamples.twoPrimariesSwapped).
  - apply perm_swap.
  - reflexivity.
  - repeat constructor; simpl; intuition discriminate.
Defined.

(* ================================================================== *)
(** * The HTTP layer *)

Section HttpProperties.

Context {P : Primitives}.

Lemma emailTransform_normalized (v : option string) :
  normalized (emailTransform v) /\
  (forall s, emailTransform v = Some s -> v = Some s).
Proof.
  unfold normalized, emailTransform. destruct v as [s|]; simpl.
  - destruct (String.eqb s "") eqn:E; simpl.
    + split; [discriminate|]. discriminate.
    + apply String.eqb_neq in E.
      destruct (0 <? Z.of_nat (String.length s)); split; congruence.
  - split; discriminate.
Qed.

Lemma emailField_Some (v : option Json) (email : option string) :
  emailField v = Some email ->
  normalized email /\
  forall s, email = Some s ->
            exists raw, v = Some (JString raw) /\
                        s = toLowerCase (trim raw) /\
                        isEmail s = true /\
                        (String.length s <= 320)%nat.
Proof.
  unfold emailField. intros E.
  destruct v as [[| |n|raw| |]|]; try discriminate.
  - inversion E; subst.
    split; [apply (proj1 (emailTransform_normalized None))|].
    intros s Es. discriminate Es.
  - destruct (isEmail (toLowerCase (trim raw))
              && (Z.of_nat (String.length (toLowerCase (trim raw))) <=? 320))
      eqn:Ec; [|discriminate].
    apply andb_true_iff in Ec. destruct Ec as [Ee El].
    apply Z.leb_le in El. inversion E; subst.
    destruct (emailTransform_normalized (Some (toLowerCase (trim raw))))
      as [Hn Hs].
    split; [exact Hn|].
    intros s Es. apply Hs in Es.
    inversion Es; subst. exists raw. repeat split; auto. lia.
  - inversion E; subst.
    split; [apply (proj1 (emailTransform_normalized None))|].
    intros s Es. discriminate Es.
Qed.

Lemma phonePipe_Some (v phoneNumber : option string) :
  phonePipe v = Some phoneNumber ->
  phoneNumber = v /\
  forall s, v = Some s -> phonePattern s = true /\
                          (String.length s <= 20)%nat.
Proof.
  unfold phonePipe. destruct v as [s|].
  - destruct ((Z.of_nat (String.length s) <=? 20) && phonePattern s) eqn:Ec;
      [|discriminate].
    apply andb_true_iff in Ec. destruct Ec as [El Ep].
    apply Z.leb_le in El.
    intros E. inversion E; subst. split; auto.
    intros s' Es. inversion Es; subst. split; auto. lia.
  - intros E. inversion E; subst. split; auto. discriminate.
Qed.

Lemma phoneTransform_normalized (v : option string) :
  normalized (phoneTransform v) /\
  forall s, phoneTransform v = Some s ->
            exists raw, v = Some raw /\ s = trim raw.
Proof.
  unfold normalized, phoneTransform. destruct v as [raw|].
  - destruct (Z.of_nat (String.length (trim raw)) =? 0) eqn:E.
    + split; discriminate.
    + apply Z.eqb_neq in E. split.
      * intros H. inversion H as [H']. rewrite H' in E. simpl in E. lia.
      * intros s Es. inversion Es; subst. eauto.
  - split; discriminate.
Qed.

Lemma phoneNumberField_Some (v : option Json) (phoneNumber : option string) :
  phoneNumberField v = Some phoneNumber ->
  normalized phoneNumber /\
  forall s, phoneNumber = Some s ->
            (exists raw, (v = Some (JString raw) \/
                          exists n, v = Some (JNumber n) /\
                                    raw = numberToString n) /\
                         s = trim raw) /\
            phonePattern s = true /\ (String.length s <= 20)%nat.
Proof.
  unfold phoneNumberField. intros E.
  assert (Hpipe : forall w,
            phonePipe (phoneTransform w) = Some phoneNumber ->
            normalized phoneNumber /\
            forall s, phoneNumber = Some s ->
                      (exists raw, w = Some raw /\ s = trim raw) /\
                      phonePattern s = true /\ (String.length s <= 20)%nat).
  { intros w Ew. apply phonePipe_Some in Ew. destruct Ew as [-> Hs].
    split; [apply phoneTransform_normalized|].
    intros s Es. split; [|apply Hs; exact Es].
    apply phoneTransform_normalized. exact Es. }
  destruct v as [[| |n|raw| |]|]; try discriminate.
  - destruct (Hpipe _ E) as [Hn Hs]. split; auto.
    intros s Es. destruct (Hs s Es) as [[raw [Hraw _]] _]. discriminate.
  - destruct (Hpipe _ E) as [Hn Hs]. split; auto.
    intros s Es. destruct (Hs s Es) as [[raw [Hraw Et]] Hp].
    inversion Hraw; subst raw. split; auto.
    exists (numberToString n). split; auto. right. exists n. auto.
  - destruct (Hpipe _ E) as [Hn Hs]. split; auto.
    intros s Es. destruct (Hs s Es) as [[raw' [Hraw Et]] Hp].
    inversion Hraw; subst raw'. split; auto.
    exists raw. split; auto.
  - destruct (Hpipe _ E) as [Hn Hs]. split; auto.
    intros s Es. destruct (Hs s Es) as [[raw [Hraw _]] _]. discriminate.
Qed.

Lemma truthy_present (v : option string) :
  normalized v -> isNull v = false -> truthy v = true.
Proof.
  unfold normalized, truthy. destruct v as [s|]; simpl; [|discriminate].
  intros Hn _. apply negb_true_iff. apply String.eqb_neq. congruence.
Qed.

(** What a successful parse hands over. *)
Lemma safeParse_Some (body_ : Json) (email phoneNumber : option string) :
  safeParse body_ = Some (email, phoneNumber) ->
  exists fields,
    body_ = JObject fields /\ strict fields = true /\
    emailField (property fields "email") = Some email /\
    phoneNumberField (property fields "phoneNumber") = Some phoneNumber /\
    (truthy email = true \/ truthy phoneNumber = true).
Proof.
  unfold safeParse. intros E.
  destruct body_ as [| | | | |fields]; try discriminate.
  destruct (strict fields) eqn:Es; [|discriminate].
  destruct (emailField _) as [e|] eqn:Ee; [|discriminate].
  destruct (phoneNumberField _) as [p|] eqn:Ep; [|discriminate].
  destruct (negb (isNull e) || negb (isNull p)) eqn:Er; [|discriminate].
  inversion E; subst. exists fields. repeat split; auto.
  apply orb_true_iff in Er.
  destruct Er as [Er|Er]; apply negb_true_iff in Er; [left|right];
    apply truthy_present; auto.
  - apply (emailField_Some _ _ Ee).
  - apply (phoneNumberField_Some _ _ Ep).
Qed.

(** X17.  What the validation schema lets through.  When
    [identifySchema.safeParse] succeeds, the body is an object with no key
    other than [email] and [phoneNumber]; each field handed to [identify] is
    null or a non-empty string, and at least one is a non-empty string, so
    the first query of the reconciler always carries a filter.  An email
    handed over is the trimmed, lower-cased string of the body, passes the
    email check and has at most 320 characters; a phone number is the
    trimmed string or printed number of the body, fits the pattern and has
    at most 20 characters. *)
Theorem safeParse_output (body_ : Json) (email phoneNumber : option string) :
  safeParse body_ = Some (email, phoneNumber) ->
  normalized email /\ normalized phoneNumber /\
  (email <> None \/ phoneNumber <> None) /\
  orConditions email phoneNumber <> [] /\
  exists fields,
    body_ = JObject fields /\
    (forall k v, In (k, v) fields -> k = "email" \/ k = "phoneNumber") /\
    (forall s, email = Some s ->
       exists raw, property fields "email" = Some (JString raw) /\
                   s = toLowerCase (trim raw) /\
                   isEmail s = true /\ (String.length s <= 320)%nat) /\
    (forall s, phoneNumber = Some s ->
       (exists raw,
          (property fields "phoneNumber" = Some (JString raw) \/
           exists n, property fields "phoneNumber" = Some (JNumber n) /\
                     raw = numberToString n) /\
          s = trim raw) /\
       phonePattern s = true /\ (String.length s <= 20)%nat).
Proof.
  intros E.
  destruct (safeParse_Some _ _ _ E) as [fields [-> [Hs [Ee [Ep Ht]]]]].
  destruct (emailField_Some _ _ Ee) as [Hne He].
  destruct (phoneNumberField_Some _ _ Ep) as [Hnp Hp].
  split; [exact Hne|]. split; [exact Hnp|]. split; [|split].
  - destruct Ht as [Ht|Ht]; [left|right]; intros ->; discriminate.
  - unfold orConditions.
    destruct Ht as [Ht|Ht]; rewrite Ht; [discriminate|].
    destruct (truthy email); discriminate.
  - exists fields. split; [reflexivity|]. split; [|split; auto].
    intros k v Hin. unfold strict in Hs.
    rewrite forallb_forall in Hs. specialize (Hs _ Hin). simpl in Hs.
    apply orb_true_iff in Hs.
    destruct Hs as [Hs|Hs]; apply String.eqb_eq in Hs; auto.
Qed.

(** The fields the schema lets through fit their columns. *)
Lemma safeParse_fits (body_ : Json) (email phoneNumber : option string) :
  safeParse body_ = Some (email, phoneNumber) ->
  fitsColumns email phoneNumber = true.
Proof.
  intros E.
  destruct (safeParse_Some _ _ _ E) as [fields [_ [_ [Ee [Ep _]]]]].
  destruct (emailField_Some _ _ Ee) as [_ He].
  destruct (phoneNumberField_Some _ _ Ep) as [_ Hp].
  unfold fitsColumns, fitsColumn. apply andb_true_iff. split.
  - destruct phoneNumber as [s|]; [|reflexivity].
    destruct (Hp s eq_refl) as [_ [_ Hl]]. apply Nat.leb_le. exact Hl.
  - destruct email as [s|]; [|reflexivity].
    destruct (He s eq_refl) as [raw [_ [_ [_ Hl]]]].
    apply Nat.leb_le. exact Hl.
Qed.

(** X18.  The answer to a body on a consistent table.  When the table the
    first transaction reads is consistent, the sequence of ids has an id
    left (the next id is at most 2147483647, the end of the [SERIAL]
    column) and the database does not abort that transaction at commit,
    [POST /identify] answers 400 without running a transaction if the body
    fails the schema, and otherwise 200 with the payload that [reconcile]
    computes for the normalized fields; the error handler is not reached,
    and the table committed is consistent.  The lengths the schema allows
    are those of the columns, so no value it lets through is too long. *)
Theorem answerIdentify_consistent (env : option string)
  (thrown : Error -> JsError) (first retry : Attempt) (body_ : Json) :
  consistent (snapshot first) -> abort first = None ->
  nextId (snapshot first) <= INT_MAX ->
  (safeParse body_ = None /\
   answerIdentify env thrown first retry body_
   = (None, mkHttpResponse 400 (ValidationBody "Validation failed"))) \/
  (exists email phoneNumber tx' result,
     safeParse body_ = Some (email, phoneNumber) /\
     reconcile email phoneNumber (now_ first) (snapshot first)
     = Ok (tx', result) /\
     answerIdentify env thrown first retry body_
     = (Some tx', mkHttpResponse 200 (PayloadBody result)) /\
     consistent tx').
Proof.
  intros Hc Ha Hi. unfold answerIdentify, postIdentify.
  destruct (safeParse body_) as [[email phoneNumber]|] eqn:Es.
  - right.
    destruct (reconcile_succeeds email phoneNumber (now_ first)
                (snapshot first) Hc (safeParse_fits _ _ _ Es) Hi)
      as [tx' [result [E [Hc' _]]]].
    exists email, phoneNumber, tx', result.
    split; [reflexivity|]. split; [exact E|]. split; [|exact Hc'].
    unfold identify, transaction. rewrite E, Ha. reflexivity.
  - left. auto.
Qed.

(** X19.  What the client sees of an error.  Whatever the tables and the
    body, when the errors of the service carry no [statusCode] (as those of
    the database client and a [TypeError] do), the answer to
    [POST /identify] has status 200, 400 or 500; with 500 nothing was
    committed, [identify] failed for the parsed fields, and the body says
    ["Internal Server Error"], never the message of the error; the stack of
    the error is sent unless [NODE_ENV] is ["production"]. *)
Theorem answerIdentify_error_hidden (env : option string)
  (thrown : Error -> JsError) (first retry : Attempt) (body_ : Json) :
  (forall err, statusCode (thrown err) = None) ->
  let answer := answerIdentify env thrown first retry body_ in
  (status (snd answer) = 200 \/ status (snd answer) = 400 \/
   status (snd answer) = 500) /\
  (status (snd answer) = 500 ->
   fst answer = None /\
   exists email phoneNumber err,
     safeParse body_ = Some (email, phoneNumber) /\
     identify first retry email phoneNumber = Err err /\
     body (snd answer)
     = ErrorBody "Internal Server Error"
                 (if String.eqb (NODE_ENV env) "production" then None
                  else Some (stack (thrown err)))).
Proof.
  intros Hs. unfold answerIdentify, postIdentify.
  destruct (safeParse body_) as [[email phoneNumber]|] eqn:Es; simpl.
  - destruct (identify first retry email phoneNumber)
      as [[tx' result]|err] eqn:Ei; simpl.
    + split; [left; reflexivity|]. discriminate.
    + unfold globalErrorHandler. rewrite Hs. simpl.
      split; [right; right; reflexivity|].
      intros _. split; [reflexivity|].
      exists email, phoneNumber, err. auto.
  - split; [right; left; reflexivity|]. discriminate.
Qed.

End HttpProperties.

Lemma safeParse_output_witness :
  orConditions (Some "george@hv.edu") (Some "717171") <> [].
Proof.
  apply (safeParse_output (P := MoreExamples.asciiPrimitives)
           MoreExamples.georgeBody (Some "george@hv.edu") (Some "717171")).
  vm_compute. reflexivity.
Defined.

Lemma answerIdentify_consistent_witness :
  answerIdentify (P := MoreExamples.asciiPrimitives) (Some "production")
    MoreExamples.thrown (mkAttempt MoreExamples.twoPrimaries 30 None)
    Examples.conflictingAttempt MoreExamples.georgeBody
  = (Some Examples.afterMerge,
     mkHttpResponse 200 (PayloadBody MoreExamples.mergedPayload)).
Proof.
  destruct (answerIdentify_consistent (P := MoreExamples.asciiPrimitives)
              (Some "production") MoreExamples.thrown
              (mkAttempt MoreExamples.twoPrimaries 30 None)
              Examples.conflictingAttempt MoreExamples.georgeBody
              consistent_twoPrimaries eq_refl
              ltac:(vm_compute; discriminate))
    as [[Es _]|[email [phoneNumber [tx' [result [Es [Er [Ea _]]]]]]]].
  - vm_compute in Es. discriminate.
  - rewrite Ea. vm_compute in Es. inversion Es; subst.
    vm_compute in Er. inversion Er; subst. reflexivity.
Defined.

Lemma answerIdentify_error_hidden_witness :
  body (snd (answerIdentify (P := MoreExamples.asciiPrimitives)
               (Some "production") MoreExamples.thrown
               Examples.conflictingAttempt Examples.cleanAttempt
               (JObject [("email", JString "doc@hv.edu")])))
  = ErrorBody "Internal Server Error" None.
Proof.
  destruct (answerIdentify_error_hidden (P := MoreExamples.asciiPrimitives)
              (Some "production") MoreExamples.thrown
              Examples.conflictingAttempt Examples.cleanAttempt
              (JObject [("email", JString "doc@hv.edu")])
              (fun err => eq_refl)) as [_ H].
  destruct (H eq_refl) as [_ [email [phoneNumber [err [_ [_ Eb]]]]]].
  rewrite Eb. reflexivity.
Defined.
(* ================================================================== *)
(** * The payload of a call and the view of the group *)

Lemma StronglySorted_filter (w : Contact -> bool) (l : list Contact) :
  StronglySorted createdAtLe l -> StronglySorted createdAtLe (filter w l).
Proof.
  induction l as [|c l IH]; simpl; intros Hs; [constructor|].
  inversion Hs as [|? ? Hs' Hall]; subst.
  destruct (w c); auto. constructor; auto.
  rewrite Forall_forall in *. intros d Hd. apply Hall.
  apply filter_In in Hd. tauto.
Qed.

(** The secondaries that a call reads are in ascending [createdAt]. *)
Lemma secondariesOf_sorted (rootId : Z) (w : Contact -> bool) (tx : Store) :
  StronglySorted createdAtLe (secondariesOf rootId (findMany w tx)).
Proof.
  unfold secondariesOf, findMany. apply StronglySorted_filter.
  apply Sorted_StronglySorted; [apply createdAtLe_trans|].
  apply orderByCreatedAt_sorted.
Qed.


Lemma insertByCreatedAtThenId_perm (c : Contact) (l : list Contact) :
  Permutation (c :: l) (insertByCreatedAtThenId c l).
Proof.
  induction l as [|d l IH]; simpl; auto.
  destruct (olderOrLowerId c d); auto.
  eapply perm_trans; [apply perm_swap|]. auto.
Qed.

Lemma orderByCreatedAtThenId_perm (l : list Contact) :
  Permutation l (orderByCreatedAtThenId l).
Proof.
  induction l as [|c l IH]; simpl; auto.
  eapply perm_trans; [|apply insertByCreatedAtThenId_perm]. auto.
Qed.

Lemma olderOrLowerId_true (a b : Contact) :
  olderOrLowerId a b = true -> createdAtLe a b.
Proof.
  unfold olderOrLowerId, createdAtLe. intros H.
  apply orb_true_iff in H. destruct H as [H|H].
  - apply Z.ltb_lt in H. lia.
  - apply andb_true_iff in H. destruct H as [H _].
    apply Z.eqb_eq in H. lia.
Qed.

Lemma olderOrLowerId_false (a b : Contact) :
  olderOrLowerId a b = false -> createdAtLe b a.
Proof.
  unfold olderOrLowerId, createdAtLe. intros H.
  apply orb_false_iff in H. destruct H as [H _].
  apply Z.ltb_ge in H. exact H.
Qed.

Lemma insertByCreatedAtThenId_sorted (c : Contact) (l : list Contact) :
  Sorted createdAtLe l -> Sorted createdAtLe (insertByCreatedAtThenId c l).
Proof.
  induction l as [|d l IH]; simpl; intros Hs.
  - repeat constructor.
  - destruct (olderOrLowerId c d) eqn:E.
    + constructor; auto. constructor. apply olderOrLowerId_true. exact E.
    + apply olderOrLowerId_false in E.
      inversion Hs as [|? ? Hs' Hd]; subst.
      constructor; auto.
      destruct l as [|d' l']; simpl.
      * constructor. exact E.
      * destruct (olderOrLowerId c d'); constructor; auto.
        inversion Hd; auto.
Qed.

Lemma orderByCreatedAtThenId_sorted (l : list Contact) :
  Sorted createdAtLe (orderByCreatedAtThenId l).
Proof.
  induction l; simpl;
    [constructor | apply insertByCreatedAtThenId_sorted; auto].
Qed.

(** Without ties the traversal the specification names is the one the
    code follows. *)
Lemma secondariesOf_view (rootId : Z) (tx : Store) :
  noTies (rows tx) ->
  secondariesOf rootId (findMany (whereGroup rootId) tx)
  = orderByCreatedAtThenId
      (secondariesOf rootId (filter (whereGroup rootId) (rows tx))).
Proof.
  intros Hn.
  assert (HP : Permutation
                 (secondariesOf rootId (findMany (whereGroup rootId) tx))
                 (secondariesOf rootId
                    (filter (whereGroup rootId) (rows tx)))).
  { unfold secondariesOf, findMany. apply filter_Permutation.
    apply Permutation_sym. apply orderByCreatedAt_perm. }
  apply sorted_perm_unique.
  - apply secondariesOf_sorted.
  - apply Sorted_StronglySorted; [apply createdAtLe_trans|].
    apply orderByCreatedAtThenId_sorted.
  - eapply perm_trans; [exact HP|]. apply orderByCreatedAtThenId_perm.
  - apply (noTies_Permutation _ _ (Permutation_sym HP)).
    unfold secondariesOf. apply noTies_filter. apply noTies_filter.
    exact Hn.
Qed.



(** The list passed on the attach path need not be in ascending
    [createdAt]: the row pushed last is stamped 55, the row read before it
    60. *)
Lemma pushed_row_out_of_order :
  reconcile (Some "c@t.io") (Some "100") 55 Examples.lateGroup
  = Ok (Examples.lateGroupAfter,
        buildResponse Examples.latePrimary
          ([Examples.lateSecondary] ++ [Examples.lateAttached])) /\
  Contact.createdAt Examples.lateSecondary = 60 /\
  Contact.createdAt Examples.lateAttached = 55.
Proof. repeat split; vm_compute; reflexivity. Qed.

(** C8 (as amended).  When the matches of a request resolve to a single
    root primary and some live row of that primary's group stores exactly
    the pair of the request (an absent field equal to an absent field),
    [reconcile] writes nothing: the table it returns is the table it was
    given.  The payload it returns is the view of the existing group: it
    is built from the root primary, a live row of the table, and from
    exactly the other live rows of its group, the rows of the consolidated
    view, taken in ascending [createdAt].  It is the consolidated view of
    the specification whenever no two rows of the table have the same
    [createdAt]; rows stamped alike come in the order the store returns
    them, not by ascending [id]. *)
Theorem exact_pair_is_noop (email phoneNumber : option string) (now : Z)
  (tx : Store) (rootPrimary c : Contact) :
  primaries email phoneNumber tx = Ok [rootPrimary] ->
  In c (findMany (whereGroup (Contact.id rootPrimary)) tx) ->
  Contact.email c = email ->
  Contact.phoneNumber c = phoneNumber ->
  exists secs,
    reconcile email phoneNumber now tx
    = Ok (tx, buildResponse rootPrimary secs) /\
    In rootPrimary (rows tx) /\ isLive rootPrimary = true /\
    (forall d, In d secs <->
               In d (rows tx) /\ inGroup (Contact.id rootPrimary) d /\
               Contact.id d <> Contact.id rootPrimary) /\
    Permutation secs
      (orderByCreatedAtThenId
         (secondariesOf (Contact.id rootPrimary)
            (filter (whereGroup (Contact.id rootPrimary)) (rows tx)))) /\
    StronglySorted createdAtLe secs /\
    (noTies (rows tx) ->
     buildResponse rootPrimary secs
     = consolidatedView rootPrimary (rows tx)).
Proof.
  intros Ep Hc Ee Eph. subst email phoneNumber.
  assert (Hm : In c (matchingContacts (Contact.email c)
                                      (Contact.phoneNumber c) tx)).
  { apply findMany_In in Hc. destruct Hc as [Hc Hg].
    apply whereGroup_true in Hg. destruct Hg as [Hl _].
    apply findMany_In. split; auto. apply whereMatching_exact; auto. }
  destruct (primaries_root_in_rows _ _ _ _ rootPrimary Ep) as [Hr Hlr];
    [left; reflexivity|].
  exists (secondariesOf (Contact.id rootPrimary)
            (findMany (whereGroup (Contact.id rootPrimary)) tx)).
  split; [|split; [exact Hr|split; [exact Hlr|split; [|split; [|split]]]]].
  - unfold reconcile.
    destruct (matchingContacts _ _ tx) as [|m ms]; [destruct Hm|].
    rewrite Ep. simpl.
    unfold attachCondition. rewrite exactDuplicate_exact by auto.
    rewrite andb_false_r. reflexivity.
  - intros d. rewrite secondariesOf_In, group_rows. tauto.
  - eapply perm_trans; [|apply orderByCreatedAtThenId_perm].
    unfold secondariesOf, findMany. apply filter_Permutation.
    apply Permutation_sym. apply orderByCreatedAt_perm.
  - apply secondariesOf_sorted.
  - intros Hn. unfold consolidatedView.
    rewrite (secondariesOf_view _ _ Hn). reflexivity.
Qed.

Lemma exact_pair_is_noop_witness :
  exists secs,
    reconcile (Some "b@t.io") (Some "100") 70 Examples.lateGroupAfter
    = Ok (Examples.lateGroupAfter, buildResponse Examples.latePrimary secs) /\
    In Examples.latePrimary (rows Examples.lateGroupAfter) /\
    isLive Examples.latePrimary = true /\
    (forall d, In d secs <->
               In d (rows Examples.lateGroupAfter) /\
               inGroup (Contact.id Examples.latePrimary) d /\
               Contact.id d <> Contact.id Examples.latePrimary) /\
    Permutation secs
      (orderByCreatedAtThenId
         (secondariesOf (Contact.id Examples.latePrimary)
            (filter (whereGroup (Contact.id Examples.latePrimary))
                    (rows Examples.lateGroupAfter)))) /\
    StronglySorted createdAtLe secs /\
    (noTies (rows Examples.lateGroupAfter) ->
     buildResponse Examples.latePrimary secs
     = consolidatedView Examples.latePrimary (rows Examples.lateGroupAfter)).
Proof.
  apply (exact_pair_is_noop (Some "b@t.io") (Some "100") 70
           Examples.lateGroupAfter Examples.latePrimary
           Examples.lateSecondary).
  - vm_compute. reflexivity.
  - vm_compute. auto.
  - reflexivity.
  - reflexivity.
Defined.

(** C8 (as stated) fails on the payload: row 2 of the group stores exactly
    the pair of the request and the call writes nothing, but the two
    secondaries are stamped alike and the payload lists them as the scan
    met them, 3 before 2, where the consolidated view of the specification
    lists 2 before 3. *)
Lemma exact_pair_view_counterexample :
  primaries (Some "b@t.io") (Some "100") Examples.tiedGroup
  = Ok [Examples.tiedPrimary] /\
  In Examples.tiedSecondary2
     (findMany (whereGroup (Contact.id Examples.tiedPrimary))
               Examples.tiedGroup) /\
  Contact.email Examples.tiedSecondary2 = Some "b@t.io" /\
  Contact.phoneNumber Examples.tiedSecondary2 = Some "100" /\
  reconcile (Some "b@t.io") (Some "100") 9 Examples.tiedGroup
  = Ok (Examples.tiedGroup,
        mkResponse (mkConsolidated 1 ["a@t.io"; "c@t.io"; "b@t.io"] ["100"]
                                   [3; 2])) /\
  consolidatedView Examples.tiedPrimary (rows Examples.tiedGroup)
  = mkResponse (mkConsolidated 1 ["a@t.io"; "b@t.io"; "c@t.io"] ["100"]
                               [2; 3]).
Proof.
  split; [vm_compute; reflexivity|].
  split; [vm_compute; auto|].
  repeat split; vm_compute; reflexivity.
Qed.

(* ================================================================== *)
(** * The place of a row that is written *)

(** A row that a merge demotes or re-links is written as a new tuple and
    comes last in the scan; among rows stamped alike it is then listed
    after the rows that were not written.  In the first table row 2 is
    demoted and passes behind row 3; in the second, row 3 is re-linked and
    passes behind row 4. *)
Lemma written_rows_come_last :
  (exists tx',
     reconcile (Some "a@t.io") (Some "200") 40 Examples.movedOne
     = Ok (tx', mkResponse (mkConsolidated 1 ["a@t.io"; "c@t.io"; "b@t.io"]
                                           ["100"; "200"] [3; 2])) /\
     map Contact.id (rows tx') = [1; 3; 2]) /\
  (exists tx',
     reconcile (Some "a@t.io") (Some "200") 40 Examples.movedMany
     = Ok (tx', mkResponse
                  (mkConsolidated 1 ["a@t.io"; "b@t.io"; "d@t.io"; "c@t.io"]
                                  ["100"; "200"] [2; 4; 3])) /\
     map Contact.id (rows tx') = [1; 4; 2; 3]).
Proof.
  split; eexists; split; vm_compute; reflexivity.
Qed.
